(** * Visibility engine: ray casting, angle utilities and wall kinematics

    A shallow embedding of [visibility_engine.py] (the geometry core: [Vec2],
    [Segment], [Wall], [rotate_around], [angle_diff],
    [ray_segment_intersection] and [VisibilityEngine]; then [Scene] and the
    state of [Game]) and the proofs of its specification.

    The program computes on Python floats and calls [math.cos], [math.sin],
    [math.atan2], [math.hypot], [round] and [list.sort].  The embedding is
    written once, over an interface [PyFloat] of the operations the source
    uses, and read in two ways:
    - [float_PyFloat]: IEEE binary64 ([PrimFloat]), the arithmetic Python
      runs, with the C library's functions, [round] and [list.sort] as a
      parameter ([Builtins]);
    - [R_PyFloat]: exact real arithmetic, the idealisation in which the
      trigonometric identities hold.
    A statement about what the program does on floats is made on the first;
    the second carries the geometry, and where the two part the statement
    says so.

    Python raises [ValueError] from [math.sin]/[math.cos] at an infinity and
    [ZeroDivisionError] from a float division by zero, and a [while] loop may
    run forever: results live in [Res], and loops take fuel. *)

From stdpp Require Import base option list gmap sets.
From Stdlib Require Import ZArith Reals Lra Lia Floats Uint63 Sorted.

Set Warnings "-inexact-float".

(** ** Results of Python computations *)

Inductive PyExn : Type := ValueError | ZeroDivisionError.

Inductive Res (A : Type) : Type :=
| Ok (a : A)
| Raise (e : PyExn)
| OutOfFuel.

Arguments Ok {A} a.
Arguments Raise {A} e.
Arguments OutOfFuel {A}.

Global Instance Res_ret : MRet Res := fun A a => Ok a.

Global Instance Res_bind : MBind Res := fun A B k m =>
  match m with
  | Ok a => k a
  | Raise e => Raise e
  | OutOfFuel => OutOfFuel
  end.

(** ** list.sort

    [list.sort] is a builtin.  What it leaves is a permutation of the list
    it was given, whatever [<] does on the keys; on keys that [<] orders (no
    NaN among them) it is the stable sorted list; and a list in which no
    element is less than the one before it is left as it is (it is one run).
    With a NaN among the keys nothing more is fixed: the place the other
    elements end at depends on the merge strategy of the interpreter.  So the
    sort is part of the interface below, as the C library's functions are: a
    function that returns a list with the evidence that it is a permutation;
    the two other properties are [SortLaws]. *)

Record SortResult {A : Type} (l : list A) : Type := mkSorted {
  sorted_list : list A;
  sorted_perm : sorted_list ≡ₚ l;
}.
Arguments mkSorted {A l} sorted_list sorted_perm.
Arguments sorted_list {A l} _.
Arguments sorted_perm {A l} _.

(** An executable sort with these properties: insertion from the back, by
    [lt] on the keys.  [placed] holds the elements placed so far, the last
    one first; an element moves in front of those it is less than. *)
Section InsertionSort.
Context {A K : Type} (lt : K -> K -> bool) (key : A -> K).

Fixpoint sort_insert (e : A) (placed : list A) : list A :=
  match placed with
  | [] => [e]
  | e' :: placed' =>
      if lt (key e) (key e') then e' :: sort_insert e placed'
      else e :: e' :: placed'
  end.

Definition sort_place (l placed : list A) : list A :=
  fold_left (fun placed e => sort_insert e placed) l placed.

Definition insertion_sort (l : list A) : list A := rev (sort_place l []).

Lemma sort_insert_perm (e : A) (placed : list A) :
  sort_insert e placed ≡ₚ e :: placed.
Proof.
induction placed as [|e' placed IH]; simpl; [reflexivity|].
destruct (lt (key e) (key e')); [|reflexivity].
rewrite IH. apply Permutation_swap.
Qed.

Lemma sort_place_perm (l : list A) :
  forall placed : list A, sort_place l placed ≡ₚ l ++ placed.
Proof.
unfold sort_place. induction l as [|e l IH]; intros placed; simpl; [reflexivity|].
rewrite IH, sort_insert_perm. symmetry. apply Permutation_middle.
Qed.

Lemma insertion_sort_perm (l : list A) : insertion_sort l ≡ₚ l.
Proof.
unfold insertion_sort. rewrite <- Permutation_rev, sort_place_perm.
rewrite app_nil_r. reflexivity.
Qed.

Definition insertion_sorted (l : list A) : SortResult l :=
  mkSorted (insertion_sort l) (insertion_sort_perm l).

(** The list is one run: no element is less than the one before it. *)
Fixpoint one_run (l : list A) : bool :=
  match l with
  | [] => true
  | x :: l' =>
      match l' with
      | [] => true
      | y :: _ => negb (lt (key y) (key x)) && one_run l'
      end
  end.

Lemma sort_place_run (l : list A) :
  forall placed : list A,
    match placed with
    | [] => one_run l
    | e' :: _ => one_run (e' :: l)
    end = true ->
    sort_place l placed = rev l ++ placed.
Proof.
unfold sort_place. induction l as [|e l IH]; intros placed Hrun; [reflexivity|].
cbn [fold_left rev]. rewrite <- app_assoc. cbn [app].
destruct placed as [|e' placed].
- cbn [sort_insert]. apply IH. exact Hrun.
- cbn [one_run] in Hrun. apply andb_prop in Hrun. destruct Hrun as [Hlt Hrun].
  apply negb_true_iff in Hlt. cbn [sort_insert]. rewrite Hlt.
  apply IH. exact Hrun.
Qed.

(** A run is left as it is. *)
Lemma insertion_sort_run (l : list A) : one_run l = true -> insertion_sort l = l.
Proof.
intros Hrun. unfold insertion_sort. rewrite (sort_place_run l [] Hrun).
rewrite app_nil_r. apply rev_involutive.
Qed.
End InsertionSort.

(** ** The float interface the source computes with *)

Class PyFloat (F : Type) : Type := {
  of_int : Z -> F;               (* an int literal or loop index used as a float *)
  lit_1em3 : F;                  (* the literal 1e-3 *)
  lit_1em6 : F;                  (* the literal 1e-6 *)
  math_pi : F;                   (* math.pi *)
  fadd : F -> F -> F;
  fsub : F -> F -> F;
  fmul : F -> F -> F;
  fquot : F -> F -> F;           (* the quotient, for a divisor that is not zero *)
  fneg : F -> F;
  fabs : F -> F;                 (* abs *)
  flt : F -> F -> bool;
  fle : F -> F -> bool;
  feq : F -> F -> bool;          (* == *)
  isinf : F -> bool;             (* math.isinf *)
  libm_cos : F -> F;
  libm_sin : F -> F;
  libm_atan2 : F -> F -> F;
  round4 : F -> F;               (* round(_, 4) *)
  list_sort : forall A : Type, (A -> F) -> forall l : list A, SortResult l;
                                 (* list.sort(key=...) *)
}.

Declare Scope py_scope.
Delimit Scope py_scope with py.
Notation "a + b" := (fadd a b) : py_scope.
Notation "a - b" := (fsub a b) : py_scope.
Notation "a * b" := (fmul a b) : py_scope.
Notation "a / b" := (fquot a b) : py_scope.
Notation "- a" := (fneg a) : py_scope.
Notation "a <? b" := (flt a b) : py_scope.
Notation "a <=? b" := (fle a b) : py_scope.
Notation "a =? b" := (feq a b) : py_scope.

(** [math.hypot], which [Vec2.length] calls.  It comes from the C library
    as well, and raises nothing: an infinity or a NaN goes through. *)
Class PyHypot (F : Type) : Type := {
  libm_hypot : F -> F -> F;
}.

Section PyMath.
Context {F : Type} `{PyFloat F}.
Local Open Scope py_scope.

(** [math.cos] and [math.sin] raise ValueError ("math domain error") at an
    infinity; a NaN goes through. *)
Definition math_cos (a : F) : Res F :=
  if isinf a then Raise ValueError else Ok (libm_cos a).

Definition math_sin (a : F) : Res F :=
  if isinf a then Raise ValueError else Ok (libm_sin a).

(** [a / b] on floats raises ZeroDivisionError when [b == 0]. *)
Definition py_div (a b : F) : Res F :=
  if b =? of_int 0 then Raise ZeroDivisionError else Ok (a / b).

(** [l.sort(key=key)]: the list the builtin leaves. *)
Definition py_sort_by {A} (key : A -> F) (l : list A) : list A :=
  sorted_list (list_sort A key l).

(** [l.sort()] *)
Definition py_sort (l : list F) : list F := py_sort_by (fun a => a) l.

(** [min(a, b)] and [max(a, b)]: the first argument stays unless the second
    is less, respectively greater. *)
Definition py_min (a b : F) : F := if b <? a then b else a.

Definition py_max (a b : F) : F := if a <? b then b else a.

(** [math.radians]: the product with [pi / 180.0]. *)
Definition math_radians (x : F) : F := x * (math_pi / of_int 180).
End PyMath.

(** ** class Vec2 *)

Module Vec2.
Section Vec2.
Context {F : Type} `{PyFloat F}.
Local Open Scope py_scope.

Record t : Type := make { x : F; y : F }.

Definition add (self other : t) : t :=
  make (x self + x other) (y self + y other).

Definition sub (self other : t) : t :=
  make (x self - x other) (y self - y other).

Definition mul (self : t) (scalar : F) : t :=
  make (x self * scalar) (y self * scalar).

Definition dot (self other : t) : F :=
  x self * x other + y self * y other.

Definition cross (self other : t) : F :=
  x self * y other - y self * x other.

Definition angle (self : t) : F := libm_atan2 (y self) (x self).

Definition from_angle (theta : F) : Res t :=
  c ← math_cos theta;
  s ← math_sin theta;
  Ok (make c s).

(** [Vec2(x, y)] at ints: [float(x)], [float(y)]. *)
Definition init (x y : Z) : t := make (of_int x) (of_int y).

Context `{PyHypot F}.

Definition length (self : t) : F := libm_hypot (x self) (y self).

Definition normalized (self : t) : Res t :=
  let l := length self in
  if l =? of_int 0 then Ok (make (of_int 0) (of_int 0))
  else
    nx ← py_div (x self) l;
    ny ← py_div (y self) l;
    Ok (make nx ny).
End Vec2.
Arguments t F : clear implicits.
End Vec2.

(** ** class Segment *)

Module Segment.
Record t (F : Type) : Type := make { p1 : Vec2.t F; p2 : Vec2.t F }.
Arguments make {F} p1 p2.
Arguments p1 {F} _.
Arguments p2 {F} _.

Definition points {F} (self : t F) : Vec2.t F * Vec2.t F := (p1 self, p2 self).
End Segment.

(** ** rotate_around, angle_diff, ray_segment_intersection *)

Section Geometry.
Context {F : Type} `{PyFloat F}.
Local Open Scope py_scope.

Definition rotate_around (point center : Vec2.t F) (angle : F) : Res (Vec2.t F) :=
  let translated := Vec2.sub point center in
  c ← math_cos angle;
  s ← math_sin angle;
  let rotated :=
    Vec2.make (Vec2.x translated * c - Vec2.y translated * s)
              (Vec2.x translated * s + Vec2.y translated * c) in
  Ok (Vec2.add center rotated).

(** [while diff <= -math.pi: diff += 2 * math.pi] *)
Fixpoint wrap_up (fuel : nat) (diff : F) : Res F :=
  if diff <=? - math_pi then
    match fuel with
    | O => OutOfFuel
    | S fuel' => wrap_up fuel' (diff + of_int 2 * math_pi)
    end
  else Ok diff.

(** [while diff > math.pi: diff -= math.pi * 2] *)
Fixpoint wrap_down (fuel : nat) (diff : F) : Res F :=
  if math_pi <? diff then
    match fuel with
    | O => OutOfFuel
    | S fuel' => wrap_down fuel' (diff - math_pi * of_int 2)
    end
  else Ok diff.

(** Each of the two loops may run [fuel] times. *)
Definition angle_diff (fuel : nat) (a b : F) : Res F :=
  let diff := a - b in
  diff ← wrap_up fuel diff;
  wrap_down fuel diff.

Definition ray_segment_intersection (origin direction a b : Vec2.t F)
  : Res (option (F * F)) :=
  let v1 := Vec2.sub origin a in
  let v2 := Vec2.sub b a in
  let denom := Vec2.cross direction v2 in
  if fabs denom <? lit_1em6 then Ok None
  else
    t ← py_div (Vec2.cross v2 v1) denom;
    u ← py_div (Vec2.cross direction v1) denom;
    if t <? of_int 0 then Ok None else Ok (Some (t, u)).
End Geometry.

(** ** class Wall *)

Module Wall.
Section Wall.
Context {F : Type} `{PyFloat F}.
Local Open Scope py_scope.

Record t : Type := make {
  base_p1 : Vec2.t F;
  base_p2 : Vec2.t F;
  segment : Segment.t F;
  dynamic : bool;
  rotation_center : option (Vec2.t F);
  angular_speed : F;
  velocity : Vec2.t F;
  angle : F;
}.

(** [Wall.__init__]: the end points are copied, [velocity or Vec2(0, 0)]. *)
Definition init (p1 p2 : Vec2.t F) (dynamic : bool)
    (rotation_center : option (Vec2.t F)) (angular_speed : F)
    (velocity : option (Vec2.t F)) : t :=
  make (Vec2.make (Vec2.x p1) (Vec2.y p1)) (Vec2.make (Vec2.x p2) (Vec2.y p2))
       (Segment.make (Vec2.make (Vec2.x p1) (Vec2.y p1))
                     (Vec2.make (Vec2.x p2) (Vec2.y p2)))
       dynamic rotation_center angular_speed
       (default (Vec2.make (of_int 0) (of_int 0)) velocity)
       (of_int 0).

Definition set_angle (self : t) (a : F) : t :=
  make (base_p1 self) (base_p2 self) (segment self) (dynamic self)
       (rotation_center self) (angular_speed self) (velocity self) a.

Definition set_segment (self : t) (s : Segment.t F) : t :=
  make (base_p1 self) (base_p2 self) s (dynamic self)
       (rotation_center self) (angular_speed self) (velocity self) (angle self).

(** The rotation block of [update] (lines 90-94). *)
Definition update_rotation (self : t) (dt : F) : Res t :=
  match rotation_center self with
  | Some center =>
      if negb (angular_speed self =? of_int 0) then
        let self := set_angle self (angle self + angular_speed self * dt) in
        p1 ← rotate_around (base_p1 self) center (angle self);
        let self := set_segment self (Segment.make p1 (Segment.p2 (segment self))) in
        p2 ← rotate_around (base_p2 self) center (angle self);
        Ok (set_segment self (Segment.make (Segment.p1 (segment self)) p2))
      else Ok self
  | None => Ok self
  end.

(** The translation block of [update] (lines 96-99). *)
Definition update_translation (self : t) (dt : F) : t :=
  if negb (Vec2.x (velocity self) =? of_int 0)
     || negb (Vec2.y (velocity self) =? of_int 0) then
    let dp := Vec2.mul (velocity self) dt in
    let self :=
      set_segment self
        (Segment.make (Vec2.add (Segment.p1 (segment self)) dp)
                      (Segment.p2 (segment self))) in
    set_segment self
      (Segment.make (Segment.p1 (segment self))
                    (Vec2.add (Segment.p2 (segment self)) dp))
  else self.

(** [update] returns the wall as the call leaves it.  Nothing in the
    program catches an exception, so the state at a raise is not kept. *)
Definition update (self : t) (dt : F) : Res t :=
  if negb (dynamic self) then Ok self
  else
    self ← update_rotation self dt;
    Ok (update_translation self dt).

Definition get_segment (self : t) : Segment.t F := segment self.

(** The wall after an assignment to a coordinate of [self.velocity]. *)
Definition set_velocity (self : t) (v : Vec2.t F) : t :=
  make (base_p1 self) (base_p2 self) (segment self) (dynamic self)
       (rotation_center self) (angular_speed self) v (angle self).
End Wall.
Arguments t F : clear implicits.
End Wall.

(** ** class VisibilityEngine

    The engine holds the list of walls; a wall is identified by its place in
    that list, and the hit set holds places. *)

Module VisibilityEngine.
Section VisibilityEngine.
Context {F : Type} `{PyFloat F}.
Local Open Scope py_scope.

Record RayState : Type := mkRayState {
  closest_t : F;
  closest_point : option (Vec2.t F);
  hit_wall : option nat;
}.

(** The test of line 233, [0 <= t < closest_t and 0 <= u <= 1]. *)
Definition admissible (closest_t t u : F) : bool :=
  (of_int 0 <=? t) && (t <? closest_t) && ((of_int 0 <=? u) && (u <=? of_int 1)).

(** Lines 227-229: the ray against the current segment of a wall. *)
Definition wall_intersection (origin direction : Vec2.t F) (wall : Wall.t F)
  : Res (option (F * F)) :=
  let seg := Wall.get_segment wall in
  let '(p1, p2) := Segment.points seg in
  ray_segment_intersection origin direction p1 p2.

(** The loop of [cast_ray] from the wall at place [i] on. *)
Fixpoint cast_ray_loop (origin direction : Vec2.t F) (walls : list (Wall.t F))
    (i : nat) (st : RayState) : Res RayState :=
  match walls with
  | [] => Ok st
  | wall :: walls' =>
      res ← wall_intersection origin direction wall;
      match res with
      | None => cast_ray_loop origin direction walls' (S i) st
      | Some (t, u) =>
          if admissible (closest_t st) t u then
            cast_ray_loop origin direction walls' (S i)
              (mkRayState t (Some (Vec2.add origin (Vec2.mul direction t))) (Some i))
          else cast_ray_loop origin direction walls' (S i) st
      end
  end.

Definition cast_ray (walls : list (Wall.t F)) (origin : Vec2.t F) (angle max_dist : F)
  : Res (option (Vec2.t F) * option nat) :=
  direction ← Vec2.from_angle angle;
  st ← cast_ray_loop origin direction walls 0 (mkRayState max_dist None None);
  Ok (closest_point st, hit_wall st).

(** [max_dist=1000.0] *)
Definition default_max_dist : F := of_int 1000.

(** Lines 137-142: three candidate angles per wall end point. *)
Definition endpoint_angles (walls : list (Wall.t F)) (origin : Vec2.t F) : list F :=
  let eps := lit_1em3 in
  flat_map (fun wall =>
    let seg := Wall.get_segment wall in
    flat_map (fun p =>
      let rel := Vec2.sub p origin in
      let angle := libm_atan2 (Vec2.y rel) (Vec2.x rel) in
      [angle - eps; angle; angle + eps])
      [Segment.p1 seg; Segment.p2 seg])
    walls.

(** Lines 145-155: the bulk samples of the mode. *)
Definition sample_angles (facing_angle fov_angle : F) (full_360 : bool) : list F :=
  if full_360 then
    let steps := 64%nat in
    map (fun i : nat =>
           - math_pi + of_int 2 * math_pi * of_int (Z.of_nat i)
                       / of_int (Z.of_nat steps))
        (seq 0 steps)
  else
    let steps := 32%nat in
    let half := fov_angle / of_int 2 in
    map (fun i : nat =>
           let t := - half + fov_angle * of_int (Z.of_nat i)
                             / of_int (Z.of_nat steps) in
           facing_angle + t)
        (seq 0 (steps + 1)).

(** Lines 158-172: normalise, drop repeated keys, filter by the FOV. *)
Fixpoint unique_loop (fuel : nat) (facing_angle fov_angle : F) (full_360 : bool)
    (angles unique_angles seen : list F) : Res (list F) :=
  match angles with
  | [] => Ok unique_angles
  | a :: angles' =>
      s ← math_sin a;
      c ← math_cos a;
      let a := libm_atan2 s c in
      let key := round4 a in
      if existsb (fun k => key =? k) seen then
        unique_loop fuel facing_angle fov_angle full_360 angles' unique_angles seen
      else
        let seen := key :: seen in
        if negb full_360 then
          diff ← angle_diff fuel a facing_angle;
          if fov_angle / of_int 2 <? fabs diff then
            unique_loop fuel facing_angle fov_angle full_360 angles' unique_angles seen
          else
            unique_loop fuel facing_angle fov_angle full_360 angles'
              (unique_angles ++ [a]) seen
        else
          unique_loop fuel facing_angle fov_angle full_360 angles'
            (unique_angles ++ [a]) seen
  end.

(** Lines 179-184 and 203-208: cast a ray per angle, keep the hits. *)
Fixpoint cast_loop (walls : list (Wall.t F)) (origin : Vec2.t F) (angles : list F)
    (points : list (F * Vec2.t F)) (hit_walls : gset nat)
  : Res (list (F * Vec2.t F) * gset nat) :=
  match angles with
  | [] => Ok (points, hit_walls)
  | a :: angles' =>
      '(hit_point, hit_wall) ← cast_ray walls origin a default_max_dist;
      match hit_point with
      | Some p =>
          cast_loop walls origin angles' (points ++ [(a, p)])
            (match hit_wall with
             | Some w => hit_walls ∪ {[ w ]}
             | None => hit_walls
             end)
      | None => cast_loop walls origin angles' points hit_walls
      end
  end.

(** Lines 186-198: the order in which the rays are cast. *)
Fixpoint angle_pairs (fuel : nat) (facing_angle : F) (unique_angles : list F)
  : Res (list (F * F)) :=
  match unique_angles with
  | [] => Ok []
  | a :: rest =>
      diff ← angle_diff fuel a facing_angle;
      pairs ← angle_pairs fuel facing_angle rest;
      Ok ((diff, a) :: pairs)
  end.

Definition ordered_angles (fuel : nat) (facing_angle : F) (full_360 : bool)
    (unique_angles : list F) : Res (list F) :=
  if full_360 then Ok (py_sort unique_angles)
  else
    pairs ← angle_pairs fuel facing_angle unique_angles;
    Ok (map snd (py_sort_by fst pairs)).

(** [compute_visibility_polygon] up to line 208: the list [points] of
    (angle, hit point) pairs and the hit set. *)
Definition visibility_points (fuel : nat) (walls : list (Wall.t F))
    (origin : Vec2.t F) (facing_angle fov_angle : F) (full_360 : bool)
  : Res (list (F * Vec2.t F) * gset nat) :=
  let angles := endpoint_angles walls origin
                ++ sample_angles facing_angle fov_angle full_360 in
  unique_angles ← unique_loop fuel facing_angle fov_angle full_360 angles [] [];
  let unique_angles := py_sort unique_angles in
  _ ← cast_loop walls origin unique_angles [] ∅;
  ordered ← ordered_angles fuel facing_angle full_360 unique_angles;
  cast_loop walls origin ordered [] ∅.

Definition compute_visibility_polygon (fuel : nat) (walls : list (Wall.t F))
    (origin : Vec2.t F) (facing_angle fov_angle : F) (full_360 : bool)
  : Res (list (Vec2.t F) * gset nat) :=
  '(points, hit_walls) ← visibility_points fuel walls origin facing_angle fov_angle full_360;
  let poly_points := map snd points in
  Ok (poly_points, hit_walls).
End VisibilityEngine.
End VisibilityEngine.

(** ** class Scene

    The scene is its list of walls.  [wall.velocity.x *= -1] assigns to a
    coordinate of the [Vec2] object that is the wall's velocity, and
    [Wall.__init__] keeps the object it is given (line 82): walls made with
    one vector share it, and an assignment through one of them shows in all
    of them.  So every wall of the scene comes with the name of its velocity
    object, and [update] stores the new value in every wall of that name.
    Walls of one name hold one object, hence at any time one value (the
    scene is [coherent]).  [create_default_scene] gives every wall a vector
    of its own: line 82 makes one, line 313 passes a new one. *)

Module Scene.

(** [self.walls]: the walls, each with the name of its velocity object. *)
Abbreviation t F := (list (nat * Wall.t F)).

Section Scene.
Context {F : Type} `{PyFloat F} `{PyHypot F}.
Local Open Scope py_scope.

(** [self.walls.append(wall)] for a wall whose velocity object is new: the
    object is named by the place of the wall. *)
Definition append (walls : t F) (wall : Wall.t F) : t F :=
  walls ++ [(List.length walls, wall)].

(** The literal [0.5]: in both arithmetics exactly the quotient of 1 by 2. *)
Definition lit_0_5 : F := of_int 1 / of_int 2.

Definition create_default_scene : t F :=
  let walls : t F := [] in
  let margin := 50%Z in
  let '(w, h) := (800%Z, 600%Z) in
  let corners := [
    Vec2.init margin margin;
    Vec2.init (w - margin) margin;
    Vec2.init (w - margin) (h - margin);
    Vec2.init margin (h - margin)
  ] in
  let corner i := nth i corners (Vec2.init 0 0) in
  let walls :=
    fold_left
      (fun walls i =>
         append walls (Wall.init (corner i) (corner (Nat.modulo (i + 1) 4))
                         false None (of_int 0) None))
      (seq 0 4) walls in
  let walls := append walls (Wall.init (Vec2.init 200 150) (Vec2.init 600 150)
                               false None (of_int 0) None) in
  let walls := append walls (Wall.init (Vec2.init 200 450) (Vec2.init 600 450)
                               false None (of_int 0) None) in
  let walls := append walls (Wall.init (Vec2.init 250 200) (Vec2.init 250 400)
                               false None (of_int 0) None) in
  let walls := append walls (Wall.init (Vec2.init 550 200) (Vec2.init 550 400)
                               false None (of_int 0) None) in
  let center := Vec2.init 400 300 in
  let p1 := Vec2.init 350 300 in
  let p2 := Vec2.init 450 300 in
  let walls := append walls (Wall.init p1 p2 true (Some center) lit_0_5 None) in
  let t_p1 := Vec2.init 300 250 in
  let t_p2 := Vec2.init 350 250 in
  append walls (Wall.init t_p1 t_p2 true None (of_int 0) (Some (Vec2.init 50 0))).

(** [Scene.__init__] *)
Definition init : t F := create_default_scene.

(** The body of [for p in [seg.p1, seg.p2]] (lines 323-326), on the
    velocity of the wall. *)
Definition bounce (velocity p : Vec2.t F) : Vec2.t F :=
  let velocity :=
    if (Vec2.x p <? of_int 80) || (of_int 720 <? Vec2.x p)
    then Vec2.make (Vec2.x velocity * of_int (-1)) (Vec2.y velocity)
    else velocity in
  if (Vec2.y p <? of_int 80) || (of_int 520 <? Vec2.y p)
  then Vec2.make (Vec2.x velocity) (Vec2.y velocity * of_int (-1))
  else velocity.

(** The body of [for wall in self.walls] (lines 319-326) on the wall it is
    at: what that wall is afterwards.  Its field [velocity] is then what its
    velocity object holds. *)
Definition update_wall (wall : Wall.t F) (dt : F) : Res (Wall.t F) :=
  wall ← Wall.update wall dt;
  if Wall.dynamic wall && (of_int 0 <? Vec2.length (Wall.velocity wall)) then
    let seg := Wall.get_segment wall in
    Ok (Wall.set_velocity wall
          (fold_left bounce [Segment.p1 seg; Segment.p2 seg] (Wall.velocity wall)))
  else Ok wall.

(** The velocity object [name] holds [v]: every wall of that name shows it. *)
Definition store_velocity (name : nat) (v : Vec2.t F) (walls : t F) : t F :=
  map (fun entry : nat * Wall.t F =>
         if Nat.eqb entry.1 name then (entry.1, Wall.set_velocity entry.2 v)
         else entry)
      walls.

(** [for wall in self.walls] from the wall at place [i], with [n] walls to
    go. *)
Fixpoint update_from (n i : nat) (walls : t F) (dt : F) : Res (t F) :=
  match n with
  | O => Ok walls
  | S n' =>
      match walls !! i with
      | None => Ok walls
      | Some (name, wall) =>
          wall ← update_wall wall dt;
          let walls := <[i := (name, wall)]> walls in
          let walls := store_velocity name (Wall.velocity wall) walls in
          update_from n' (S i) walls dt
      end
  end.

Definition update (walls : t F) (dt : F) : Res (t F) :=
  update_from (List.length walls) 0 walls dt.

Definition get_walls (walls : t F) : list (Wall.t F) := map snd walls.
End Scene.
End Scene.

(** ** class Game

    The state the game loop works on; the window and the clock belong to
    pygame.  [handle_events] is given what [pygame.event.get()] and
    [pygame.key.get_pressed()] return, [update] the frame time.  The engine
    holds the list object of the scene: its walls are those of field
    [scene]. *)

Module Game.

Inductive Key : Type :=
  | K_ESCAPE | K_1 | K_2
  | K_w | K_UP | K_s | K_DOWN | K_a | K_LEFT | K_d | K_RIGHT
  | K_q | K_e
  | K_other.

Inductive Event : Type :=
  | QUIT
  | KEYDOWN (key : Key)
  | OtherEvent.

Definition WIDTH : Z := 800.
Definition HEIGHT : Z := 600.

Section Game.
Context {F : Type} `{PyFloat F} `{PyHypot F}.
Local Open Scope py_scope.

Record t : Type := make {
  running : bool;
  scene : Scene.t F;
  player_pos : Vec2.t F;
  player_speed : F;
  player_velocity : Vec2.t F;
  facing_angle : F;
  fov_angle : F;
  full_360 : bool;
}.

Definition init : t :=
  make true Scene.init (Vec2.init 400 300) (of_int 200) (Vec2.init 0 0)
       (of_int 0) (math_radians (of_int 90)) false.

Definition set_running (self : t) (b : bool) : t :=
  make b (scene self) (player_pos self) (player_speed self)
       (player_velocity self) (facing_angle self) (fov_angle self) (full_360 self).

Definition set_full_360 (self : t) (b : bool) : t :=
  make (running self) (scene self) (player_pos self) (player_speed self)
       (player_velocity self) (facing_angle self) (fov_angle self) b.

Definition set_player_velocity (self : t) (v : Vec2.t F) : t :=
  make (running self) (scene self) (player_pos self) (player_speed self)
       v (facing_angle self) (fov_angle self) (full_360 self).

Definition set_facing_angle (self : t) (a : F) : t :=
  make (running self) (scene self) (player_pos self) (player_speed self)
       (player_velocity self) a (fov_angle self) (full_360 self).

Definition set_player_pos (self : t) (p : Vec2.t F) : t :=
  make (running self) (scene self) p (player_speed self)
       (player_velocity self) (facing_angle self) (fov_angle self) (full_360 self).

Definition set_scene (self : t) (walls : Scene.t F) : t :=
  make (running self) walls (player_pos self) (player_speed self)
       (player_velocity self) (facing_angle self) (fov_angle self) (full_360 self).

(** The body of [for event in pygame.event.get()] (lines 365-375). *)
Definition handle_event (self : t) (event : Event) : t :=
  match event with
  | QUIT => set_running self false
  | KEYDOWN K_ESCAPE => set_running self false
  | KEYDOWN K_1 => set_full_360 self false
  | KEYDOWN K_2 => set_full_360 self true
  | _ => self
  end.

(** [2.0 * (1/60.0) * math.pi] *)
Definition turn_step : F := of_int 2 * (of_int 1 / of_int 60) * math_pi.

(** Lines 378-386: the direction the pressed keys ask for. *)
Definition key_move (keys : Key -> bool) : Vec2.t F :=
  let move := Vec2.init 0 0 in
  let move :=
    if keys K_w || keys K_UP
    then Vec2.make (Vec2.x move) (Vec2.y move - of_int 1) else move in
  let move :=
    if keys K_s || keys K_DOWN
    then Vec2.make (Vec2.x move) (Vec2.y move + of_int 1) else move in
  let move :=
    if keys K_a || keys K_LEFT
    then Vec2.make (Vec2.x move - of_int 1) (Vec2.y move) else move in
  if keys K_d || keys K_RIGHT
  then Vec2.make (Vec2.x move + of_int 1) (Vec2.y move) else move.

Definition handle_events (self : t) (events : list Event) (keys : Key -> bool)
  : Res t :=
  let self := fold_left handle_event events self in
  let move := key_move keys in
  move ← (if of_int 0 <? Vec2.length move then
            n ← Vec2.normalized move;
            Ok (Vec2.mul n (player_speed self))
          else Ok move);
  let self := set_player_velocity self move in
  let self :=
    if keys K_q then set_facing_angle self (facing_angle self - turn_step)
    else self in
  let self :=
    if keys K_e then set_facing_angle self (facing_angle self + turn_step)
    else self in
  Ok self.

Definition update (self : t) (dt : F) : Res t :=
  let pos := Vec2.add (player_pos self) (Vec2.mul (player_velocity self) dt) in
  let pos :=
    Vec2.make (py_max (of_int 60) (py_min (of_int (WIDTH - 60)) (Vec2.x pos)))
              (Vec2.y pos) in
  let pos :=
    Vec2.make (Vec2.x pos)
              (py_max (of_int 60) (py_min (of_int (HEIGHT - 60)) (Vec2.y pos))) in
  let self := set_player_pos self pos in
  walls ← Scene.update (scene self) dt;
  Ok (set_scene self walls).

(** One turn of the loop of [run] (lines 356-358) up to the call of [draw],
    given the frame time [clock.tick(60) / 1000.0]. *)
Definition frame (self : t) (events : list Event) (keys : Key -> bool) (dt : F)
  : Res t :=
  self ← handle_events self events keys;
  update self dt.
End Game.
Arguments t F : clear implicits.
End Game.

(** ** Exact real arithmetic *)

Definition Rltb (a b : R) : bool := if Rlt_dec a b then true else false.
Definition Rleb (a b : R) : bool := if Rle_dec a b then true else false.
Definition Reqb (a b : R) : bool := if Req_dec_T a b then true else false.

(** [atan2] on the reals, with values in (-PI, PI]. *)
Definition Ratan2 (y x : R) : R :=
  if Rlt_dec 0 x then atan (y / x)
  else if Rlt_dec x 0 then
    if Rle_dec 0 y then atan (y / x) + PI else atan (y / x) - PI
  else if Rlt_dec 0 y then PI / 2
  else if Rlt_dec y 0 then - (PI / 2)
  else 0.

(** Rounding to the nearest integer, ties to even, as [round] does. *)
Definition Rround_half_even (r : R) : Z :=
  let n := Int_part r in
  let f := frac_part r in
  if Rlt_dec f (1 / 2) then n
  else if Rlt_dec (1 / 2) f then (n + 1)%Z
  else if Z.even n then n else (n + 1)%Z.

Definition Rround4 (a : R) : R := IZR (Rround_half_even (a * 10000)) / 10000.

Global Instance R_PyFloat : PyFloat R := {|
  of_int := IZR;
  lit_1em3 := (1 / 1000)%R;
  lit_1em6 := (1 / 1000000)%R;
  math_pi := PI;
  fadd := Rplus;
  fsub := Rminus;
  fmul := Rmult;
  fquot := Rdiv;
  fneg := Ropp;
  fabs := Rabs;
  flt := Rltb;
  fle := Rleb;
  feq := Reqb;
  isinf := fun _ => false;
  libm_cos := cos;
  libm_sin := sin;
  libm_atan2 := Ratan2;
  round4 := Rround4;
  list_sort := fun A key l => insertion_sorted Rltb key l;
|}.

#[export] Instance R_PyHypot : PyHypot R := {|
  libm_hypot := fun x y : R => R_sqrt.sqrt (x * x + y * y)%R;
|}.

(** ** IEEE binary64

    [PrimFloat] computes the arithmetic of Python's floats bit for bit.  The
    functions Python takes from the C library, its [round] and its
    [list.sort] are not part of it: they are a parameter. *)

Record Builtins : Type := {
  c_cos : float -> float;
  c_sin : float -> float;
  c_atan2 : float -> float -> float;
  py_round4 : float -> float;
  py_list_sort : forall A : Type, (A -> float) -> forall l : list A, SortResult l;
}.

(** [float(z)], exact for the small integers the source writes. *)
Definition float_of_int (z : Z) : float :=
  match z with
  | Z0 => PrimFloat.of_uint63 0
  | Zpos _ => PrimFloat.of_uint63 (Uint63.of_Z z)
  | Zneg p => PrimFloat.opp (PrimFloat.of_uint63 (Uint63.of_Z (Zpos p)))
  end.

(** [math.pi] *)
Definition float_pi : float := 0x1.921fb54442d18p+1%float.

Definition float_PyFloat (B : Builtins) : PyFloat float := {|
  of_int := float_of_int;
  lit_1em3 := 1e-3%float;
  lit_1em6 := 1e-6%float;
  math_pi := float_pi;
  fadd := PrimFloat.add;
  fsub := PrimFloat.sub;
  fmul := PrimFloat.mul;
  fquot := PrimFloat.div;
  fneg := PrimFloat.opp;
  fabs := PrimFloat.abs;
  flt := PrimFloat.ltb;
  fle := PrimFloat.leb;
  feq := PrimFloat.eqb;
  isinf := PrimFloat.is_infinity;
  libm_cos := c_cos B;
  libm_sin := c_sin B;
  libm_atan2 := c_atan2 B;
  round4 := py_round4 B;
  list_sort := py_list_sort B;
|}.

Definition float_PyHypot (c_hypot : float -> float -> float) : PyHypot float := {|
  libm_hypot := c_hypot;
|}.

(** A coarse stand-in for the C library: low-order polynomials for [cos] and
    [sin], the middle of the octant for [atan2], no rounding, the insertion
    sort.  It is what the hypotheses on [Builtins] below are instantiated
    with. *)
Definition coarse_atan2 (y x : float) : float :=
  if PrimFloat.ltb 0 x then
    if PrimFloat.ltb 0 y then (float_pi / 4)%float
    else if PrimFloat.ltb y 0 then (- (float_pi / 4))%float else 0%float
  else if PrimFloat.ltb x 0 then
    if PrimFloat.ltb 0 y then (3 * float_pi / 4)%float
    else if PrimFloat.ltb y 0 then (- (3 * float_pi / 4))%float else float_pi
  else
    if PrimFloat.ltb 0 y then (float_pi / 2)%float
    else if PrimFloat.ltb y 0 then (- (float_pi / 2))%float else 0%float.

Definition coarse_builtins : Builtins := {|
  c_cos := fun a => (1 - a * a / 2 + a * a * a * a / 24)%float;
  c_sin := fun a => (a - a * a * a / 6 + a * a * a * a * a / 120)%float;
  c_atan2 := coarse_atan2;
  py_round4 := fun a => a;
  py_list_sort := fun A key l => insertion_sorted PrimFloat.ltb key l;
|}.

(** A closer stand-in, for the scenes in which the angles matter: the
    Taylor polynomials of degree 21 and 20 for [sin] and [cos] (within
    [1e-10] on [-pi, pi]), [atan] by its series after the reduction of its
    argument to [-tan(pi/8), tan(pi/8)], [atan2] by quadrants with a NaN
    passed on, [round(_, 4)] through the integers at [1.5 * 2^52], the
    insertion sort. *)
Definition series_sin (a : float) : float :=
  (a * fold_right (fun c acc => 1 - a * a / c * acc) 1
         [6; 20; 42; 72; 110; 156; 210; 272; 342; 420])%float.

Definition series_cos (a : float) : float :=
  fold_right (fun c acc => 1 - a * a / c * acc)%float 1%float
    [2; 12; 30; 56; 90; 132; 182; 240; 306; 380]%float.

Definition series_atan (z : float) : float :=
  (z * fold_right (fun k acc => 1 / k - z * z * acc) 0
         [1; 3; 5; 7; 9; 11; 13; 15; 17; 19; 21; 23; 25; 27])%float.

Definition fine_atan (z : float) : float :=
  let az := PrimFloat.abs z in
  let r :=
    if PrimFloat.leb az 0.41421356237309503 then series_atan az
    else if PrimFloat.leb az 2.4142135623730951 then
      (float_pi / 4 + series_atan ((az - 1) / (az + 1)))%float
    else (float_pi / 2 - series_atan (1 / az))%float in
  if PrimFloat.ltb z 0 then (- r)%float else r.

Definition fine_atan2 (y x : float) : float :=
  if negb (PrimFloat.eqb y y && PrimFloat.eqb x x) then nan
  else if PrimFloat.ltb 0 x then fine_atan (y / x)
  else if PrimFloat.ltb x 0 then
    if PrimFloat.ltb y 0 then (fine_atan (y / x) - float_pi)%float
    else (fine_atan (y / x) + float_pi)%float
  else if PrimFloat.ltb 0 y then (float_pi / 2)%float
  else if PrimFloat.ltb y 0 then (- (float_pi / 2))%float
  else 0%float.

Definition fine_round4 (a : float) : float :=
  ((a * 10000 + 0x1.8p52 - 0x1.8p52) / 10000)%float.

Definition fine_builtins : Builtins := {|
  c_cos := series_cos;
  c_sin := series_sin;
  c_atan2 := fine_atan2;
  py_round4 := fine_round4;
  py_list_sort := fun A key l => insertion_sorted PrimFloat.ltb key l;
|}.

(** ** The vocabulary of the specification

    What the statements below say in the specification's words, to be
    compared with what the source does. *)

Section Vocabulary.
Context {F : Type} `{PyFloat F}.
Local Open Scope py_scope.

(** Rotation is active: a pivot is present and the angular speed is not 0. *)
Definition rotation_active (w : Wall.t F) : bool :=
  match Wall.rotation_center w with
  | Some _ => negb (Wall.angular_speed w =? of_int 0)
  | None => false
  end.

(** The velocity is nonzero: one of its coordinates is not 0. *)
Definition velocity_nonzero (w : Wall.t F) : bool :=
  negb (Vec2.x (Wall.velocity w) =? of_int 0)
  || negb (Vec2.y (Wall.velocity w) =? of_int 0).

(** Rotation about a pivot, given the cosine and sine of the angle:
    translate to the origin, apply [[c, -s; s, c]], translate back. *)
Definition rotate_matrix (p pivot : Vec2.t F) (c s : F) : Vec2.t F :=
  let q := Vec2.sub p pivot in
  Vec2.add pivot
    (Vec2.make (Vec2.x q * c - Vec2.y q * s) (Vec2.x q * s + Vec2.y q * c)).

(** Add [dp] to an end point when the velocity is nonzero. *)
Definition translate_if (b : bool) (p dp : Vec2.t F) : Vec2.t F :=
  if b then Vec2.add p dp else p.

(** An angle that the filtering loop keeps: the normalised value of a
    candidate that is not an infinity and, in FOV mode, within the half
    width of the facing direction. *)
Definition kept (fuel : nat) (facing_angle fov_angle : F) (full_360 : bool)
    (angles : list F) (a : F) : Prop :=
  exists a0 : F,
    a0 ∈ angles /\ isinf a0 = false
    /\ a = libm_atan2 (libm_sin a0) (libm_cos a0)
    /\ (full_360 = false ->
        exists diff : F,
          angle_diff fuel a facing_angle = Ok diff
          /\ (fov_angle / of_int 2 <? fabs diff) = false).

(** The intersection test of the specification (4.3), from its words.  The
    cross product of (a, b) and (c, d) is [a * d - b * c];
    [denom = D x (B - A)]; there is no intersection when [|denom| < 1e-6];
    otherwise [t = ((B - A) x (O - A)) / denom] and
    [u = (D x (O - A)) / denom], and there is no intersection when
    [t < 0]. *)
Definition spec_cross (a b c d : F) : F := a * d - b * c.

Definition spec_intersection (O D A B : Vec2.t F) : option (F * F) :=
  let denom :=
    spec_cross (Vec2.x D) (Vec2.y D) (Vec2.x B - Vec2.x A) (Vec2.y B - Vec2.y A) in
  if fabs denom <? lit_1em6 then None
  else
    let t := spec_cross (Vec2.x B - Vec2.x A) (Vec2.y B - Vec2.y A)
                        (Vec2.x O - Vec2.x A) (Vec2.y O - Vec2.y A) / denom in
    let u := spec_cross (Vec2.x D) (Vec2.y D)
                        (Vec2.x O - Vec2.x A) (Vec2.y O - Vec2.y A) / denom in
    if t <? of_int 0 then None else Some (t, u).

(** The unit vector at an angle, and the point [origin + direction * t]. *)
Definition unit_direction (angle : F) : Vec2.t F :=
  Vec2.make (libm_cos angle) (libm_sin angle).

Definition point_at (origin direction : Vec2.t F) (t : F) : Vec2.t F :=
  Vec2.make (Vec2.x origin + Vec2.x direction * t)
            (Vec2.y origin + Vec2.y direction * t).

(** The ray meets the current segment of the wall at the parameters
    [(t, u)], and these are admissible: [0 <= t < max_dist] and
    [0 <= u <= 1] (4.6). *)
Definition meets (origin direction : Vec2.t F) (max_dist : F) (wall : Wall.t F)
    (t u : F) : Prop :=
  spec_intersection origin direction
    (Segment.p1 (Wall.segment wall)) (Segment.p2 (Wall.segment wall))
  = Some (t, u)
  /\ (of_int 0 <=? t) = true /\ (t <? max_dist) = true
  /\ (of_int 0 <=? u) = true /\ (u <=? of_int 1) = true.

(** A computation that raises no exception (it returns or runs on). *)
Definition no_raise {A} (m : Res A) : Prop := forall e : PyExn, m <> Raise e.

(** The value is not a NaN: it is equal to itself. *)
Definition not_nan (a : F) : bool := a =? a.




End Vocabulary.


(** What the proofs use of the arithmetic: it holds of the reals and of
    binary64, NaN included. *)
Class ArithLaws (F : Type) `{PyFloat F} : Prop := {
  flt_irrefl : forall a : F, (a <? a)%py = false;
  flt_trans : forall a b c : F,
    (a <? b)%py = true -> (b <? c)%py = true -> (a <? c)%py = true;
  (* a value equal to 0 does not pass the guard [abs(denom) < 1e-6] *)
  feq_zero_small : forall a : F,
    (a =? of_int 0)%py = true -> (fabs a <? lit_1em6)%py = true;
}.

(** What the proofs use of the C library. *)
Class TrigLaws (F : Type) `{PyFloat F} : Prop := {
  (* [atan2] returns a NaN or a value in [-pi, pi]: neither it nor the two
     angles bracketing it is an infinity *)
  atan2_not_inf : forall y x : F, isinf (libm_atan2 y x) = false;
  atan2_minus_eps_not_inf : forall y x : F,
    isinf (libm_atan2 y x - lit_1em3)%py = false;
  atan2_plus_eps_not_inf : forall y x : F,
    isinf (libm_atan2 y x + lit_1em3)%py = false;
  (* the 64 samples of the full turn *)
  samples_360_not_inf : forall facing fov : F,
    Forall (fun a => isinf a = false)
      (VisibilityEngine.sample_angles facing fov true);
}.

(** What the proofs use of [list.sort]: on keys that are numbers the list
    it leaves ascends, and a list that is one run is left as it is. *)
Class SortLaws (F : Type) `{PyFloat F} : Prop := {
  sort_ascends : forall (A : Type) (key : A -> F) (l : list A),
    Forall (fun x => not_nan (key x) = true) l ->
    StronglySorted (fun x y => (key x <=? key y)%py = true) (py_sort_by key l);
  sort_keeps_run : forall (A : Type) (key : A -> F) (l : list A),
    one_run flt key l = true -> py_sort_by key l = l;
}.

(** The one property of the C library the proofs on binary64 rest on. *)
Definition atan2_bounded (B : Builtins) : Prop :=
  forall y x : float,
    PrimFloat.is_infinity (c_atan2 B y x - 1e-3)%float = false
    /\ PrimFloat.is_infinity (c_atan2 B y x) = false
    /\ PrimFloat.is_infinity (c_atan2 B y x + 1e-3)%float = false.


(** ** A scene: an observer on a wall

    The observer at (0, 0) stands on the second wall and looks up. *)

Section Scene.
Local Open Scope R_scope.



End Scene.

(** ** The vocabulary of the scene and of the game loop *)

(** The square of the distance between two points. *)
Definition dist2 (p q : Vec2.t R) : R :=
  ((Vec2.x q - Vec2.x p) * (Vec2.x q - Vec2.x p)
   + (Vec2.y q - Vec2.y p) * (Vec2.y q - Vec2.y p))%R.

(** The square of the length of a segment. *)
Definition seg_len2 (s : Segment.t R) : R := dist2 (Segment.p1 s) (Segment.p2 s).

(** The length of the current segment is the length of the rest segment. *)
Definition rest_length (w : Wall.t R) : Prop :=
  seg_len2 (Wall.segment w) = dist2 (Wall.base_p1 w) (Wall.base_p2 w).

(** The fields [Wall.update] never assigns to. *)
Definition same_setup {F : Type} `{PyFloat F} (w w' : Wall.t F) : Prop :=
  Wall.base_p1 w' = Wall.base_p1 w /\ Wall.base_p2 w' = Wall.base_p2 w
  /\ Wall.dynamic w' = Wall.dynamic w
  /\ Wall.rotation_center w' = Wall.rotation_center w
  /\ Wall.angular_speed w' = Wall.angular_speed w
  /\ Wall.velocity w' = Wall.velocity w.

(** [wall.update] called once for each frame time in turn. *)
Fixpoint wall_frames {F : Type} `{PyFloat F} (w : Wall.t F) (dts : list F)
  : Res (Wall.t F) :=
  match dts with
  | [] => Ok w
  | dt :: dts => w ← Wall.update w dt; wall_frames w dts
  end.

(** Walls of one name show one velocity: they hold one object. *)
Definition coherent {F : Type} `{PyFloat F} (walls : Scene.t F) : Prop :=
  forall (i j name : nat) (w w' : Wall.t F),
    walls !! i = Some (name, w) -> walls !! j = Some (name, w') ->
    Wall.velocity w = Wall.velocity w'.

(** The velocity object [name] is that of a dynamic wall of the scene. *)
Definition moved_by {F : Type} `{PyFloat F} (walls : Scene.t F) (name : nat) : Prop :=
  exists (j : nat) (w : Wall.t F),
    walls !! j = Some (name, w) /\ Wall.dynamic w = true.

(** What [Scene.update] keeps of a scene: the number of walls and, of every
    wall, its name, rest end points, kind, pivot and angular speed; of a
    static wall also the segment and the angle, and the velocity unless a
    dynamic wall holds the same velocity object. *)
Definition scene_kept {F : Type} `{PyFloat F} (walls walls' : Scene.t F) : Prop :=
  List.length walls' = List.length walls
  /\ forall (i name : nat) (w : Wall.t F), walls !! i = Some (name, w) ->
       exists w' : Wall.t F,
         walls' !! i = Some (name, w')
         /\ Wall.base_p1 w' = Wall.base_p1 w /\ Wall.base_p2 w' = Wall.base_p2 w
         /\ Wall.dynamic w' = Wall.dynamic w
         /\ Wall.rotation_center w' = Wall.rotation_center w
         /\ Wall.angular_speed w' = Wall.angular_speed w
         /\ (Wall.dynamic w = false ->
             Wall.segment w' = Wall.segment w /\ Wall.angle w' = Wall.angle w
             /\ (Wall.velocity w' = Wall.velocity w \/ moved_by walls name)).

(** What [Scene.update] comes to when no two walls share a velocity object:
    each wall by itself. *)
Fixpoint update_each {F : Type} `{PyFloat F} `{PyHypot F}
    (walls : Scene.t F) (dt : F) : Res (Scene.t F) :=
  match walls with
  | [] => Ok []
  | (name, wall) :: rest =>
      wall ← Scene.update_wall wall dt;
      rest ← update_each rest dt;
      Ok ((name, wall) :: rest)
  end.

(** [scene.update] called once for each frame time in turn. *)
Fixpoint scene_frames {F : Type} `{PyFloat F} `{PyHypot F}
    (walls : Scene.t F) (dts : list F) : Res (Scene.t F) :=
  match dts with
  | [] => Ok walls
  | dt :: dts => walls ← Scene.update walls dt; scene_frames walls dts
  end.

(** The point is out of the horizontal, respectively vertical, range in
    which [Scene.update] lets a wall move (lines 323 and 325). *)
Definition out_of_x {F : Type} `{PyFloat F} (p : Vec2.t F) : bool :=
  (Vec2.x p <? of_int 80)%py || (of_int 720 <? Vec2.x p)%py.

Definition out_of_y {F : Type} `{PyFloat F} (p : Vec2.t F) : bool :=
  (Vec2.y p <? of_int 80)%py || (of_int 520 <? Vec2.y p)%py.

(** An event that ends the game: the window is closed or ESC goes down. *)
Definition is_quit (e : Game.Event) : bool :=
  match e with
  | Game.QUIT | Game.KEYDOWN Game.K_ESCAPE => true
  | _ => false
  end.

(** The mode an event asks for, if any: key 1 the FOV mode, key 2 the
    360-degree mode. *)
Definition mode_of (e : Game.Event) : option bool :=
  match e with
  | Game.KEYDOWN Game.K_1 => Some false
  | Game.KEYDOWN Game.K_2 => Some true
  | _ => None
  end.

(** The keys held down ask for no direction: up and down are both held or
    both free, and so are left and right. *)
Definition no_net_move (keys : Game.Key -> bool) : bool :=
  eqb (keys Game.K_w || keys Game.K_UP) (keys Game.K_s || keys Game.K_DOWN)
  && eqb (keys Game.K_a || keys Game.K_LEFT) (keys Game.K_d || keys Game.K_RIGHT).

(** The fields of the game no event and no key assigns to. *)
Definition same_world {F : Type} `{PyFloat F} (g g' : Game.t F) : Prop :=
  Game.scene g' = Game.scene g /\ Game.player_pos g' = Game.player_pos g
  /\ Game.player_speed g' = Game.player_speed g
  /\ Game.fov_angle g' = Game.fov_angle g.

(** No angle of the list has the key ([round(a, 4)]) of an angle before it. *)
Definition distinct_keys {F : Type} `{PyFloat F} (l : list F) : Prop :=
  forall (i j : nat) (a b : F),
    (i < j)%nat -> l !! i = Some a -> l !! j = Some b ->
    (round4 b =? round4 a)%py = false.

(** The game on binary64 while the player has not moved: the player is
    where [Game.__init__] put it, and the scene is what calls of
    [Scene.update] leave of the default scene. *)
Definition idle_shape (B : Builtins) (g : Game.t float) : Prop :=
  Game.player_pos g = Vec2.make 400%float 300%float
  /\ coherent (H := float_PyFloat B) (Game.scene g)
  /\ scene_kept (H := float_PyFloat B)
       (Scene.create_default_scene (H := float_PyFloat B)) (Game.scene g).

(** What one turn of the game loop is given: the events waiting, the keys
    held down, the frame time. *)
Definition FrameInput (F : Type) : Type := list Game.Event * (Game.Key -> bool) * F.

(** The loop of [Game.run] for as long as inputs are supplied: the test of
    [while self.running], then [handle_events] and [update].  [draw] assigns
    to no field of the game; what its call of [compute_visibility_polygon]
    does is the subject of the sections on the engine. *)
Fixpoint game_frames {F : Type} `{PyFloat F} `{PyHypot F}
    (g : Game.t F) (inputs : list (FrameInput F)) : Res (Game.t F) :=
  match inputs with
  | [] => Ok g
  | (events, keys, dt) :: inputs =>
      if Game.running g then
        g ← Game.frame g events keys dt;
        game_frames g inputs
      else Ok g
  end.

(** The point lies on the segment, at parameter [u] between 0 and 1. *)
Definition on_segment (p : Vec2.t R) (s : Segment.t R) (u : R) : Prop :=
  (0 <= u <= 1
   /\ Vec2.x p = Vec2.x (Segment.p1 s)
                 + u * (Vec2.x (Segment.p2 s) - Vec2.x (Segment.p1 s))
   /\ Vec2.y p = Vec2.y (Segment.p1 s)
                 + u * (Vec2.y (Segment.p2 s) - Vec2.y (Segment.p1 s)))%R.

Section DefaultScene.
Local Open Scope R_scope.

(** What every frame keeps of the turning wall of the default scene: it
    turns about (400, 300), has no velocity, and (400, 300) is the middle of
    its segment, which is 100 long. *)
Definition turning_wall (w : Wall.t R) : Prop :=
  Wall.base_p1 w = Vec2.make 350 300 /\ Wall.base_p2 w = Vec2.make 450 300
  /\ Wall.dynamic w = true
  /\ Wall.rotation_center w = Some (Vec2.make 400 300)
  /\ Wall.angular_speed w = (1 / 2)%R
  /\ Wall.velocity w = Vec2.make 0 0
  /\ on_segment (Vec2.make 400 300) (Wall.segment w) (1 / 2)
  /\ seg_len2 (Wall.segment w) = (100 * 100)%R.

(** What every frame keeps of the sliding wall of the default scene: it
    moves at 50 to the right or to the left, on the line y = 250, and is 50
    long. *)
Definition sliding_wall (w : Wall.t R) : Prop :=
  Wall.dynamic w = true
  /\ Wall.rotation_center w = None
  /\ (Wall.velocity w = Vec2.make 50 0 \/ Wall.velocity w = Vec2.make (-50) 0)
  /\ Vec2.y (Segment.p1 (Wall.segment w)) = 250%R
  /\ Vec2.y (Segment.p2 (Wall.segment w)) = 250%R
  /\ (Vec2.x (Segment.p2 (Wall.segment w))
      = Vec2.x (Segment.p1 (Wall.segment w)) + 50)%R.

(** The default scene after some frames: the eight static walls as they
    were made, then the turning and the sliding wall. *)
Definition default_scene_shape (walls : Scene.t R) : Prop :=
  exists w8 w9 : Wall.t R,
    walls = take 8 Scene.create_default_scene ++ [(8%nat, w8); (9%nat, w9)]
    /\ turning_wall w8 /\ sliding_wall w9.

End DefaultScene.

(** * Proofs *)

(** ** The result monad *)

Lemma bind_Ok {A B} (m : Res A) (k : A -> Res B) (b : B) :
  m ≫= k = Ok b <-> exists a, m = Ok a /\ k a = Ok b.
Proof.
  destruct m as [a| |]; simpl; split; try (intros [a' [Hm _]]; discriminate);
    try discriminate.
  - intros Hk. exists a. auto.
  - intros [a' [Hm Hk]]. injection Hm as ->. exact Hk.
Qed.

Ltac inv_bind H :=
  let a := fresh "r" in
  let Hm := fresh "Hm" in
  apply bind_Ok in H; destruct H as [a [Hm H]].

(** ** 360-degree mode never reads the facing direction or the FOV width *)

Section Mode360.
Context {F : Type} `{PyFloat F}.
Import VisibilityEngine.

Lemma unique_loop_360 fuel1 fuel2 facing1 fov1 facing2 fov2 angles unique seen :
  unique_loop fuel1 facing1 fov1 true angles unique seen
  = unique_loop fuel2 facing2 fov2 true angles unique seen.
Proof.
  revert unique seen.
  induction angles as [|a angles IH]; intros unique seen; simpl; [reflexivity|].
  destruct (math_sin a) as [s| |]; simpl; try reflexivity.
  destruct (math_cos a) as [c| |]; simpl; try reflexivity.
  destruct (existsb _ seen); apply IH.
Qed.

(** C10: with [full_360 = True] the point sequence and the hit set are the
    same whatever facing angle and FOV width are passed (and whatever the
    loop budget: no loop of [angle_diff] is entered in that mode). *)
Theorem C10_full_360_ignores_facing_and_fov
    (fuel1 fuel2 : nat) (walls : list (Wall.t F)) (origin : Vec2.t F)
    (facing1 fov1 facing2 fov2 : F) :
  compute_visibility_polygon fuel1 walls origin facing1 fov1 true
  = compute_visibility_polygon fuel2 walls origin facing2 fov2 true.
Proof.
  unfold compute_visibility_polygon, visibility_points.
  change (sample_angles facing1 fov1 true) with (sample_angles facing2 fov2 true).
  rewrite (unique_loop_360 fuel1 fuel2 facing1 fov1 facing2 fov2).
  reflexivity.
Qed.
End Mode360.

(** ** Wall kinematics *)

Section Kinematics.
Context {F : Type} `{PyFloat F}.
Local Open Scope py_scope.

Lemma rotate_around_matrix (p pivot : Vec2.t F) (theta : F) :
  isinf theta = false ->
  rotate_around p pivot theta
  = Ok (rotate_matrix p pivot (libm_cos theta) (libm_sin theta)).
Proof.
  intros Hfin. unfold rotate_around, math_cos, math_sin. rewrite Hfin.
  reflexivity.
Qed.

Lemma update_static (w : Wall.t F) (dt : F) :
  Wall.dynamic w = false -> Wall.update w dt = Ok w.
Proof. intros Hd. unfold Wall.update. rewrite Hd. reflexivity. Qed.

Lemma update_rotating (w : Wall.t F) (dt : F) (pivot : Vec2.t F) :
  Wall.dynamic w = true ->
  Wall.rotation_center w = Some pivot ->
  (Wall.angular_speed w =? of_int 0) = false ->
  let theta := Wall.angle w + Wall.angular_speed w * dt in
  isinf theta = false ->
  let dp := Vec2.mul (Wall.velocity w) dt in
  let rot p := rotate_matrix p pivot (libm_cos theta) (libm_sin theta) in
  Wall.update w dt
  = Ok (Wall.make (Wall.base_p1 w) (Wall.base_p2 w)
          (Segment.make
             (translate_if (velocity_nonzero w) (rot (Wall.base_p1 w)) dp)
             (translate_if (velocity_nonzero w) (rot (Wall.base_p2 w)) dp))
          true (Some pivot) (Wall.angular_speed w) (Wall.velocity w) theta).
Proof.
  intros Hd Hc Hs theta Hfin dp rot.
  destruct w as [b1 b2 [q1 q2] d c sp v a]; simpl in *. subst d c.
  unfold Wall.update, Wall.update_rotation. simpl. rewrite Hs. simpl.
  rewrite !rotate_around_matrix by exact Hfin. simpl.
  unfold Wall.update_translation, velocity_nonzero, translate_if. simpl.
  destruct (negb _ || negb _); reflexivity.
Qed.

Lemma update_not_rotating (w : Wall.t F) (dt : F) :
  Wall.dynamic w = true ->
  rotation_active w = false ->
  let dp := Vec2.mul (Wall.velocity w) dt in
  Wall.update w dt
  = Ok (Wall.make (Wall.base_p1 w) (Wall.base_p2 w)
          (Segment.make
             (translate_if (velocity_nonzero w) (Segment.p1 (Wall.segment w)) dp)
             (translate_if (velocity_nonzero w) (Segment.p2 (Wall.segment w)) dp))
          true (Wall.rotation_center w) (Wall.angular_speed w)
          (Wall.velocity w) (Wall.angle w)).
Proof.
  intros Hd Hr dp.
  assert (Hrot : Wall.update_rotation w dt = Ok w).
  { unfold Wall.update_rotation. unfold rotation_active in Hr.
    destruct (Wall.rotation_center w); [rewrite Hr|]; reflexivity. }
  unfold Wall.update. rewrite Hd. simpl. rewrite Hrot. simpl.
  unfold Wall.update_translation, velocity_nonzero, translate_if.
  destruct w as [b1 b2 [q1 q2] d c sp v a]; simpl in *. subst d.
  destruct (negb _ || negb _); reflexivity.
Qed.

(** C5: [update(dt)] leaves a wall that is not dynamic as it is.  On a
    dynamic wall, when rotation is active the angle grows by
    [angular_speed * dt] and both end points are the rest points rotated
    about the pivot by the new angle (translate, matrix, translate back);
    then, when the velocity is not zero, [velocity * dt] is added to both
    end points as they stand (the rotated ones, or the ones of the previous
    frame when rotation did not run).  The new angle is not an infinity
    (where [math.cos] raises). *)
Theorem C5_update_contract (w : Wall.t F) (dt : F) :
  (Wall.dynamic w = false -> Wall.update w dt = Ok w)
  /\ (forall pivot : Vec2.t F,
        Wall.dynamic w = true ->
        Wall.rotation_center w = Some pivot ->
        (Wall.angular_speed w =? of_int 0) = false ->
        let theta := Wall.angle w + Wall.angular_speed w * dt in
        isinf theta = false ->
        let dp := Vec2.mul (Wall.velocity w) dt in
        let rot p := rotate_matrix p pivot (libm_cos theta) (libm_sin theta) in
        Wall.update w dt
        = Ok (Wall.make (Wall.base_p1 w) (Wall.base_p2 w)
                (Segment.make
                   (translate_if (velocity_nonzero w) (rot (Wall.base_p1 w)) dp)
                   (translate_if (velocity_nonzero w) (rot (Wall.base_p2 w)) dp))
                true (Some pivot) (Wall.angular_speed w) (Wall.velocity w) theta))
  /\ (Wall.dynamic w = true ->
      rotation_active w = false ->
      let dp := Vec2.mul (Wall.velocity w) dt in
      Wall.update w dt
      = Ok (Wall.make (Wall.base_p1 w) (Wall.base_p2 w)
              (Segment.make
                 (translate_if (velocity_nonzero w) (Segment.p1 (Wall.segment w)) dp)
                 (translate_if (velocity_nonzero w) (Segment.p2 (Wall.segment w)) dp))
              true (Wall.rotation_center w) (Wall.angular_speed w)
              (Wall.velocity w) (Wall.angle w))).
Proof.
  split; [apply update_static|].
  split; [intros pivot; apply update_rotating|apply update_not_rotating].
Qed.
End Kinematics.

(** ** Exact real arithmetic: the comparisons *)

Section RealComparisons.
Local Open Scope R_scope.

Lemma Rltb_true (a b : R) : Rltb a b = true <-> a < b.
Proof. unfold Rltb. destruct (Rlt_dec a b); split; intros; lra || congruence. Qed.

Lemma Rltb_false (a b : R) : Rltb a b = false <-> b <= a.
Proof. unfold Rltb. destruct (Rlt_dec a b); split; intros; lra || congruence. Qed.

Lemma Rleb_true (a b : R) : Rleb a b = true <-> a <= b.
Proof. unfold Rleb. destruct (Rle_dec a b); split; intros; lra || congruence. Qed.

Lemma Rleb_false (a b : R) : Rleb a b = false <-> b < a.
Proof. unfold Rleb. destruct (Rle_dec a b); split; intros; lra || congruence. Qed.

Lemma Reqb_true (a b : R) : Reqb a b = true <-> a = b.
Proof. unfold Reqb. destruct (Req_dec_T a b); split; intros; lra || congruence. Qed.

Lemma Reqb_false (a b : R) : Reqb a b = false <-> a <> b.
Proof. unfold Reqb. destruct (Req_dec_T a b); split; intros; lra || congruence. Qed.
End RealComparisons.

(** ** Kinematics in exact arithmetic *)

Section RealKinematics.
Local Open Scope R_scope.

Lemma translate_if_real (w : Wall.t R) (r : Vec2.t R) (dt : R) :
  translate_if (velocity_nonzero w) r (Vec2.mul (Wall.velocity w) dt)
  = Vec2.add r (Vec2.mul (Wall.velocity w) dt).
Proof.
  unfold translate_if, velocity_nonzero.
  destruct (negb _ || negb _) eqn:Hv; [reflexivity|].
  apply orb_false_elim in Hv. destruct Hv as [Hx Hy].
  apply negb_false_iff, Reqb_true in Hx. apply negb_false_iff, Reqb_true in Hy.
  destruct r as [rx ry]. unfold Vec2.add, Vec2.mul. simpl in *.
  rewrite Hx, Hy. f_equal; lra.
Qed.

(** C6 (as amended: the wall is dynamic).  On a dynamic wall with a pivot
    and a nonzero angular speed, [update(dt)] leaves the end points at
    [rotate_around(base_p, pivot, angle) + velocity * dt] for the new
    angle, and the wall it leaves is the same whatever segment the wall
    held before: translation added in earlier frames is gone. *)
Theorem C6_rotation_discards_translation
    (w : Wall.t R) (dt : R) (pivot : Vec2.t R) :
  Wall.dynamic w = true ->
  Wall.rotation_center w = Some pivot ->
  Wall.angular_speed w <> 0 ->
  exists (w' : Wall.t R) (r1 r2 : Vec2.t R),
    Wall.update w dt = Ok w'
    /\ Wall.angle w' = Wall.angle w + Wall.angular_speed w * dt
    /\ rotate_around (Wall.base_p1 w) pivot (Wall.angle w') = Ok r1
    /\ rotate_around (Wall.base_p2 w) pivot (Wall.angle w') = Ok r2
    /\ Segment.p1 (Wall.segment w') = Vec2.add r1 (Vec2.mul (Wall.velocity w) dt)
    /\ Segment.p2 (Wall.segment w') = Vec2.add r2 (Vec2.mul (Wall.velocity w) dt)
    /\ forall s : Segment.t R, Wall.update (Wall.set_segment w s) dt = Ok w'.
Proof.
  intros Hd Hc Hs. apply Reqb_false in Hs.
  pose proof (update_rotating w dt pivot Hd Hc Hs eq_refl) as Hu.
  eexists. eexists. eexists.
  split; [exact Hu|]. simpl.
  split; [reflexivity|].
  split; [apply rotate_around_matrix; reflexivity|].
  split; [apply rotate_around_matrix; reflexivity|].
  split; [apply translate_if_real|].
  split; [apply translate_if_real|].
  intros s.
  exact (update_rotating (H := R_PyFloat) (Wall.set_segment w s) dt pivot
           Hd Hc Hs eq_refl).
Qed.

(** C6, witness: the rotating wall of the default scene, drifting. *)
Lemma C6_rotation_discards_translation_witness :
  exists (w' : Wall.t R) (r1 r2 : Vec2.t R),
    let w := Wall.init (Vec2.make 350 300) (Vec2.make 450 300) true
               (Some (Vec2.make 400 300)) (1 / 2) (Some (Vec2.make 50 0)) in
    Wall.update w (1 / 60) = Ok w'
    /\ Wall.angle w' = Wall.angle w + Wall.angular_speed w * (1 / 60)
    /\ rotate_around (Wall.base_p1 w) (Vec2.make 400 300) (Wall.angle w') = Ok r1
    /\ rotate_around (Wall.base_p2 w) (Vec2.make 400 300) (Wall.angle w') = Ok r2
    /\ Segment.p1 (Wall.segment w') = Vec2.add r1 (Vec2.mul (Wall.velocity w) (1 / 60))
    /\ Segment.p2 (Wall.segment w') = Vec2.add r2 (Vec2.mul (Wall.velocity w) (1 / 60))
    /\ forall s : Segment.t R, Wall.update (Wall.set_segment w s) (1 / 60) = Ok w'.
Proof.
  apply (C6_rotation_discards_translation
           (Wall.init (Vec2.make 350 300) (Vec2.make 450 300) true
              (Some (Vec2.make 400 300)) (1 / 2) (Some (Vec2.make 50 0)))
           (1 / 60) (Vec2.make 400 300)).
  - reflexivity.
  - reflexivity.
  - simpl. lra.
Defined.

(** C6, as stated, fails on a wall that has a pivot and a nonzero angular
    speed but is not dynamic: [update] returns at once and the end point
    (1, 0) stays, while [rotate_around(base_p1, pivot, angle) + velocity * dt]
    is (2, 0). *)
Lemma C6_counterexample_static_wall :
  exists (w' : Wall.t R) (r1 : Vec2.t R),
    let w := Wall.init (Vec2.make 1 0) (Vec2.make 2 0) false
               (Some (Vec2.make 0 0)) 1 (Some (Vec2.make 1 0)) in
    rotation_active w = true
    /\ Wall.update w 1 = Ok w'
    /\ rotate_around (Wall.base_p1 w) (Vec2.make 0 0) (Wall.angle w') = Ok r1
    /\ Segment.p1 (Wall.segment w') = Vec2.make 1 0
    /\ Vec2.add r1 (Vec2.mul (Wall.velocity w) 1) = Vec2.make 2 0
    /\ Segment.p1 (Wall.segment w') <> Vec2.add r1 (Vec2.mul (Wall.velocity w) 1).
Proof.
  eexists. eexists. cbv zeta.
  split. { unfold rotation_active. simpl. apply negb_true_iff, Reqb_false. lra. }
  split. { reflexivity. }
  split. { apply rotate_around_matrix. reflexivity. }
  assert (Hr : Vec2.add
                 (rotate_matrix (Vec2.make 1 0) (Vec2.make 0 0) (cos 0) (sin 0))
                 (Vec2.mul (Vec2.make 1 0) 1) = Vec2.make 2 0).
  { unfold rotate_matrix, Vec2.add, Vec2.mul, Vec2.sub. simpl.
    rewrite cos_0, sin_0. f_equal; lra. }
  split. { reflexivity. }
  split. { exact Hr. }
  simpl. simpl in Hr. rewrite Hr. intros Heq. injection Heq as Hx. lra.
Qed.

(** C8: a wall with pivot (0, 0), angular speed [PI] and no velocity is,
    after [update(2)] from its rest pose (a turn by [2 * PI]), at its
    original end points: exactly so in exact arithmetic. *)
Theorem C8_full_turn_round_trip (p1 p2 : Vec2.t R) :
  exists w' : Wall.t R,
    Wall.update (Wall.init p1 p2 true (Some (Vec2.make 0 0)) PI None) 2 = Ok w'
    /\ Wall.angle w' = 2 * PI
    /\ Wall.segment w' = Segment.make p1 p2.
Proof.
  assert (Hs : (PI =? of_int 0)%py = false).
  { apply Reqb_false. apply PI_neq0. }
  eexists. split.
  { apply (update_rotating
             (Wall.init p1 p2 true (Some (Vec2.make 0 0)) PI None) 2
             (Vec2.make 0 0) eq_refl eq_refl Hs eq_refl). }
  simpl. split; [lra|].
  replace (0 + PI * 2) with (2 * PI) by lra. rewrite cos_2PI, sin_2PI.
  unfold velocity_nonzero. simpl.
  assert (Hz : Reqb 0 0 = true) by (apply Reqb_true; reflexivity).
  rewrite Hz. simpl.
  destruct p1 as [x1 y1], p2 as [x2 y2].
  unfold rotate_matrix, Vec2.add, Vec2.sub. simpl.
  f_equal; f_equal; lra.
Qed.
End RealKinematics.

(** ** angle_diff *)

Section AngleDiffLoops.
Context {F : Type} `{PyFloat F}.
Local Open Scope py_scope.

Lemma wrap_up_unfold (fuel : nat) (diff : F) :
  wrap_up fuel diff
  = if diff <=? - math_pi then
      match fuel with
      | O => OutOfFuel
      | S fuel' => wrap_up fuel' (diff + of_int 2 * math_pi)
      end
    else Ok diff.
Proof. destruct fuel; reflexivity. Qed.

Lemma wrap_down_unfold (fuel : nat) (diff : F) :
  wrap_down fuel diff
  = if math_pi <? diff then
      match fuel with
      | O => OutOfFuel
      | S fuel' => wrap_down fuel' (diff - math_pi * of_int 2)
      end
    else Ok diff.
Proof. destruct fuel; reflexivity. Qed.

(** A loop whose step leaves [diff] where it is never ends. *)
Lemma wrap_up_stuck (fuel : nat) (diff : F) :
  (diff <=? - math_pi) = true ->
  diff + of_int 2 * math_pi = diff ->
  wrap_up fuel diff = OutOfFuel.
Proof.
  intros Hc Hstep. induction fuel as [|fuel IH]; simpl; rewrite Hc.
  - reflexivity.
  - rewrite Hstep. exact IH.
Qed.


End AngleDiffLoops.

Section RealAngleDiff.
Local Open Scope R_scope.

Lemma wrap_up_real (n : nat) : forall (d : R) (fuel : nat),
  - PI < d + 2 * PI * INR n -> (n <= fuel)%nat ->
  exists k : nat,
    wrap_up fuel d = Ok (d + 2 * PI * INR k)
    /\ - PI < d + 2 * PI * INR k
    /\ (k = 0%nat \/ d + 2 * PI * INR k <= PI).
Proof.
  induction n as [|n IH]; intros d fuel Hn Hfuel; rewrite wrap_up_unfold;
    simpl fle; simpl fneg; simpl math_pi.
  - simpl in Hn. assert (Hc : Rleb d (- PI) = false) by (apply Rleb_false; lra).
    rewrite Hc. exists 0%nat. simpl. rewrite Rmult_0_r, Rplus_0_r.
    split; [reflexivity|]. split; [lra|]. left; reflexivity.
  - destruct (Rleb d (- PI)) eqn:Hc.
    + apply Rleb_true in Hc.
      destruct fuel as [|fuel]; [lia|].
      rewrite S_INR in Hn.
      destruct (IH (d + 2 * PI) fuel) as [k [Hw [Hlo Hhi]]]; [lra|lia|].
      exists (S k). rewrite S_INR.
      replace (d + 2 * PI * (INR k + 1)) with (d + 2 * PI + 2 * PI * INR k) by lra.
      split; [exact Hw|]. split; [exact Hlo|]. right.
      destruct Hhi as [-> | Hhi]; [simpl; lra|exact Hhi].
    + apply Rleb_false in Hc. exists 0%nat. simpl. rewrite Rmult_0_r, Rplus_0_r.
      split; [reflexivity|]. split; [lra|]. left; reflexivity.
Qed.

Lemma wrap_down_real (n : nat) : forall (d : R) (fuel : nat),
  d - 2 * PI * INR n <= PI -> (n <= fuel)%nat ->
  exists k : nat,
    wrap_down fuel d = Ok (d - 2 * PI * INR k)
    /\ d - 2 * PI * INR k <= PI
    /\ (k = 0%nat \/ - PI < d - 2 * PI * INR k).
Proof.
  induction n as [|n IH]; intros d fuel Hn Hfuel; rewrite wrap_down_unfold;
    simpl flt; simpl math_pi.
  - simpl in Hn. assert (Hc : Rltb PI d = false) by (apply Rltb_false; lra).
    rewrite Hc. exists 0%nat. simpl. rewrite Rmult_0_r, Rminus_0_r.
    split; [reflexivity|]. split; [lra|]. left; reflexivity.
  - destruct (Rltb PI d) eqn:Hc.
    + apply Rltb_true in Hc.
      destruct fuel as [|fuel]; [lia|].
      rewrite S_INR in Hn.
      destruct (IH (d - PI * 2) fuel) as [k [Hw [Hhi Hlo]]]; [lra|lia|].
      exists (S k). rewrite S_INR.
      replace (d - 2 * PI * (INR k + 1)) with (d - PI * 2 - 2 * PI * INR k) by lra.
      split; [exact Hw|]. split; [exact Hhi|]. right.
      destruct Hlo as [-> | Hlo]; [simpl; lra|exact Hlo].
    + apply Rltb_false in Hc. exists 0%nat. simpl. rewrite Rmult_0_r, Rminus_0_r.
      split; [reflexivity|]. split; [lra|]. left; reflexivity.
Qed.


(** [angle_diff] in exact arithmetic: once the fuel covers the turns
    between [a - b] and (-PI, PI], it returns the representative of [a - b]
    modulo [2 * PI] that lies there. *)
Lemma angle_diff_real_fuel (a b : R) (N fuel : nat) :
  - PI < a - b + 2 * PI * INR N -> a - b - 2 * PI * INR N <= PI ->
  (N <= fuel)%nat ->
  exists d : R,
    angle_diff fuel a b = Ok d
    /\ - PI < d <= PI
    /\ exists k : Z, d = a - b + 2 * PI * IZR k.
Proof.
intros Hup Hdown Hfuel.
destruct (wrap_up_real N (a - b) fuel Hup Hfuel) as [k1 [Hw1 [Hlo1 Hhi1]]].
unfold angle_diff. simpl fsub. rewrite Hw1. simpl.
destruct Hhi1 as [-> | Hhi1].
- simpl INR. rewrite Rmult_0_r, Rplus_0_r. simpl in Hlo1.
  rewrite Rmult_0_r, Rplus_0_r in Hlo1.
  destruct (wrap_down_real N (a - b) fuel Hdown Hfuel) as [k2 [Hw2 [Hhi2 Hlo2]]].
  exists (a - b - 2 * PI * INR k2). split; [exact Hw2|].
  split.
  + destruct Hlo2 as [-> | Hlo2]; [simpl INR in *; lra|lra].
  + exists (- Z.of_nat k2)%Z. rewrite opp_IZR, <- INR_IZR_INZ. lra.
- exists (a - b + 2 * PI * INR k1). split.
  + rewrite wrap_down_unfold. simpl flt. simpl math_pi.
    assert (Hc : Rltb PI (a - b + 2 * PI * INR k1) = false)
      by (apply Rltb_false; lra).
    rewrite Hc. reflexivity.
  + split; [lra|]. exists (Z.of_nat k1). rewrite <- INR_IZR_INZ. reflexivity.
Qed.


(** One budget serves every normalised angle against a given direction. *)
Lemma angle_diff_real_budget (b : R) (N fuel : nat) :
  Rabs b <= 2 * PI * INR N -> (N <= fuel)%nat ->
  forall a : R, - PI < a <= PI ->
    exists d : R,
      angle_diff fuel a b = Ok d
      /\ - PI < d <= PI
      /\ exists k : Z, d = a - b + 2 * PI * IZR k.
Proof.
intros Hb Hfuel a [Hlo Hhi].
assert (Hb' : - (2 * PI * INR N) <= b <= 2 * PI * INR N).
{ unfold Rabs in Hb. destruct (Rcase_abs b); lra. }
apply (angle_diff_real_fuel a b N fuel); [lra|lra|exact Hfuel].
Qed.

Lemma turns_budget (b : R) : exists N : nat, Rabs b <= 2 * PI * INR N.
Proof.
destruct (INR_unbounded (Rabs b / (2 * PI))) as [N HN].
pose proof PI_RGT_0 as Hpi. exists N.
apply Rmult_lt_compat_l with (r := 2 * PI) in HN; [|lra].
replace (2 * PI * (Rabs b / (2 * PI))) with (Rabs b) in HN by (field; lra).
lra.
Qed.

End RealAngleDiff.

Section AngleDiffRange.
Local Open Scope R_scope.





(** On binary64 [0.0 - 1e300 + 2 * pi] is [0.0 - 1e300] again: the first
    loop makes no progress and uses up whatever budget it is given. *)
Lemma angle_diff_stuck_at_1e300 (B : Builtins) (fuel : nat) :
  angle_diff (H := float_PyFloat B) fuel 0%float 1e300%float = OutOfFuel.
Proof.
unfold angle_diff.
assert (Hcond : PrimFloat.leb (0 - 1e300) (- float_pi) = true) by reflexivity.
assert (Hstep : (0 - 1e300 + float_of_int 2 * float_pi = 0 - 1e300)%float)
  by reflexivity.
cbn [fsub float_PyFloat].
rewrite (wrap_up_stuck (H := float_PyFloat B) fuel (0 - 1e300)%float Hcond Hstep).
reflexivity.
Qed.


End AngleDiffRange.

(** ** ray_segment_intersection *)

Section Intersection.
Context {F : Type} `{PyFloat F}.
Local Open Scope py_scope.

Lemma intersection_parallel (origin direction a b : Vec2.t F) :
  (fabs (Vec2.cross direction (Vec2.sub b a)) <? lit_1em6) = true ->
  ray_segment_intersection origin direction a b = Ok None.
Proof. intros Hd. unfold ray_segment_intersection. rewrite Hd. reflexivity. Qed.
End Intersection.

Section FloatIntersection.
Variable B : Builtins.
Local Open Scope float_scope.

Local Abbreviation vec := (@Vec2.make float).

(** C1: on binary64, with a C library for which [cos(0.0) = 1.0] and
    [sin(0.0) = 0.0], the ray from (0, 0) at angle 0 meets the segment
    (5, -1)-(5, 1) at [t = 5], [u = 0.5]; it does not meet (-5, -1)-(-5, 1),
    which lies behind it; and no ray meets a segment when
    [abs(denom) < 1e-6]. *)
Theorem C1_ray_segment_intersection_cases :
  c_cos B 0 = 1 ->
  c_sin B 0 = 0 ->
  (direction ← Vec2.from_angle (H := float_PyFloat B) 0;
   ray_segment_intersection (H := float_PyFloat B)
     (vec 0 0) direction (vec 5 (-1)) (vec 5 1)) = Ok (Some (5, 0.5))
  /\ (direction ← Vec2.from_angle (H := float_PyFloat B) 0;
      ray_segment_intersection (H := float_PyFloat B)
        (vec 0 0) direction (vec (-5) (-1)) (vec (-5) 1)) = Ok None
  /\ (forall origin direction a b : Vec2.t float,
        PrimFloat.ltb
          (PrimFloat.abs
             (Vec2.cross (H := float_PyFloat B) direction
                (Vec2.sub (H := float_PyFloat B) b a))) 1e-6 = true ->
        ray_segment_intersection (H := float_PyFloat B) origin direction a b
        = Ok None).
Proof.
  intros Hcos Hsin.
  assert (Hd : Vec2.from_angle (H := float_PyFloat B) 0 = Ok (vec 1 0)).
  { unfold Vec2.from_angle, math_cos, math_sin. simpl. rewrite Hcos, Hsin.
    reflexivity. }
  rewrite Hd.
  split; [vm_compute; reflexivity|].
  split; [vm_compute; reflexivity|].
  intros origin direction a b Hden.
  apply (intersection_parallel (H := float_PyFloat B)). exact Hden.
Qed.
End FloatIntersection.

Section FloatIntersectionInstance.
Local Open Scope float_scope.

(** C1, witness: the stand-in library has [cos(0.0) = 1.0] and
    [sin(0.0) = 0.0]; the segment (5, 0)-(7, 0) lies along the ray. *)
Lemma C1_ray_segment_intersection_cases_witness :
  (direction ← Vec2.from_angle (H := float_PyFloat coarse_builtins) 0;
   ray_segment_intersection (H := float_PyFloat coarse_builtins)
     (Vec2.make 0 0) direction (Vec2.make 5 (-1)) (Vec2.make 5 1))
  = Ok (Some (5, 0.5))
  /\ ray_segment_intersection (H := float_PyFloat coarse_builtins)
       (Vec2.make 0 0) (Vec2.make 1 0) (Vec2.make 5 0) (Vec2.make 7 0)
     = Ok None.
Proof.
  destruct (C1_ray_segment_intersection_cases coarse_builtins eq_refl eq_refl)
    as [Hhit [_ Hpar]].
  split; [exact Hhit|].
  apply Hpar. reflexivity.
Defined.
End FloatIntersectionInstance.

(** ** The laws of the arithmetic, in exact arithmetic and on binary64 *)

Global Instance R_ArithLaws : ArithLaws R.
Proof.
split; simpl.
- intros a. apply Rltb_false. lra.
- intros a b c Hab Hbc. apply Rltb_true in Hab, Hbc. apply Rltb_true. lra.
- intros a Ha. apply Reqb_true in Ha. subst a. apply Rltb_true.
  rewrite Rabs_R0. lra.
Qed.

Section FloatOrder.

Lemma SFcompare_refl (a : spec_float) :
  SFcompare a a = None \/ SFcompare a a = Some Eq.
Proof.
destruct a as [s|s| |s m e]; simpl; auto.
- right. destruct s; reflexivity.
- right. rewrite Z.compare_refl, Pos.compare_cont_refl. destruct s; reflexivity.
Qed.

Lemma SFltb_irrefl (a : spec_float) : SFltb a a = false.
Proof. unfold SFltb. destruct (SFcompare_refl a) as [-> | ->]; reflexivity. Qed.

Lemma SFltb_trans (a b c : spec_float) :
  SFltb a b = true -> SFltb b c = true -> SFltb a c = true.
Proof.
unfold SFltb.
destruct a as [s1|s1| |s1 m1 e1], b as [s2|s2| |s2 m2 e2], c as [s3|s3| |s3 m3 e3];
  simpl; try discriminate; try reflexivity;
  destruct s1, s2, s3; simpl; try discriminate; try reflexivity;
  change (Pos.compare_cont Eq) with Pos.compare;
  destruct (Z.compare_spec e1 e2), (Z.compare_spec e2 e3), (Z.compare_spec e1 e3);
  try discriminate; try reflexivity; try lia;
  destruct (Pos.compare_spec m1 m2), (Pos.compare_spec m2 m3),
    (Pos.compare_spec m1 m3); simpl; try discriminate; try reflexivity; lia.
Qed.

Lemma float_ltb_irrefl (a : float) : PrimFloat.ltb a a = false.
Proof. rewrite FloatAxioms.ltb_spec. apply SFltb_irrefl. Qed.

Lemma float_ltb_trans (a b c : float) :
  PrimFloat.ltb a b = true -> PrimFloat.ltb b c = true -> PrimFloat.ltb a c = true.
Proof. rewrite !FloatAxioms.ltb_spec. apply SFltb_trans. Qed.

Lemma float_ltb_leb (a b : float) :
  PrimFloat.ltb a b = true -> PrimFloat.leb a b = true.
Proof.
rewrite FloatAxioms.ltb_spec, FloatAxioms.leb_spec. unfold SFltb, SFleb.
destruct (SFcompare (Prim2SF a) (Prim2SF b)) as [[]|]; auto; discriminate.
Qed.





Lemma float_eqb_zero_small (a : float) :
  PrimFloat.eqb a (float_of_int 0) = true ->
  PrimFloat.ltb (PrimFloat.abs a) 1e-6 = true.
Proof.
rewrite FloatAxioms.eqb_spec, FloatAxioms.ltb_spec, FloatAxioms.abs_spec.
assert (E0 : Prim2SF (float_of_int 0) = S754_zero false) by (vm_compute; reflexivity).
assert (E6 : exists m e, Prim2SF 1e-6 = S754_finite false m e)
  by (vm_compute; eauto).
destruct E6 as [m6 [e6 E6]]. rewrite E0, E6.
destruct (Prim2SF a) as [s|s| |s m e]; simpl; try discriminate; try reflexivity.
- destruct s; discriminate.
- destruct s; discriminate.
Qed.

End FloatOrder.

Lemma float_ArithLaws (B : Builtins) : @ArithLaws float (float_PyFloat B).
Proof.
split; simpl.
- apply float_ltb_irrefl.
- apply float_ltb_trans.
- apply float_eqb_zero_small.
Qed.

(** ** cast_ray *)

Section CastRay.
Context {F : Type} `{PyFloat F} `{!ArithLaws F}.
Import VisibilityEngine.
Local Open Scope py_scope.

Lemma py_div_guarded (a denom : F) :
  (fabs denom <? lit_1em6) = false -> py_div a denom = Ok (a / denom).
Proof.
intros Hg. unfold py_div.
destruct (denom =? of_int 0) eqn:Hz; [|reflexivity].
apply feq_zero_small in Hz. congruence.
Qed.

(** The guard on [denom] keeps both divisions from raising. *)
Lemma intersection_returns (origin direction a b : Vec2.t F) :
  exists res, ray_segment_intersection origin direction a b = Ok res.
Proof.
unfold ray_segment_intersection.
destruct (fabs _ <? lit_1em6) eqn:Hg; [eauto|].
rewrite !py_div_guarded by exact Hg. simpl.
destruct (_ <? of_int 0); eauto.
Qed.

Lemma admissible_shrink (bound t t' u' : F) :
  (t <? bound) = true -> admissible t t' u' = true -> admissible bound t' u' = true.
Proof.
unfold admissible. intros Ht Ha.
apply andb_prop in Ha. destruct Ha as [Ha Hu].
apply andb_prop in Ha. destruct Ha as [H0 Hlt].
rewrite H0, Hu, (flt_trans _ _ _ Hlt Ht). reflexivity.
Qed.

Lemma admissible_beyond (bound t t' u' : F) :
  admissible bound t' u' = true -> admissible t t' u' = false -> (t' <? t) = false.
Proof.
unfold admissible. intros Ha Hn.
apply andb_prop in Ha. destruct Ha as [Ha Hu].
apply andb_prop in Ha. destruct Ha as [H0 Hlt].
rewrite H0, Hu in Hn. simpl in Hn. rewrite andb_true_r in Hn. exact Hn.
Qed.

(** The loop from a state with bound [closest_t st]: either some wall of
    the list has an intersection admissible under that bound and the loop
    ends on a closest one, or none has and the state is unchanged. *)
Lemma cast_ray_loop_closest (origin direction : Vec2.t F) (walls : list (Wall.t F)) :
  forall (i : nat) (st : RayState),
    (exists (j : nat) (wall : Wall.t F) (t u : F),
        walls !! j = Some wall
        /\ wall_intersection origin direction wall = Ok (Some (t, u))
        /\ admissible (closest_t st) t u = true
        /\ cast_ray_loop origin direction walls i st
           = Ok (mkRayState t (Some (Vec2.add origin (Vec2.mul direction t)))
                   (Some (i + j)%nat))
        /\ forall (j' : nat) (wall' : Wall.t F) (t' u' : F),
             walls !! j' = Some wall' ->
             wall_intersection origin direction wall' = Ok (Some (t', u')) ->
             admissible (closest_t st) t' u' = true ->
             (t' <? t) = false)
    \/ (cast_ray_loop origin direction walls i st = Ok st
        /\ forall (j' : nat) (wall' : Wall.t F) (t' u' : F),
             walls !! j' = Some wall' ->
             wall_intersection origin direction wall' = Ok (Some (t', u')) ->
             admissible (closest_t st) t' u' = false).
Proof.
induction walls as [|wall walls IH]; intros i st.
- right. split; [reflexivity|]. intros j' wall' t' u' Hj. discriminate.
- simpl cast_ray_loop.
  destruct (intersection_returns origin direction
              (Segment.p1 (Wall.get_segment wall))
              (Segment.p2 (Wall.get_segment wall))) as [res Hres].
  change (wall_intersection origin direction wall = Ok res) in Hres.
  rewrite Hres. simpl.
  assert (Hskip :
    (forall t u, res = Some (t, u) -> admissible (closest_t st) t u = false) ->
    forall (j' : nat) (wall' : Wall.t F) (t' u' : F),
      (wall :: walls) !! j' = Some wall' ->
      wall_intersection origin direction wall' = Ok (Some (t', u')) ->
      admissible (closest_t st) t' u' = true -> (j' <> 0)%nat).
  { intros Hno j' wall' t' u' Hj Hw Ha ->. simpl in Hj. injection Hj as <-.
    rewrite Hres in Hw. injection Hw as ->.
    rewrite (Hno _ _ eq_refl) in Ha. discriminate. }
  assert (Hsame :
    (forall t u, res = Some (t, u) -> admissible (closest_t st) t u = false) ->
    (exists (j : nat) (wall0 : Wall.t F) (t u : F),
        (wall :: walls) !! j = Some wall0
        /\ wall_intersection origin direction wall0 = Ok (Some (t, u))
        /\ admissible (closest_t st) t u = true
        /\ cast_ray_loop origin direction walls (S i) st
           = Ok (mkRayState t (Some (Vec2.add origin (Vec2.mul direction t)))
                   (Some (i + j)%nat))
        /\ forall (j' : nat) (wall' : Wall.t F) (t' u' : F),
             (wall :: walls) !! j' = Some wall' ->
             wall_intersection origin direction wall' = Ok (Some (t', u')) ->
             admissible (closest_t st) t' u' = true ->
             (t' <? t) = false)
    \/ (cast_ray_loop origin direction walls (S i) st = Ok st
        /\ forall (j' : nat) (wall' : Wall.t F) (t' u' : F),
             (wall :: walls) !! j' = Some wall' ->
             wall_intersection origin direction wall' = Ok (Some (t', u')) ->
             admissible (closest_t st) t' u' = false)).
  { intros Hno. destruct (IH (S i) st) as [[j [w0 [t [u [Hj [Hw [Ha [Hl Hmin]]]]]]]] | [Hl Hnone]].
    - left. exists (S j), w0, t, u. split; [exact Hj|]. split; [exact Hw|].
      split; [exact Ha|]. split; [rewrite Hl; do 3 f_equal; lia|].
      intros j' wall' t' u' Hj' Hw' Ha'.
      destruct j' as [|j']; [exfalso; eapply Hskip; eauto|].
      eapply Hmin; eauto.
    - right. split; [exact Hl|].
      intros j' wall' t' u' Hj' Hw'.
      destruct j' as [|j'].
      + simpl in Hj'. injection Hj' as <-.
        rewrite Hres in Hw'. injection Hw' as ->.
        apply Hno. reflexivity.
      + eapply Hnone; eauto. }
  destruct res as [[t u]|]; [|apply Hsame; intros ? ? ?; discriminate].
  destruct (admissible (closest_t st) t u) eqn:Hadm;
    [|apply Hsame; intros ? ? Heq; injection Heq as <- <-; exact Hadm].
  assert (Hlt : (t <? closest_t st) = true).
  { unfold admissible in Hadm. apply andb_prop in Hadm. destruct Hadm as [Hadm _].
    apply andb_prop in Hadm. tauto. }
  left.
  destruct (IH (S i) (mkRayState t (Some (Vec2.add origin (Vec2.mul direction t)))
                        (Some i)))
    as [[j [w0 [t2 [u2 [Hj [Hw [Ha [Hl Hmin]]]]]]]] | [Hl Hnone]]; simpl in *.
  + exists (S j), w0, t2, u2. split; [exact Hj|]. split; [exact Hw|].
    split; [eapply admissible_shrink; eauto|].
    split; [rewrite Hl; do 3 f_equal; lia|].
    assert (Ht2 : (t2 <? t) = true).
    { unfold admissible in Ha. apply andb_prop in Ha. destruct Ha as [Ha _].
      apply andb_prop in Ha. tauto. }
    intros j' wall' t' u' Hj' Hw' Ha'.
    destruct (admissible t t' u') eqn:Hin.
    * destruct j' as [|j'].
      -- simpl in Hj'. injection Hj' as <-.
         rewrite Hres in Hw'.
         injection Hw' as <- <-.
         unfold admissible in Hin. rewrite flt_irrefl, andb_false_r in Hin.
         discriminate.
      -- eapply Hmin; eauto.
    * pose proof (admissible_beyond _ _ _ _ Ha' Hin) as Hge.
      destruct (t' <? t2) eqn:Hc; [|reflexivity].
      rewrite (flt_trans _ _ _ Hc Ht2) in Hge. discriminate.
  + exists 0%nat, wall, t, u. split; [reflexivity|].
    split; [exact Hres|]. split; [exact Hadm|].
    split; [rewrite Hl; do 3 f_equal; lia|].
    intros j' wall' t' u' Hj' Hw' Ha'.
    destruct j' as [|j'].
    * simpl in Hj'. injection Hj' as <-.
      rewrite Hres in Hw'.
      injection Hw' as <- <-. apply flt_irrefl.
    * eapply admissible_beyond; [exact Ha'|]. eapply Hnone; eauto.
Qed.

Lemma wall_intersection_spec (origin direction : Vec2.t F) (wall : Wall.t F) :
  wall_intersection origin direction wall
  = Ok (spec_intersection origin direction
          (Segment.p1 (Wall.segment wall)) (Segment.p2 (Wall.segment wall))).
Proof.
unfold wall_intersection, Wall.get_segment, Segment.points,
  ray_segment_intersection, spec_intersection, spec_cross, Vec2.cross, Vec2.sub.
cbn [Vec2.x Vec2.y].
destruct (fabs _ <? lit_1em6) eqn:Hg; [reflexivity|].
rewrite !py_div_guarded by exact Hg. cbn [mbind Res_bind].
change (Ok ?a ≫= ?k) with (k a). cbn beta.
destruct (_ <? of_int 0); reflexivity.
Qed.

Lemma admissible_meets (origin direction : Vec2.t F) (max_dist : F)
    (wall : Wall.t F) (t u : F) :
  wall_intersection origin direction wall = Ok (Some (t, u))
  /\ admissible max_dist t u = true
  <-> meets origin direction max_dist wall t u.
Proof.
unfold meets, admissible. rewrite wall_intersection_spec. split.
- intros [Hi Ha]. injection Hi as Hi.
  apply andb_prop in Ha. destruct Ha as [Ha Hu].
  apply andb_prop in Ha. destruct Ha as [H0 Hlt].
  apply andb_prop in Hu. destruct Hu as [Hu0 Hu1]. auto.
- intros (Hi & H0 & Hlt & Hu0 & Hu1). rewrite Hi, H0, Hlt, Hu0, Hu1. auto.
Qed.


(** C2: for an angle that is not an infinity (where [math.cos] raises),
    [cast_ray] returns.  With [direction] the unit vector at the angle:
    either it returns the point [origin + direction * t] and the wall
    struck, where the ray meets the current segment of that wall at [(t, u)]
    in the sense of the specification ([meets]: the intersection test of
    4.3 gives [(t, u)], [0 <= t < max_dist], [0 <= u <= 1]), and it meets no
    wall closer; or the ray meets no wall and [cast_ray] returns no hit. *)
Theorem C2_cast_ray_closest_hit
    (walls : list (Wall.t F)) (origin : Vec2.t F) (angle max_dist : F) :
  isinf angle = false ->
  let direction := unit_direction angle in
  (exists (i : nat) (wall : Wall.t F) (t u : F),
      walls !! i = Some wall
      /\ meets origin direction max_dist wall t u
      /\ cast_ray walls origin angle max_dist
         = Ok (Some (point_at origin direction t), Some i)
      /\ forall (j : nat) (wall' : Wall.t F) (t' u' : F),
           walls !! j = Some wall' ->
           meets origin direction max_dist wall' t' u' ->
           (t' <? t) = false)
  \/ (cast_ray walls origin angle max_dist = Ok (None, None)
      /\ forall (j : nat) (wall' : Wall.t F) (t' u' : F),
           walls !! j = Some wall' ->
           ~ meets origin direction max_dist wall' t' u').
Proof.
intros Hfin direction.
assert (Hd : Vec2.from_angle angle = Ok direction).
{ unfold Vec2.from_angle, math_cos, math_sin. rewrite Hfin. reflexivity. }
unfold cast_ray. rewrite Hd. simpl.
destruct (cast_ray_loop_closest origin direction walls 0
            (mkRayState max_dist None None))
  as [[j [w0 [t [u [Hj [Hw [Ha [Hl Hmin]]]]]]]] | [Hl Hnone]]; simpl in *.
- left. exists j, w0, t, u. rewrite Hl. simpl.
  split; [exact Hj|]. split; [apply admissible_meets; auto|].
  split; [reflexivity|].
  intros j' wall' t' u' Hj' Hm. apply admissible_meets in Hm.
  destruct Hm as [Hi' Ha']. exact (Hmin j' wall' t' u' Hj' Hi' Ha').
- right. rewrite Hl. simpl. split; [reflexivity|].
  intros j' wall' t' u' Hj' Hm. apply admissible_meets in Hm.
  destruct Hm as [Hi' Ha']. rewrite (Hnone j' wall' t' u' Hj' Hi') in Ha'.
  discriminate.
Qed.
End CastRay.

(** ** The stages of compute_visibility_polygon *)

Lemma no_raise_Ok {A} (a : A) : no_raise (Ok a).
Proof. intros e. discriminate. Qed.

Lemma no_raise_bind {A B} (m : Res A) (k : A -> Res B) :
  no_raise m -> (forall a, m = Ok a -> no_raise (k a)) -> no_raise (m ≫= k).
Proof.
intros Hm Hk e. destruct m as [a|e'|]; simpl.
- apply Hk. reflexivity.
- exfalso. exact (Hm e' eq_refl).
- discriminate.
Qed.

Section Sorting.
Context {F : Type} `{PyFloat F} {A : Type} (key : A -> F).

Lemma py_sort_by_perm (l : list A) : py_sort_by key l ≡ₚ l.
Proof. unfold py_sort_by. apply sorted_perm. Qed.
End Sorting.

Section Stages.
Context {F : Type} `{PyFloat F} `{!ArithLaws F}.
Import VisibilityEngine.
Local Open Scope py_scope.

Lemma wrap_up_no_raise (fuel : nat) : forall d : F, no_raise (wrap_up fuel d).
Proof.
induction fuel as [|fuel IH]; intros d e; simpl; destruct (_ <=? _);
  try discriminate. apply IH.
Qed.

Lemma wrap_down_no_raise (fuel : nat) : forall d : F, no_raise (wrap_down fuel d).
Proof.
induction fuel as [|fuel IH]; intros d e; simpl; destruct (_ <? _);
  try discriminate. apply IH.
Qed.

Lemma angle_diff_no_raise (fuel : nat) (a b : F) : no_raise (angle_diff fuel a b).
Proof.
unfold angle_diff. apply no_raise_bind; [apply wrap_up_no_raise|].
intros d _. apply wrap_down_no_raise.
Qed.

Lemma from_angle_finite (a : F) :
  isinf a = false -> Vec2.from_angle a = Ok (Vec2.make (libm_cos a) (libm_sin a)).
Proof.
intros Hfin. unfold Vec2.from_angle, math_cos, math_sin. rewrite Hfin. reflexivity.
Qed.

(** What a ray returns: a point with the wall struck, or neither. *)
Lemma cast_ray_outcome (walls : list (Wall.t F)) (origin : Vec2.t F) (a max_dist : F) :
  isinf a = false ->
  (exists (i : nat) (t : F),
      (of_int 0 <=? t) = true
      /\ cast_ray walls origin a max_dist
         = Ok (Some (Vec2.add origin (Vec2.mul (Vec2.make (libm_cos a) (libm_sin a)) t)),
               Some i))
  \/ cast_ray walls origin a max_dist = Ok (None, None).
Proof.
intros Hfin. unfold cast_ray. rewrite (from_angle_finite a Hfin). simpl.
destruct (cast_ray_loop_closest origin (Vec2.make (libm_cos a) (libm_sin a)) walls 0
            (mkRayState max_dist None None))
  as [[j [w0 [t [u [Hj [Hw [Ha [Hl Hmin]]]]]]]] | [Hl Hnone]]; rewrite Hl; simpl.
- left. exists j, t. split; [|reflexivity].
  unfold admissible in Ha. apply andb_prop in Ha. destruct Ha as [Ha _].
  apply andb_prop in Ha. tauto.
- right. reflexivity.
Qed.

Lemma cast_ray_no_walls (origin : Vec2.t F) (a max_dist : F)
    (r : option (Vec2.t F) * option nat) :
  cast_ray [] origin a max_dist = Ok r -> r = (None, None).
Proof.
unfold cast_ray. intros Hc. inv_bind Hc. simpl in Hc. injection Hc as <-.
reflexivity.
Qed.

(** The points a casting loop adds, in the order of the angles, and the
    walls it adds to the hit set. *)
Lemma cast_loop_inv (walls : list (Wall.t F)) (origin : Vec2.t F) :
  forall (angles : list F) (pts0 : list (F * Vec2.t F)) (hits0 : gset nat)
         (pts : list (F * Vec2.t F)) (hits : gset nat),
    cast_loop walls origin angles pts0 hits0 = Ok (pts, hits) ->
    exists new : list (F * Vec2.t F),
      pts = pts0 ++ new
      /\ map fst new `sublist_of` angles
      /\ Forall (fun ap => exists w,
                   cast_ray walls origin ap.1 default_max_dist = Ok (Some ap.2, w)) new
      /\ forall i : nat, i ∈ hits ->
           i ∈ hits0
           \/ exists ap, ap ∈ new
                /\ cast_ray walls origin ap.1 default_max_dist = Ok (Some ap.2, Some i).
Proof.
induction angles as [|a angles IH]; intros pts0 hits0 pts hits Hc; simpl in Hc.
- injection Hc as <- <-. exists []. rewrite app_nil_r.
  split; [reflexivity|]. split; [constructor|]. split; [constructor|]. auto.
- inv_bind Hc. destruct r as [hit_point hit_wall]. simpl in Hc.
  destruct hit_point as [p|].
  + apply IH in Hc. destruct Hc as [new [Hpts [Hsub [Hall Hhits]]]].
    exists ((a, p) :: new). rewrite Hpts, <- app_assoc. split; [reflexivity|].
    split; [simpl; constructor; exact Hsub|].
    split; [constructor; [exists hit_wall; exact Hm|exact Hall]|].
    intros i Hi. apply Hhits in Hi. destruct Hi as [Hi | [ap [Hin Hap]]].
    * destruct hit_wall as [w|]; [|left; exact Hi].
      apply elem_of_union in Hi. destruct Hi as [Hi | Hi]; [left; exact Hi|].
      apply elem_of_singleton in Hi. subst w. right. exists (a, p).
      split; [left|exact Hm].
    * right. exists ap. split; [right; exact Hin|exact Hap].
  + apply IH in Hc. destruct Hc as [new [Hpts [Hsub [Hall Hhits]]]].
    exists new. split; [exact Hpts|]. split; [constructor; exact Hsub|].
    split; [exact Hall|exact Hhits].
Qed.

Lemma cast_loop_from_empty (walls : list (Wall.t F)) (origin : Vec2.t F)
    (angles : list F) (pts : list (F * Vec2.t F)) (hits : gset nat) :
  cast_loop walls origin angles [] ∅ = Ok (pts, hits) ->
  map fst pts `sublist_of` angles
  /\ Forall (fun ap => exists w,
               cast_ray walls origin ap.1 default_max_dist = Ok (Some ap.2, w)) pts
  /\ forall i : nat, i ∈ hits ->
       exists ap, ap ∈ pts
         /\ cast_ray walls origin ap.1 default_max_dist = Ok (Some ap.2, Some i).
Proof.
intros Hc. apply cast_loop_inv in Hc. destruct Hc as [new [-> [Hsub [Hall Hhits]]]].
split; [exact Hsub|]. split; [exact Hall|].
intros i Hi. destruct (Hhits i Hi) as [Hi'|Hi']; [|exact Hi'].
apply not_elem_of_empty in Hi'. contradiction.
Qed.

Lemma cast_loop_returns (walls : list (Wall.t F)) (origin : Vec2.t F) :
  forall (angles : list F) (pts0 : list (F * Vec2.t F)) (hits0 : gset nat),
    Forall (fun a => isinf a = false) angles ->
    exists r, cast_loop walls origin angles pts0 hits0 = Ok r.
Proof.
induction angles as [|a angles IH]; intros pts0 hits0 Hfin; simpl; [eauto|].
apply Forall_cons in Hfin. destruct Hfin as [Ha Hfin].
destruct (cast_ray_outcome walls origin a default_max_dist Ha)
  as [[i [t [_ Hc]]] | Hc]; rewrite Hc; simpl; apply IH; exact Hfin.
Qed.

Lemma cast_loop_no_walls (origin : Vec2.t F) :
  forall (angles : list F) (pts0 : list (F * Vec2.t F)) (hits0 : gset nat)
         (r : list (F * Vec2.t F) * gset nat),
    cast_loop [] origin angles pts0 hits0 = Ok r -> r = (pts0, hits0).
Proof.
induction angles as [|a angles IH]; intros pts0 hits0 r Hc; simpl in Hc.
- injection Hc as <-. reflexivity.
- inv_bind Hc. apply cast_ray_no_walls in Hm. subst r0. simpl in Hc.
  apply IH. exact Hc.
Qed.

Lemma kept_weaken fuel facing fov full (a0 : F) (angles : list F) (a : F) :
  kept fuel facing fov full angles a -> kept fuel facing fov full (a0 :: angles) a.
Proof.
intros [a1 [Hin Hrest]]. exists a1. split; [right; exact Hin|exact Hrest].
Qed.

Lemma unique_loop_inv (fuel : nat) (facing fov : F) (full : bool) :
  forall (angles unique seen res : list F),
    unique_loop fuel facing fov full angles unique seen = Ok res ->
    exists new : list F,
      res = unique ++ new /\ Forall (kept fuel facing fov full angles) new.
Proof.
induction angles as [|a0 angles IH]; intros unique seen res Hu; simpl in Hu.
- injection Hu as <-. exists []. rewrite app_nil_r. split; [reflexivity|constructor].
- assert (Hpass : forall unique' seen',
    unique_loop fuel facing fov full angles unique' seen' = Ok res ->
    exists new, res = unique' ++ new
                /\ Forall (kept fuel facing fov full (a0 :: angles)) new).
  { intros unique' seen' Hu'. apply IH in Hu'. destruct Hu' as [new [Hres Hall]].
    exists new. split; [exact Hres|].
    eapply Forall_impl; [exact Hall|]. intros a. apply kept_weaken. }
  unfold math_sin, math_cos in Hu.
  destruct (isinf a0) eqn:Hfin; [discriminate|]. simpl in Hu.
  destruct (existsb _ seen); [eapply Hpass; exact Hu|].
  assert (Hkeep : forall seen',
    (full = false ->
     exists diff, angle_diff fuel (libm_atan2 (libm_sin a0) (libm_cos a0)) facing
                  = Ok diff /\ (fov / of_int 2 <? fabs diff) = false) ->
    unique_loop fuel facing fov full angles
      (unique ++ [libm_atan2 (libm_sin a0) (libm_cos a0)]) seen' = Ok res ->
    exists new, res = unique ++ new
                /\ Forall (kept fuel facing fov full (a0 :: angles)) new).
  { intros seen' Hfov Hu'. apply Hpass in Hu'. destruct Hu' as [new [Hres Hall]].
    exists (libm_atan2 (libm_sin a0) (libm_cos a0) :: new).
    rewrite Hres, <- app_assoc. split; [reflexivity|].
    constructor; [|exact Hall].
    exists a0. split; [left|]. split; [exact Hfin|]. split; [reflexivity|exact Hfov]. }
  destruct full; simpl in Hu.
  + eapply Hkeep; [discriminate|exact Hu].
  + inv_bind Hu. destruct (_ <? fabs r) eqn:Hout; [eapply Hpass; exact Hu|].
    eapply Hkeep; [|exact Hu]. intros _. exists r. split; [exact Hm|exact Hout].
Qed.

Lemma unique_loop_from_empty (fuel : nat) (facing fov : F) (full : bool)
    (angles res : list F) :
  unique_loop fuel facing fov full angles [] [] = Ok res ->
  Forall (kept fuel facing fov full angles) res.
Proof.
intros Hu. apply unique_loop_inv in Hu. destruct Hu as [new [-> Hkept]].
exact Hkept.
Qed.

Lemma unique_loop_no_raise (fuel : nat) (facing fov : F) (full : bool) :
  forall (angles unique seen : list F),
    Forall (fun a => isinf a = false) angles ->
    no_raise (unique_loop fuel facing fov full angles unique seen).
Proof.
induction angles as [|a0 angles IH]; intros unique seen Hfin; simpl.
- apply no_raise_Ok.
- apply Forall_cons in Hfin. destruct Hfin as [Ha Hfin].
  unfold math_sin, math_cos. rewrite Ha. simpl.
  destruct (existsb _ seen); [apply IH; exact Hfin|].
  destruct full; simpl; [apply IH; exact Hfin|].
  apply no_raise_bind; [apply angle_diff_no_raise|].
  intros d _. destruct (_ <? fabs d); apply IH; exact Hfin.
Qed.

Lemma unique_loop_returns (fuel : nat) (facing fov : F) (full : bool) :
  forall (angles unique seen : list F),
    Forall (fun a => isinf a = false) angles ->
    (full = false ->
     forall a0, exists d,
       angle_diff fuel (libm_atan2 (libm_sin a0) (libm_cos a0)) facing = Ok d) ->
    exists res, unique_loop fuel facing fov full angles unique seen = Ok res.
Proof.
intros angles unique seen Hfin Hdiff. revert unique seen.
induction Hfin as [|a0 angles Ha Hfin IH]; intros unique seen; simpl; [eauto|].
unfold math_sin, math_cos. rewrite Ha. simpl.
destruct (existsb _ seen); [apply IH|].
destruct full; simpl; [apply IH|].
destruct (Hdiff eq_refl a0) as [d Hd]. rewrite Hd. simpl.
destruct (_ <? fabs d); apply IH.
Qed.

Lemma angle_pairs_inv (fuel : nat) (facing : F) :
  forall (unique : list F) (pairs : list (F * F)),
    angle_pairs fuel facing unique = Ok pairs ->
    map snd pairs = unique
    /\ Forall (fun da => angle_diff fuel da.2 facing = Ok da.1) pairs.
Proof.
induction unique as [|a unique IH]; intros pairs Hp; simpl in Hp.
- injection Hp as <-. split; [reflexivity|constructor].
- inv_bind Hp. inv_bind Hp. injection Hp as <-.
  destruct (IH _ Hm0) as [Hsnd Hall]. simpl. rewrite Hsnd.
  split; [reflexivity|]. constructor; [exact Hm|exact Hall].
Qed.

Lemma angle_pairs_no_raise (fuel : nat) (facing : F) (unique : list F) :
  no_raise (angle_pairs fuel facing unique).
Proof.
induction unique as [|a unique IH]; simpl; [apply no_raise_Ok|].
apply no_raise_bind; [apply angle_diff_no_raise|]. intros d _.
apply no_raise_bind; [exact IH|]. intros pairs _. apply no_raise_Ok.
Qed.

Lemma angle_pairs_returns (fuel : nat) (facing : F) (unique : list F) :
  Forall (fun a => exists d, angle_diff fuel a facing = Ok d) unique ->
  exists pairs, angle_pairs fuel facing unique = Ok pairs.
Proof.
induction 1 as [|a unique [d Hd] _ [pairs IH]]; simpl; [eauto|].
rewrite Hd. simpl. rewrite IH. simpl. eauto.
Qed.
End Stages.

(** ** The laws of the C library *)

Global Instance R_TrigLaws : TrigLaws R.
Proof.
split; try reflexivity.
intros facing fov. apply Forall_forall. reflexivity.
Qed.

Lemma float_TrigLaws (B : Builtins) :
  atan2_bounded B -> @TrigLaws float (float_PyFloat B).
Proof.
intros HB. split; simpl.
- intros y x. apply (HB y x).
- intros y x. apply (HB y x).
- intros y x. apply (HB y x).
- intros facing fov. apply Forall_forall. intros a Ha.
  apply list_elem_of_In in Ha.
  assert (Hall : forallb (fun a => negb (PrimFloat.is_infinity a))
                   (@VisibilityEngine.sample_angles float (float_PyFloat B)
                      facing fov true) = true)
    by (vm_compute; reflexivity).
  rewrite forallb_forall in Hall. apply Hall in Ha.
  apply negb_true_iff in Ha. exact Ha.
Qed.

Lemma coarse_atan2_bounded : atan2_bounded coarse_builtins.
Proof.
intros y x. simpl. unfold coarse_atan2.
destruct (PrimFloat.ltb 0 x), (PrimFloat.ltb x 0), (PrimFloat.ltb 0 y),
  (PrimFloat.ltb y 0); vm_compute; auto.
Qed.

Section WholeFunction.
Context {F : Type} `{PyFloat F} `{!ArithLaws F} `{!TrigLaws F}.
Import VisibilityEngine.
Local Open Scope py_scope.

Lemma endpoint_angles_not_inf (walls : list (Wall.t F)) (origin : Vec2.t F) :
  Forall (fun a => isinf a = false) (endpoint_angles walls origin).
Proof.
unfold endpoint_angles. apply Forall_flat_map, Forall_forall. intros wall _.
apply Forall_flat_map, Forall_forall. intros p _.
repeat constructor;
  auto using atan2_not_inf, atan2_minus_eps_not_inf, atan2_plus_eps_not_inf.
Qed.

Lemma kept_not_inf fuel facing fov full (angles : list F) (res : list F) :
  Forall (kept fuel facing fov full angles) res ->
  Forall (fun a => isinf a = false) res.
Proof.
intros Hk. eapply Forall_impl; [exact Hk|].
intros a [a0 [_ [_ [-> _]]]]. apply atan2_not_inf.
Qed.

Lemma py_sort_by_Forall {A} (key : A -> F) (P : A -> Prop) (l : list A) :
  Forall P l -> Forall P (py_sort_by key l).
Proof. intros Hl. rewrite py_sort_by_perm. exact Hl. Qed.

(** The three stages of [visibility_points], named. *)
Lemma visibility_points_inv (fuel : nat) (walls : list (Wall.t F))
    (origin : Vec2.t F) (facing fov : F) (full : bool)
    (r : list (F * Vec2.t F) * gset nat) :
  visibility_points fuel walls origin facing fov full = Ok r ->
  exists unique ordered : list F,
    unique_loop fuel facing fov full
      (endpoint_angles walls origin ++ sample_angles facing fov full) [] []
    = Ok unique
    /\ ordered_angles fuel facing full (py_sort unique) = Ok ordered
    /\ cast_loop walls origin ordered [] ∅ = Ok r.
Proof.
unfold visibility_points. intros Hv.
inv_bind Hv. inv_bind Hv. inv_bind Hv. eauto.
Qed.

(** In 360-degree mode every stage returns. *)
Lemma visibility_points_360_returns (fuel : nat) (walls : list (Wall.t F))
    (origin : Vec2.t F) (facing fov : F) :
  exists r, visibility_points fuel walls origin facing fov true = Ok r.
Proof.
unfold visibility_points.
assert (Hcand : Forall (fun a => isinf a = false)
                  (endpoint_angles walls origin ++ sample_angles facing fov true)).
{ apply Forall_app. split; [apply endpoint_angles_not_inf|apply samples_360_not_inf]. }
destruct (unique_loop_returns fuel facing fov true _ [] [] Hcand) as [unique Hu];
  [discriminate|].
rewrite Hu. simpl.
destruct (unique_loop_inv _ _ _ _ _ _ _ _ Hu) as [new [-> Hkept]]. simpl.
apply kept_not_inf in Hkept.
pose proof (py_sort_by_Forall (fun a => a) _ _ Hkept) as Hsorted.
destruct (cast_loop_returns walls origin _ [] ∅ Hsorted) as [r1 Hr1].
unfold py_sort. rewrite Hr1. simpl.
apply cast_loop_returns. apply py_sort_by_Forall. exact Hsorted.
Qed.

(** In FOV mode no stage raises when none of the 33 samples is an
    infinity; a loop of [angle_diff] may still run out of fuel. *)
Lemma visibility_points_fov_no_raise (fuel : nat) (walls : list (Wall.t F))
    (origin : Vec2.t F) (facing fov : F) :
  Forall (fun a => isinf a = false) (sample_angles facing fov false) ->
  no_raise (visibility_points fuel walls origin facing fov false).
Proof.
intros Hsamples. unfold visibility_points.
assert (Hcand : Forall (fun a => isinf a = false)
                  (endpoint_angles walls origin ++ sample_angles facing fov false)).
{ apply Forall_app. split; [apply endpoint_angles_not_inf|exact Hsamples]. }
apply no_raise_bind; [apply unique_loop_no_raise; exact Hcand|].
intros unique Hu.
destruct (unique_loop_inv _ _ _ _ _ _ _ _ Hu) as [new [-> Hkept]]. simpl.
apply kept_not_inf in Hkept.
pose proof (py_sort_by_Forall (fun a => a) _ _ Hkept) as Hsorted.
destruct (cast_loop_returns walls origin _ [] ∅ Hsorted) as [r1 Hr1].
unfold py_sort. rewrite Hr1. simpl.
apply no_raise_bind.
{ apply no_raise_bind; [apply angle_pairs_no_raise|]. intros; apply no_raise_Ok. }
intros ordered Hord. inv_bind Hord. injection Hord as <-.
apply angle_pairs_inv in Hm. destruct Hm as [Hsnd _].
assert (Hfin : Forall (fun a => isinf a = false) (map snd (py_sort_by fst r))).
{ rewrite py_sort_by_perm, Hsnd. exact Hsorted. }
destruct (cast_loop_returns walls origin _ [] ∅ Hfin) as [r2 Hr2].
rewrite Hr2. apply no_raise_Ok.
Qed.
End WholeFunction.

Section NoWalls.
Context {F : Type} `{PyFloat F}.
Import VisibilityEngine.

(** With no wall, what is returned is empty. *)
Lemma compute_no_walls (fuel : nat) (origin : Vec2.t F) (facing fov : F)
    (full : bool) (r : list (Vec2.t F) * gset nat) :
  compute_visibility_polygon fuel [] origin facing fov full = Ok r ->
  r = ([], ∅).
Proof.
unfold compute_visibility_polygon, visibility_points. intros Hc.
inv_bind Hc. inv_bind Hm. inv_bind Hm. inv_bind Hm.
apply cast_loop_no_walls in Hm. subst r0. simpl in Hc. injection Hc as <-.
reflexivity.
Qed.
End NoWalls.

(** ** The whole function in exact arithmetic *)

Section RealWholeFunction.
Import VisibilityEngine.
Local Open Scope R_scope.

Lemma Ratan2_range (y x : R) : - PI < Ratan2 y x <= PI.
Proof.
pose proof PI_RGT_0 as Hpi. unfold Ratan2.
pose proof (atan_bound (y / x)) as [Hlo Hhi].
destruct (Rlt_dec 0 x) as [Hx|Hx]; [lra|].
destruct (Rlt_dec x 0) as [Hx'|Hx'].
- assert (Hinv : / x < 0) by (apply Rinv_lt_0_compat; exact Hx').
  destruct (Rle_dec 0 y) as [Hy|Hy].
  + assert (Hq : y / x <= 0) by (unfold Rdiv; nra).
    assert (Hat : atan (y / x) <= 0).
    { destruct Hq as [Hq|Hq]; [|rewrite Hq, atan_0; lra].
      pose proof (atan_increasing _ _ Hq) as Hinc. rewrite atan_0 in Hinc. lra. }
    lra.
  + assert (Hq : 0 < y / x) by (unfold Rdiv; nra).
    pose proof (atan_increasing _ _ Hq) as Hinc. rewrite atan_0 in Hinc. lra.
- destruct (Rlt_dec 0 y); [lra|]. destruct (Rlt_dec y 0); lra.
Qed.

Lemma kept_real_range fuel facing fov full (angles : list R) (a : R) :
  kept fuel facing fov full angles a -> - PI < a <= PI.
Proof. intros [a0 [_ [_ [-> _]]]]. apply Ratan2_range. Qed.

(** In exact arithmetic the function returns, in either mode, once the loop
    budget covers the turns between the facing angle and (-PI, PI]. *)
Lemma visibility_points_real_budget (walls : list (Wall.t R)) (origin : Vec2.t R)
    (facing fov : R) (full : bool) (N fuel : nat) :
  Rabs facing <= 2 * PI * INR N -> (N <= fuel)%nat ->
  exists r, visibility_points fuel walls origin facing fov full = Ok r.
Proof.
intros HN Hfuel. destruct full.
{ apply visibility_points_360_returns. }
unfold visibility_points.
assert (Hdiff : forall a : R, - PI < a <= PI ->
                  exists d, angle_diff fuel a facing = Ok d).
{ intros a Ha.
  destruct (angle_diff_real_budget facing N fuel HN Hfuel a Ha) as [d [Hd _]].
  eauto. }
assert (Hcand : Forall (fun a : R => isinf a = false)
                  (endpoint_angles walls origin ++ sample_angles facing fov false))
  by (apply Forall_forall; reflexivity).
destruct (unique_loop_returns fuel facing fov false _ [] [] Hcand) as [unique Hu].
{ intros _ a0. apply Hdiff. apply Ratan2_range. }
rewrite Hu. simpl.
destruct (unique_loop_inv _ _ _ _ _ _ _ _ Hu) as [new [-> Hkept]]. simpl.
assert (Hfin : forall l : list R, Forall (fun a : R => isinf a = false) l)
  by (intros l; apply Forall_forall; reflexivity).
destruct (cast_loop_returns walls origin (py_sort new) [] ∅ (Hfin _)) as [r1 Hr1].
rewrite Hr1. simpl.
destruct (angle_pairs_returns fuel facing (py_sort new)) as [pairs Hp].
{ unfold py_sort. apply py_sort_by_Forall.
  eapply Forall_impl; [exact Hkept|]. intros a Ha. apply Hdiff.
  eapply kept_real_range; exact Ha. }
unfold ordered_angles. rewrite Hp. simpl.
apply cast_loop_returns. apply Hfin.
Qed.

Lemma visibility_points_real_returns (walls : list (Wall.t R)) (origin : Vec2.t R)
    (facing fov : R) (full : bool) :
  exists N : nat, forall fuel : nat, (N <= fuel)%nat ->
    exists r, visibility_points fuel walls origin facing fov full = Ok r.
Proof.
destruct (turns_budget facing) as [N HN]. exists N. intros fuel Hfuel.
apply (visibility_points_real_budget walls origin facing fov full N fuel HN Hfuel).
Qed.
End RealWholeFunction.

(** ** compute_visibility_polygon: errors and termination *)

Section ComputeTotality.
Import VisibilityEngine.

Lemma compute_of_points {F : Type} `{PyFloat F} (fuel : nat)
    (walls : list (Wall.t F)) (origin : Vec2.t F) (facing fov : F) (full : bool) :
  compute_visibility_polygon fuel walls origin facing fov full
  = (r ← visibility_points fuel walls origin facing fov full;
     Ok (map snd r.1, r.2)).
Proof.
unfold compute_visibility_polygon.
destruct (visibility_points fuel walls origin facing fov full) as [[pts hits]| |];
  reflexivity.
Qed.

(** Every point returned is the hit point of a ray that was cast: a miss
    adds nothing. *)
Lemma compute_points_are_hits {F : Type} `{PyFloat F} (fuel : nat)
    (walls : list (Wall.t F)) (origin : Vec2.t F) (facing fov : F) (full : bool)
    (poly : list (Vec2.t F)) (hits : gset nat) :
  compute_visibility_polygon fuel walls origin facing fov full = Ok (poly, hits) ->
  Forall (fun p => exists (a : F) (w : option nat),
            cast_ray walls origin a default_max_dist = Ok (Some p, w)) poly.
Proof.
rewrite compute_of_points. intros Hc. inv_bind Hc. injection Hc as <- <-.
destruct r as [pts hits']. simpl.
unfold visibility_points in Hm. inv_bind Hm. inv_bind Hm. inv_bind Hm.
apply cast_loop_inv in Hm. destruct Hm as [new [-> [_ [Hall _]]]]. simpl.
apply Forall_fmap. eapply Forall_impl; [exact Hall|].
intros [a p] [w Hw]. simpl in *. eauto.
Qed.

(** On binary64 an infinite facing angle makes [math.sin] raise at the first
    sample, whatever the C library. *)
Lemma compute_raises_at_infinite_facing (B : Builtins) (fuel : nat)
    (origin : Vec2.t float) :
  compute_visibility_polygon (H := float_PyFloat B) fuel [] origin
    infinity 1.5%float false = Raise ValueError.
Proof. destruct fuel; vm_compute; reflexivity. Qed.

(** C9 (as amended).  On binary64, with an [atan2] that returns no infinity,
    [compute_visibility_polygon] returns in 360-degree mode for every
    input, and in FOV mode it raises nothing when none of its 33 samples is
    an infinity.  In exact arithmetic it returns in either mode.  With no
    wall what it returns is the empty point sequence and the empty hit set,
    and every point it returns is the hit point of a ray: a miss adds none. *)
Theorem C9_compute_no_error :
  (forall B : Builtins, atan2_bounded B ->
   forall (fuel : nat) (walls : list (Wall.t float)) (origin : Vec2.t float)
          (facing fov : float),
     (exists r, compute_visibility_polygon (H := float_PyFloat B)
                  fuel walls origin facing fov true = Ok r)
     /\ (Forall (fun a => PrimFloat.is_infinity a = false)
           (sample_angles (H := float_PyFloat B) facing fov false) ->
         no_raise (compute_visibility_polygon (H := float_PyFloat B)
                     fuel walls origin facing fov false)))
  /\ (forall (walls : list (Wall.t R)) (origin : Vec2.t R) (facing fov : R)
             (full : bool),
        exists N : nat, forall fuel : nat, (N <= fuel)%nat ->
          exists r, compute_visibility_polygon fuel walls origin facing fov full
                    = Ok r)
  /\ (forall (F : Type) (PF : PyFloat F) (fuel : nat) (walls : list (Wall.t F))
             (origin : Vec2.t F) (facing fov : F) (full : bool)
             (poly : list (Vec2.t F)) (hits : gset nat),
        compute_visibility_polygon fuel walls origin facing fov full
        = Ok (poly, hits) ->
        (walls = [] -> poly = [] /\ hits = ∅)
        /\ Forall (fun p => exists (a : F) (w : option nat),
                     cast_ray walls origin a default_max_dist = Ok (Some p, w))
             poly).
Proof.
split; [|split].
- intros B HB fuel walls origin facing fov.
  pose proof (float_ArithLaws B) as HA. pose proof (float_TrigLaws B HB) as HT.
  split.
  + rewrite compute_of_points.
    destruct (visibility_points_360_returns (H := float_PyFloat B)
                fuel walls origin facing fov) as [r Hr].
    rewrite Hr. simpl. eauto.
  + intros Hsamples. rewrite compute_of_points.
    apply no_raise_bind.
    * apply (visibility_points_fov_no_raise (H := float_PyFloat B)). exact Hsamples.
    * intros r _. apply no_raise_Ok.
- intros walls origin facing fov full.
  destruct (visibility_points_real_returns walls origin facing fov full) as [N HN].
  exists N. intros fuel Hfuel. destruct (HN fuel Hfuel) as [r Hr].
  rewrite compute_of_points, Hr. simpl. eauto.
- intros F PF fuel walls origin facing fov full poly hits Hc. split.
  + intros ->. apply compute_no_walls in Hc. injection Hc as -> ->. auto.
  + eapply compute_points_are_hits. exact Hc.
Qed.

(** C9, witness: the stand-in library's [atan2] returns no infinity; no wall,
    360-degree mode. *)
Lemma C9_compute_no_error_witness :
  exists r, compute_visibility_polygon (H := float_PyFloat coarse_builtins)
              0 [] (Vec2.make 0 0)%float 0%float 1.5%float true = Ok r.
Proof.
destruct C9_compute_no_error as [Hfloat _].
destruct (Hfloat coarse_builtins coarse_atan2_bounded 0%nat []
            (Vec2.make 0 0)%float 0%float 1.5%float) as [H360 _].
exact H360.
Defined.

(** C9, as stated, fails on binary64: with no wall, in FOV mode, the facing
    angle [inf] makes the first sample [inf] and [math.sin(inf)] raises
    ValueError. *)
Lemma C9_counterexample_infinite_facing :
  compute_visibility_polygon (H := float_PyFloat coarse_builtins) 10 []
    (Vec2.make 0 0)%float infinity 1.5%float false = Raise ValueError.
Proof. apply compute_raises_at_infinite_facing. Qed.
End ComputeTotality.

(** ** The insertion sort sorts *)

Section InsertionSortSorted.
Context {A K : Type} (lt le : K -> K -> bool) (ok : K -> Prop) (key : A -> K).
Hypothesis not_lt_le :
  forall a b : K, ok a -> ok b -> lt a b = false -> le b a = true.
Hypothesis lt_le : forall a b : K, lt a b = true -> le a b = true.
Hypothesis le_trans :
  forall a b c : K, le a b = true -> le b c = true -> le a c = true.

Lemma StronglySorted_impl {B : Type} (P Q : B -> B -> Prop) (l : list B) :
  (forall a b, P a b -> Q a b) -> StronglySorted P l -> StronglySorted Q l.
Proof.
intros HPQ. induction 1 as [|x l Hs IH Hx]; constructor; [exact IH|].
eapply Forall_impl; [exact Hx|]. intros y. apply HPQ.
Qed.

Lemma StronglySorted_snoc {B : Type} (P : B -> B -> Prop) (l : list B) (x : B) :
  StronglySorted P l -> Forall (fun y => P y x) l -> StronglySorted P (l ++ [x]).
Proof.
induction 1 as [|y l Hs IH Hy]; intros Hx; simpl.
- repeat constructor.
- apply Forall_cons in Hx. destruct Hx as [Hyx Hx].
  constructor; [apply IH; exact Hx|].
  apply Forall_app. split; [exact Hy|]. constructor; [exact Hyx|constructor].
Qed.

Lemma StronglySorted_rev {B : Type} (P : B -> B -> Prop) (l : list B) :
  StronglySorted (fun x y => P y x) l -> StronglySorted P (rev l).
Proof.
induction 1 as [|x l Hs IH Hx]; simpl; [constructor|].
apply StronglySorted_snoc; [exact IH|].
apply Forall_forall. intros y Hy. apply list_elem_of_In, in_rev in Hy.
exact (proj1 (Forall_forall _ _) Hx y (proj2 (list_elem_of_In _ _) Hy)).
Qed.

(** The elements placed, the last first, go down. *)
Local Abbreviation placed_down :=
  (StronglySorted (fun x y => le (key y) (key x) = true)) (only parsing).

Lemma sort_insert_down (e : A) (placed : list A) :
  ok (key e) -> Forall (fun x => ok (key x)) placed ->
  placed_down placed -> placed_down (sort_insert lt key e placed).
Proof.
intros He. induction placed as [|e' placed IH]; intros Hok Hs; simpl.
- repeat constructor.
- apply Forall_cons in Hok. destruct Hok as [He' Hok].
  apply StronglySorted_inv in Hs. destruct Hs as [Hs Hbelow].
  destruct (lt (key e) (key e')) eqn:Hc.
  + constructor; [apply IH; assumption|].
    rewrite sort_insert_perm. constructor; [apply lt_le; exact Hc|exact Hbelow].
  + pose proof (not_lt_le _ _ He He' Hc) as Hle.
    constructor; [constructor; assumption|].
    constructor; [exact Hle|].
    eapply Forall_impl; [exact Hbelow|]. intros y Hy. cbn in Hy.
    eapply le_trans; eassumption.
Qed.

Lemma sort_place_down (l : list A) :
  forall placed : list A,
    Forall (fun x => ok (key x)) l -> Forall (fun x => ok (key x)) placed ->
    placed_down placed -> placed_down (sort_place lt key l placed).
Proof.
unfold sort_place. induction l as [|e l IH]; intros placed Hl Hp Hs; simpl; [exact Hs|].
apply Forall_cons in Hl. destruct Hl as [He Hl].
apply IH; [exact Hl| |apply sort_insert_down; assumption].
rewrite sort_insert_perm. constructor; assumption.
Qed.

Lemma insertion_sort_sorted (l : list A) :
  Forall (fun x => ok (key x)) l ->
  StronglySorted (fun x y => le (key x) (key y) = true) (insertion_sort lt key l).
Proof.
intros Hl. unfold insertion_sort. apply StronglySorted_rev.
apply sort_place_down; [exact Hl|constructor|constructor].
Qed.
End InsertionSortSorted.

(** ** The order of the returned points, in exact arithmetic *)

Section RealOrder.
Import VisibilityEngine.
Local Open Scope R_scope.

Lemma sublist_Forall {A} (P : A -> Prop) (l1 l2 : list A) :
  l1 `sublist_of` l2 -> Forall P l2 -> Forall P l1.
Proof.
induction 1 as [|x l1 l2 _ IH|x l1 l2 _ IH]; intros Hall.
- constructor.
- apply Forall_cons in Hall. destruct Hall as [Hx Hall].
  constructor; [exact Hx|apply IH; exact Hall].
- apply Forall_cons in Hall. destruct Hall as [_ Hall]. apply IH. exact Hall.
Qed.


Lemma py_sort_by_sorted {A} (key : A -> R) (l : list A) :
  StronglySorted (fun a b => key a <= key b) (py_sort_by key l).
Proof.
eapply StronglySorted_impl;
  [|apply (insertion_sort_sorted Rltb Rleb (fun _ => True) key)].
- intros a b Hab. apply Rleb_true. exact Hab.
- intros a b _ _ Hab. apply Rltb_false in Hab. apply Rleb_true. exact Hab.
- intros a b Hab. apply Rltb_true in Hab. apply Rleb_true. lra.
- intros a b c Hab Hbc. apply Rleb_true in Hab, Hbc. apply Rleb_true. lra.
- apply Forall_forall. auto.
Qed.



Global Instance R_SortLaws : SortLaws R.
Proof.
split; intros A key l.
- intros _. eapply StronglySorted_impl; [|apply (py_sort_by_sorted key l)].
  intros a b Hab. apply Rleb_true. exact Hab.
- apply insertion_sort_run.
Qed.
End RealOrder.



(** ** The order of the returned points, in every arithmetic *)

Section KeyOrder.
Context {F : Type} `{PyFloat F} `{!SortLaws F}.
Import VisibilityEngine.
Local Open Scope py_scope.




(** In 360-degree mode, when the angles kept are one run, both sorts leave
    them as they are and the rays are cast in the order of the candidates. *)
Lemma one_run_cast_in_place (fuel : nat) (walls : list (Wall.t F)) (origin : Vec2.t F)
    (facing fov : F) (unique : list F) :
  unique_loop fuel facing fov true
    (endpoint_angles walls origin ++ sample_angles facing fov true) [] []
  = Ok unique ->
  one_run flt (fun a => a) unique = true ->
  visibility_points fuel walls origin facing fov true
  = cast_loop walls origin unique [] ∅.
Proof.
intros Hu Hrun. unfold visibility_points, ordered_angles, py_sort.
rewrite Hu. cbn [mbind Res_bind].
rewrite !(sort_keeps_run F (fun a => a) unique Hrun).
destruct (cast_loop walls origin unique [] ∅); reflexivity.
Qed.
End KeyOrder.

(** ** The order of the returned points *)

Section PointOrder.
Import VisibilityEngine.
Local Open Scope R_scope.

(** The wall (1, -1)-(1, 1), a wall whose end points are NaN, and a wall
    behind an observer who looks towards [-x]. *)
Definition east_wall : Wall.t float :=
  Wall.init (H := float_PyFloat fine_builtins)
    (Vec2.make 1 (-1))%float (Vec2.make 1 1)%float false None 0%float None.

Definition nan_wall : Wall.t float :=
  Wall.init (H := float_PyFloat fine_builtins)
    (Vec2.make nan nan) (Vec2.make nan nan) false None 0%float None.




(** C4, as stated, fails on binary64 when an end point is a NaN.  An
    observer at (0, 0) in 360-degree mode, the walls (1, -1)-(1, 1) and
    (nan, nan)-(nan, nan).  The angles kept are those about the end points
    of the first wall, six NaN, then the samples from [-pi] upwards: none is
    less than the one before it, so the list is one run, which [list.sort]
    leaves as it is.  The rays are cast in that order, and the point at
    [pi / 4] is returned before the point at [-0.687]. *)
Lemma C4_counterexample_nan_end_point :
  exists (unique : list float) (pts : list (float * Vec2.t float)) (hits : gset nat),
    unique_loop (H := float_PyFloat fine_builtins) 0 0%float 0%float true
      (endpoint_angles (H := float_PyFloat fine_builtins)
         [east_wall; nan_wall] (Vec2.make 0 0)%float
       ++ sample_angles (H := float_PyFloat fine_builtins) 0%float 0%float true)
      [] [] = Ok unique
    /\ one_run PrimFloat.ltb (fun a => a) unique = true
    /\ visibility_points (H := float_PyFloat fine_builtins) 0
         [east_wall; nan_wall] (Vec2.make 0 0)%float 0%float 0%float true
       = Ok (pts, hits)
    /\ pts !! 3%nat
       = Some (0.78539816339744828, Vec2.make 1 0.99999999999999978)%float
    /\ pts !! 4%nat
       = Some (-0.68722339297276702,
               Vec2.make 0.99999999999999989 (-0.8206787908286598))%float
    /\ PrimFloat.ltb (-0.68722339297276702) 0.78539816339744828 = true.
Proof.
eexists. eexists. eexists.
split; [vm_compute; reflexivity|].
split; [vm_compute; reflexivity|].
split; [vm_compute; reflexivity|].
split; [vm_compute; reflexivity|].
split; vm_compute; reflexivity.
Qed.

(** The same points in the same order come from every [list.sort] that
    leaves a run as it is. *)
Lemma nan_end_point_any_sort (B : Builtins) :
  c_cos B = series_cos -> c_sin B = series_sin ->
  c_atan2 B = fine_atan2 -> py_round4 B = fine_round4 ->
  @SortLaws float (float_PyFloat B) ->
  visibility_points (H := float_PyFloat B) 0
    [east_wall; nan_wall] (Vec2.make 0 0)%float 0%float 0%float true
  = visibility_points (H := float_PyFloat fine_builtins) 0
      [east_wall; nan_wall] (Vec2.make 0 0)%float 0%float 0%float true.
Proof.
destruct B as [c s a r srt]. cbn [c_cos c_sin c_atan2 py_round4].
intros -> -> -> -> HL.
set (B' := {| c_cos := series_cos; c_sin := series_sin; c_atan2 := fine_atan2;
              py_round4 := fine_round4; py_list_sort := srt |}) in *.
eassert (Hu : unique_loop (H := float_PyFloat B') 0 0%float 0%float true
                (endpoint_angles (H := float_PyFloat B')
                   [east_wall; nan_wall] (Vec2.make 0 0)%float
                 ++ sample_angles (H := float_PyFloat B') 0%float 0%float true)
                [] [] = Ok _) by (vm_compute; reflexivity).
rewrite (one_run_cast_in_place (H := float_PyFloat B') (SortLaws0 := HL)
           _ _ _ _ _ _ Hu) by (vm_compute; reflexivity).
vm_compute. reflexivity.
Qed.
End PointOrder.

(** ** FOV containment, in exact arithmetic *)

Section StagesForward.
Context {F : Type} `{PyFloat F}.
Import VisibilityEngine.

Lemma ordered_angles_perm (fuel : nat) (facing : F) (full : bool)
    (unique ordered : list F) :
  ordered_angles fuel facing full unique = Ok ordered -> ordered ≡ₚ unique.
Proof.
unfold ordered_angles. destruct full; intros Ho.
- injection Ho as <-. apply py_sort_by_perm.
- inv_bind Ho. injection Ho as <-.
  assert (Hsnd : map snd r = unique).
  { revert r Hm. induction unique as [|a unique IH]; intros r Hm;
      simpl in Hm.
    - injection Hm as <-. reflexivity.
    - inv_bind Hm. inv_bind Hm. injection Hm as <-. simpl. f_equal.
      apply IH. exact Hm1. }
  rewrite py_sort_by_perm. rewrite Hsnd. reflexivity.
Qed.

End StagesForward.

Section FovPoints.
Context {F : Type} `{PyFloat F} `{!ArithLaws F}.
Import VisibilityEngine.
Local Open Scope py_scope.

End FovPoints.


Section RealContainment.
Import VisibilityEngine.
Local Open Scope R_scope.

(** [atan2] gives back the angle of a point at a positive distance. *)
Lemma Ratan2_polar (a t : R) :
  - PI < a <= PI -> 0 < t -> Ratan2 (sin a * t) (cos a * t) = a.
Proof.
intros [Hlo Hhi] Ht. pose proof PI_RGT_0 as Hpi. unfold Ratan2.
assert (Hquot : forall b : R, 0 < cos b ->
          (- sin b * t) / (- cos b * t) = tan b /\ (sin b * t) / (cos b * t) = tan b).
{ intros b Hb. unfold tan. split; field; lra. }
destruct (Rtotal_order a (- (PI / 2))) as [Ha | [Ha | Ha]].
- (* third quadrant *)
  assert (Hb : 0 < cos (a + PI)) by (apply cos_gt_0; lra).
  assert (Hs : sin a < 0) by (apply sin_lt_0_var; lra).
  rewrite neg_cos in Hb.
  destruct (Rlt_dec 0 (cos a * t)) as [Hx|_]; [nra|].
  destruct (Rlt_dec (cos a * t) 0) as [_|Hx]; [|nra].
  destruct (Rle_dec 0 (sin a * t)) as [Hy|_]; [nra|].
  replace (sin a * t / (cos a * t))
    with (- sin (a + PI) * t / (- cos (a + PI) * t))
    by (rewrite neg_sin, neg_cos; f_equal; ring).
  rewrite (proj1 (Hquot (a + PI) ltac:(rewrite neg_cos; lra))).
  rewrite atan_tan by lra. lra.
- subst a. rewrite cos_neg, sin_neg, cos_PI2, sin_PI2.
  destruct (Rlt_dec 0 (0 * t)) as [Hx|_]; [lra|].
  destruct (Rlt_dec (0 * t) 0) as [Hx|_]; [lra|].
  destruct (Rlt_dec 0 (- (1) * t)) as [Hy|_]; [lra|].
  destruct (Rlt_dec (- (1) * t) 0) as [_|Hy]; [reflexivity|lra].
- destruct (Rtotal_order a (PI / 2)) as [Ha' | [Ha' | Ha']].
  + (* the right half plane *)
    assert (Hc : 0 < cos a) by (apply cos_gt_0; lra).
    destruct (Rlt_dec 0 (cos a * t)) as [_|Hx]; [|nra].
    rewrite (proj2 (Hquot a Hc)). apply atan_tan. lra.
  + subst a. rewrite cos_PI2, sin_PI2.
    destruct (Rlt_dec 0 (0 * t)) as [Hx|_]; [lra|].
    destruct (Rlt_dec (0 * t) 0) as [Hx|_]; [lra|].
    destruct (Rlt_dec 0 (1 * t)) as [_|Hy]; [reflexivity|lra].
  + (* second quadrant *)
    assert (Hb : 0 < cos (a - PI)) by (apply cos_gt_0; lra).
    assert (Hs : 0 <= sin a) by (apply sin_ge_0; lra).
    assert (Hca : cos a = - cos (a - PI)).
    { replace a with (a - PI + PI) at 1 by ring. apply neg_cos. }
    assert (Hsa : sin a = - sin (a - PI)).
    { replace a with (a - PI + PI) at 1 by ring. apply neg_sin. }
    destruct (Rlt_dec 0 (cos a * t)) as [Hx|_]; [nra|].
    destruct (Rlt_dec (cos a * t) 0) as [_|Hx]; [|nra].
    destruct (Rle_dec 0 (sin a * t)) as [_|Hy]; [|nra].
    rewrite Hca, Hsa. rewrite (proj1 (Hquot (a - PI) Hb)).
    rewrite atan_tan by lra. lra.
Qed.



End RealContainment.

Section ObserverOnWall.
Import VisibilityEngine.
Local Open Scope R_scope.


Lemma Ratan2_normal (a : R) : - PI < a <= PI -> Ratan2 (sin a) (cos a) = a.
Proof.
intros Ha. rewrite <- (Rmult_1_r (sin a)), <- (Rmult_1_r (cos a)).
apply Ratan2_polar; [exact Ha|lra].
Qed.







End ObserverOnWall.

(** ** The theorems at concrete walls, on binary64 *)

Section FloatInstances.
Import VisibilityEngine.
Local Open Scope float_scope.

(** C2, witness: one wall, (5, -1)-(5, 1), seen from (0, 0) at angle 0 with
    the default range.  The direction is (1, 0), the test of the
    specification gives (t, u) = (5, 0.5), and [cast_ray] returns the point
    (5, 0) with the wall at place 0. *)
Lemma C2_cast_ray_closest_hit_witness :
  let wall :=
    Wall.init (H := float_PyFloat coarse_builtins)
      (Vec2.make 5 (-1)) (Vec2.make 5 1) false None 0 None in
  unit_direction (H := float_PyFloat coarse_builtins) 0 = Vec2.make 1 0
  /\ meets (H := float_PyFloat coarse_builtins)
       (Vec2.make 0 0) (Vec2.make 1 0) 1000 wall 5 0.5
  /\ cast_ray (H := float_PyFloat coarse_builtins) [wall] (Vec2.make 0 0) 0 1000
     = Ok (Some (Vec2.make 5 0), Some 0%nat)
  /\ forall (j : nat) (wall' : Wall.t float) (t' u' : float),
       [wall] !! j = Some wall' ->
       meets (H := float_PyFloat coarse_builtins)
         (Vec2.make 0 0) (Vec2.make 1 0) 1000 wall' t' u' ->
       PrimFloat.ltb t' 5 = false.
Proof.
intros wall.
assert (Hc : cast_ray (H := float_PyFloat coarse_builtins) [wall]
               (Vec2.make 0 0) 0 1000
             = Ok (Some (Vec2.make 5 0), Some 0%nat)) by (vm_compute; reflexivity).
split; [vm_compute; reflexivity|].
split; [repeat split; vm_compute; reflexivity|].
split; [exact Hc|].
destruct (C2_cast_ray_closest_hit (H := float_PyFloat coarse_builtins)
            (ArithLaws0 := float_ArithLaws coarse_builtins)
            [wall] (Vec2.make 0 0) 0 1000 eq_refl)
  as [(i & w & t & u & Hi & Hm & Hr & Hmin) | [Hr _]];
  rewrite Hc in Hr; [|discriminate].
assert (Hi0 : i = 0%nat) by congruence. subst i. injection Hi as <-.
destruct Hm as [Hs _].
assert (Hs5 : spec_intersection (H := float_PyFloat coarse_builtins)
                (Vec2.make 0 0)
                (unit_direction (H := float_PyFloat coarse_builtins) 0)
                (Segment.p1 (Wall.segment wall)) (Segment.p2 (Wall.segment wall))
              = Some (5, 0.5)) by (vm_compute; reflexivity).
rewrite Hs5 in Hs. injection Hs as <- <-.
exact Hmin.
Defined.

(** C5, witness: a static wall, the rotating wall and the sliding wall of
    the default scene. *)
Lemma C5_update_contract_witness :
  Wall.update (H := float_PyFloat coarse_builtins)
    (Wall.init (H := float_PyFloat coarse_builtins)
       (Vec2.make 200 150) (Vec2.make 600 150) false None 0 None) 0.015625
  = Ok (Wall.init (H := float_PyFloat coarse_builtins)
          (Vec2.make 200 150) (Vec2.make 600 150) false None 0 None)
  /\ (exists w' : Wall.t float,
        Wall.update (H := float_PyFloat coarse_builtins)
          (Wall.init (H := float_PyFloat coarse_builtins)
             (Vec2.make 350 300) (Vec2.make 450 300) true
             (Some (Vec2.make 400 300)) 0.5 None) 0.015625 = Ok w'
        /\ Wall.angle w' = 0.0078125)
  /\ (exists w' : Wall.t float,
        Wall.update (H := float_PyFloat coarse_builtins)
          (Wall.init (H := float_PyFloat coarse_builtins)
             (Vec2.make 300 250) (Vec2.make 350 250) true None 0
             (Some (Vec2.make 50 0))) 0.5 = Ok w'
        /\ Wall.segment w' = Segment.make (Vec2.make 325 250) (Vec2.make 375 250)).
Proof.
split; [|split].
- apply (C5_update_contract (H := float_PyFloat coarse_builtins)). reflexivity.
- eexists. split.
  + apply (proj1 (proj2 (C5_update_contract (H := float_PyFloat coarse_builtins)
                           _ 0.015625)) (Vec2.make 400 300));
      reflexivity.
  + reflexivity.
- eexists. split.
  + apply (proj2 (proj2 (C5_update_contract (H := float_PyFloat coarse_builtins)
                           _ 0.5))); reflexivity.
  + reflexivity.
Defined.
End FloatInstances.

(** ** Further properties *)

Section Further.
Import VisibilityEngine.

(** A full turn on binary64: with [cos(2 * pi) = 1.0] and
    [sin(2 * pi) = -2.4492935982947064e-16], the values a correctly rounded
    C library returns, the wall (350, 300)-(450, 300) turning about (0, 0) at
    angular speed [pi] is, after [update(2)], within [1e-12] of where it
    started. *)
Lemma full_turn_binary64 (B : Builtins) :
  c_cos B (float_pi * 2)%float = 1%float ->
  c_sin B (float_pi * 2)%float = (-0x1.1a62633145c07p-52)%float ->
  Wall.update (H := float_PyFloat B)
    (Wall.init (H := float_PyFloat B) (Vec2.make 350 300)%float
       (Vec2.make 450 300)%float true (Some (Vec2.make 0 0)%float) float_pi None)
    2%float
  = Ok (Wall.make (Vec2.make 350 300)%float (Vec2.make 450 300)%float
          (Segment.make
             (Vec2.make 350.00000000000006 299.99999999999989)%float
             (Vec2.make 450.00000000000006 299.99999999999989)%float)
          true (Some (Vec2.make 0 0)%float) float_pi (Vec2.make 0 0)%float
          (float_pi * 2)%float).
Proof.
intros Hcos Hsin.
etransitivity.
{ exact (update_rotating (H := float_PyFloat B)
           (Wall.init (H := float_PyFloat B) (Vec2.make 350 300)%float
              (Vec2.make 450 300)%float true (Some (Vec2.make 0 0)%float)
              float_pi None)
           2%float (Vec2.make 0 0)%float eq_refl eq_refl eq_refl eq_refl). }
cbn [libm_cos libm_sin float_PyFloat Wall.init Wall.angle Wall.angular_speed].
assert (Ht : @fadd float (float_PyFloat B) (@of_int float (float_PyFloat B) 0)
               (@fmul float (float_PyFloat B) float_pi 2%float)
             = (float_pi * 2)%float) by reflexivity.
rewrite Ht, Hcos, Hsin. vm_compute. reflexivity.
Qed.

(** Hit-set soundness, in exact arithmetic: every wall in the hit set is
    the wall struck by a ray whose hit point is among the points returned. *)
Theorem hit_set_sound (walls : list (Wall.t R)) (origin : Vec2.t R)
    (facing fov : R) (full : bool) :
  exists N : nat, forall fuel : nat, (N <= fuel)%nat ->
    exists (poly : list (Vec2.t R)) (hits : gset nat),
      compute_visibility_polygon fuel walls origin facing fov full = Ok (poly, hits)
      /\ forall i : nat, i ∈ hits ->
           exists (a : R) (p : Vec2.t R),
             p ∈ poly
             /\ cast_ray walls origin a default_max_dist = Ok (Some p, Some i).
Proof.
destruct (visibility_points_real_returns walls origin facing fov full) as [N HN].
exists N. intros fuel Hfuel. destruct (HN fuel Hfuel) as [[pts hits] Hv].
exists (map snd pts), hits.
split; [rewrite compute_of_points, Hv; reflexivity|].
destruct (visibility_points_inv _ _ _ _ _ _ _ Hv) as [unique [ordered [_ [_ Hc]]]].
destruct (cast_loop_from_empty _ _ _ _ _ Hc) as [_ [_ Hhits]].
intros i Hi. destruct (Hhits i Hi) as [[a p] [Hin Hcast]].
exists a, p. split; [|exact Hcast].
apply list_elem_of_fmap. exists (a, p). auto.
Qed.

(** On binary64 the guard [abs(denom) < 1e-6] keeps both divisions of
    [ray_segment_intersection] from raising, whatever the points. *)
Theorem intersection_never_raises (B : Builtins)
    (origin direction a b : Vec2.t float) :
  exists res : option (float * float),
    ray_segment_intersection (H := float_PyFloat B) origin direction a b = Ok res.
Proof.
apply (intersection_returns (H := float_PyFloat B)
         (ArithLaws0 := float_ArithLaws B)).
Qed.

(** On binary64 [angle_diff(0.0, 1e300)] does not return: adding [2 * pi]
    to [-1e300] gives [-1e300] again, so the first loop uses up whatever
    budget it is given. *)
Theorem angle_diff_diverges_at_1e300 (B : Builtins) (fuel : nat) :
  angle_diff (H := float_PyFloat B) fuel 0%float 1e300%float = OutOfFuel.
Proof. apply angle_diff_stuck_at_1e300. Qed.

(** In FOV mode, in every arithmetic, the angle of every pair the function
    collects passed the test of line 170: [abs(diff) > fov_angle / 2.0] was
    false for its [diff = angle_diff(angle, facing_angle)]. *)
Theorem returned_angles_passed_fov_test {F : Type} `{PyFloat F} (fuel : nat)
    (walls : list (Wall.t F)) (origin : Vec2.t F) (facing fov : F)
    (pts : list (F * Vec2.t F)) (hits : gset nat) :
  visibility_points fuel walls origin facing fov false = Ok (pts, hits) ->
  Forall (fun ap => exists d : F,
            angle_diff fuel ap.1 facing = Ok d
            /\ (fov / of_int 2 <? fabs d)%py = false) pts.
Proof.
intros Hv.
destruct (visibility_points_inv _ _ _ _ _ _ _ Hv) as [unique [ordered [Hu [Ho Hc]]]].
apply ordered_angles_perm in Ho. apply unique_loop_from_empty in Hu.
destruct (cast_loop_from_empty _ _ _ _ _ Hc) as [Hsub _].
assert (Hord : Forall (kept fuel facing fov false
                         (endpoint_angles walls origin ++ sample_angles facing fov false))
                 ordered).
{ rewrite Ho. unfold py_sort. rewrite py_sort_by_perm. exact Hu. }
apply Forall_forall. intros [a p] Hin. cbn [fst].
assert (Ha : kept fuel facing fov false
               (endpoint_angles walls origin ++ sample_angles facing fov false) a).
{ apply (proj1 (Forall_forall _ _) (sublist_Forall _ _ _ Hsub Hord)).
  apply list_elem_of_fmap. exists (a, p). auto. }
destruct Ha as [a0 [_ [_ [_ Hfov]]]]. exact (Hfov eq_refl).
Qed.

(** The same at one wall, (5, -1)-(5, 1), seen on binary64 from (0, 0)
    facing it with a FOV of 1.5 radians. *)
Lemma returned_angles_passed_fov_test_witness :
  exists (pts : list (float * Vec2.t float)) (hits : gset nat),
    visibility_points (H := float_PyFloat coarse_builtins) 4
      [Wall.init (H := float_PyFloat coarse_builtins)
         (Vec2.make 5 (-1))%float (Vec2.make 5 1)%float false None 0%float None]
      (Vec2.make 0 0)%float 0%float 1.5%float false = Ok (pts, hits)
    /\ pts <> []
    /\ Forall (fun ap => exists d : float,
                 angle_diff (H := float_PyFloat coarse_builtins) 4 ap.1 0%float = Ok d
                 /\ PrimFloat.ltb (1.5 / 2) (PrimFloat.abs d) = false) pts.
Proof.
eexists. eexists. split; [vm_compute; reflexivity|].
split; [discriminate|].
eapply (returned_angles_passed_fov_test (H := float_PyFloat coarse_builtins) 4
          [Wall.init (H := float_PyFloat coarse_builtins)
             (Vec2.make 5 (-1))%float (Vec2.make 5 1)%float false None 0%float None]
          (Vec2.make 0 0)%float 0%float 1.5%float).
vm_compute. reflexivity.
Defined.
End Further.

(** ** Vec2: length, normalized, from_angle *)

Section VectorLength.
Local Open Scope R_scope.

(** [normalized] raises in no arithmetic: the test [l == 0] of line 37 is
    the very condition under which the divisions of line 39 would raise
    ZeroDivisionError; and a vector of length 0 gives [Vec2(0, 0)]. *)
Theorem normalized_never_raises {F : Type} `{PyFloat F} `{PyHypot F}
    (v : Vec2.t F) :
  exists n : Vec2.t F,
    Vec2.normalized v = Ok n
    /\ ((Vec2.length v =? of_int 0)%py = true -> n = Vec2.init 0 0)
    /\ ((Vec2.length v =? of_int 0)%py = false ->
        n = Vec2.make (Vec2.x v / Vec2.length v)%py (Vec2.y v / Vec2.length v)%py).
Proof.
unfold Vec2.normalized, py_div.
destruct (Vec2.length v =? of_int 0)%py eqn:Hl.
- eexists. split; [reflexivity|]. split; [reflexivity|discriminate].
- eexists. split; [reflexivity|]. split; [discriminate|reflexivity].
Qed.

Lemma hypot_sq (x y : R) : R_sqrt.sqrt (x * x + y * y) * R_sqrt.sqrt (x * x + y * y) = x * x + y * y.
Proof. apply sqrt_sqrt. nra. Qed.

Lemma hypot_zero (x y : R) : R_sqrt.sqrt (x * x + y * y) = 0 -> x = 0 /\ y = 0.
Proof.
intros Hs. apply sqrt_eq_0 in Hs; [|nra]. split; nra.
Qed.

Lemma hypot_unit (x y : R) : x * x + y * y = 1 -> R_sqrt.sqrt (x * x + y * y) = 1.
Proof. intros ->. apply sqrt_1. Qed.

Lemma normalized_real (v : Vec2.t R) :
  exists n : Vec2.t R,
    Vec2.normalized v = Ok n
    /\ Vec2.mul n (Vec2.length v) = v
    /\ (v = Vec2.make 0 0 /\ n = Vec2.make 0 0 \/ Vec2.length n = 1).
Proof.
destruct v as [x y].
unfold Vec2.normalized, Vec2.length, Vec2.mul, py_div. cbn.
pose proof (hypot_sq x y) as Hsq.
destruct (Reqb (R_sqrt.sqrt (x * x + y * y)) 0) eqn:Hl.
- apply Reqb_true in Hl. destruct (hypot_zero x y Hl) as [-> ->].
  eexists. split; [reflexivity|]. cbn. split; [f_equal; lra|left; auto].
- apply Reqb_false in Hl.
  eexists. split; [reflexivity|]. cbn. split.
  + f_equal; field; exact Hl.
  + right. apply hypot_unit.
    set (l := R_sqrt.sqrt (x * x + y * y)) in *.
    replace (x / l * (x / l) + y / l * (y / l)) with ((x * x + y * y) / (l * l))
      by (field; exact Hl).
    rewrite Hsq. field. nra.
Qed.

(** In exact arithmetic [normalized] returns the unit vector of the same
    direction: scaled by the length it gives the vector back, and unless the
    vector is the zero vector its own length is 1. *)
Theorem normalized_unit (v : Vec2.t R) :
  exists n : Vec2.t R,
    Vec2.normalized v = Ok n
    /\ Vec2.mul n (Vec2.length v) = v
    /\ (v = Vec2.make 0 0 /\ n = Vec2.make 0 0 \/ Vec2.length n = 1).
Proof. exact (normalized_real v). Qed.

(** In exact arithmetic [Vec2.from_angle] makes a vector of length 1 whose
    [angle()] is the angle it was made from, for an angle in (-PI, PI]. *)
Theorem from_angle_round_trip (theta : R) :
  - PI < theta <= PI ->
  exists d : Vec2.t R,
    Vec2.from_angle theta = Ok d
    /\ Vec2.angle d = theta
    /\ Vec2.length d = 1.
Proof.
intros Hth. exists (Vec2.make (cos theta) (sin theta)).
split; [reflexivity|]. split.
- unfold Vec2.angle. cbn. apply Ratan2_normal. exact Hth.
- unfold Vec2.length. cbn. apply hypot_unit.
  pose proof (sin2_cos2 theta) as Hsc. unfold Rsqr in Hsc. lra.
Qed.

Lemma from_angle_round_trip_witness :
  exists d : Vec2.t R,
    Vec2.from_angle 1 = Ok d /\ Vec2.angle d = 1 /\ Vec2.length d = 1.
Proof.
apply (from_angle_round_trip 1). pose proof PI2_1. lra.
Defined.
End VectorLength.

(** ** rotate_around as a rotation *)

Section Rotation.
Local Open Scope R_scope.

Lemma rotate_matrix_dist2 (p c : Vec2.t R) (a : R) :
  dist2 c (rotate_matrix p c (cos a) (sin a)) = dist2 c p.
Proof.
destruct p as [px py], c as [cx cy].
unfold dist2, rotate_matrix, Vec2.add, Vec2.sub. cbn.
pose proof (sin2_cos2 a) as Hsc. unfold Rsqr in Hsc.
transitivity (((px - cx) * (px - cx) + (py - cy) * (py - cy))
              * (sin a * sin a + cos a * cos a)); [ring|].
rewrite Hsc. ring.
Qed.

Lemma rotate_matrix_diff (p q c : Vec2.t R) (a : R) :
  dist2 (rotate_matrix p c (cos a) (sin a)) (rotate_matrix q c (cos a) (sin a))
  = dist2 p q.
Proof.
destruct p as [px py], q as [qx qy], c as [cx cy].
unfold dist2, rotate_matrix, Vec2.add, Vec2.sub. cbn.
pose proof (sin2_cos2 a) as Hsc. unfold Rsqr in Hsc.
transitivity (((qx - px) * (qx - px) + (qy - py) * (qy - py))
              * (sin a * sin a + cos a * cos a)); [ring|].
rewrite Hsc. ring.
Qed.

(** In exact arithmetic [rotate_around] is a rotation about the centre: by
    the angle 0 it moves nothing, a turn by [a] followed by a turn by [b] is
    the turn by [a + b], and the distance to the centre does not change. *)
Theorem rotate_around_composes (p c : Vec2.t R) (a b : R) :
  rotate_around p c 0 = Ok p
  /\ exists q r : Vec2.t R,
       rotate_around p c a = Ok q
       /\ rotate_around q c b = Ok r
       /\ rotate_around p c (a + b) = Ok r
       /\ dist2 c q = dist2 c p.
Proof.
split.
- rewrite rotate_around_matrix by reflexivity. cbn [libm_cos libm_sin R_PyFloat].
  rewrite cos_0, sin_0. destruct p as [px py], c as [cx cy].
  unfold rotate_matrix, Vec2.add, Vec2.sub. cbn. do 2 f_equal; ring.
- exists (rotate_matrix p c (cos a) (sin a)).
  exists (rotate_matrix (rotate_matrix p c (cos a) (sin a)) c (cos b) (sin b)).
  rewrite !rotate_around_matrix by reflexivity.
  cbn [libm_cos libm_sin R_PyFloat].
  split; [reflexivity|]. split; [reflexivity|]. split.
  + rewrite cos_plus, sin_plus. destruct p as [px py], c as [cx cy].
    unfold rotate_matrix, Vec2.add, Vec2.sub. cbn. do 2 f_equal; ring.
  + apply rotate_matrix_dist2.
Qed.
End Rotation.


(** ** Wall.update: what it keeps *)

Section WallFrame.
Context {F : Type} `{PyFloat F}.
Local Open Scope py_scope.

Lemma same_setup_refl (w : Wall.t F) : same_setup w w.
Proof. repeat split. Qed.

Lemma same_setup_trans (w1 w2 w3 : Wall.t F) :
  same_setup w1 w2 -> same_setup w2 w3 -> same_setup w1 w3.
Proof.
unfold same_setup. intros (?&?&?&?&?&?) (?&?&?&?&?&?).
repeat split; congruence.
Qed.

Lemma update_rotation_frame (w w' : Wall.t F) (dt : F) :
  Wall.update_rotation w dt = Ok w' -> same_setup w w'.
Proof.
unfold Wall.update_rotation. intros Hu.
destruct (Wall.rotation_center w) as [c|] eqn:Hc.
- destruct (negb (Wall.angular_speed w =? of_int 0)).
  + inv_bind Hu. inv_bind Hu. injection Hu as <-.
    repeat split; cbn; auto.
  + injection Hu as <-. apply same_setup_refl.
- injection Hu as <-. apply same_setup_refl.
Qed.

Lemma update_translation_frame (w : Wall.t F) (dt : F) :
  same_setup w (Wall.update_translation w dt).
Proof.
unfold Wall.update_translation.
destruct (negb _ || negb _); repeat split.
Qed.

Lemma wall_update_frame (w w' : Wall.t F) (dt : F) :
  Wall.update w dt = Ok w' ->
  same_setup w w' /\ (Wall.dynamic w = false -> w' = w).
Proof.
unfold Wall.update. intros Hu.
destruct (Wall.dynamic w) eqn:Hd; cbn in Hu.
- inv_bind Hu. injection Hu as <-. split; [|discriminate].
  eapply same_setup_trans; [eapply update_rotation_frame; eassumption|].
  apply update_translation_frame.
- injection Hu as <-. split; [apply same_setup_refl|auto].
Qed.
End WallFrame.

Section WallLength.
Local Open Scope R_scope.

Lemma dist2_translate (p q d : Vec2.t R) :
  dist2 (Vec2.add p d) (Vec2.add q d) = dist2 p q.
Proof.
destruct p, q, d. unfold dist2, Vec2.add. cbn. ring.
Qed.

(** [Wall.update] in exact arithmetic, where it always returns: the
    segment it leaves in each of its three cases. *)
Lemma wall_update_real (w : Wall.t R) (dt : R) :
  exists w' : Wall.t R,
    Wall.update w dt = Ok w'
    /\ same_setup w w'
    /\ (Wall.dynamic w = false -> w' = w)
    /\ (Wall.dynamic w = true -> rotation_active w = false ->
        let dp := Vec2.mul (Wall.velocity w) dt in
        Wall.segment w'
        = Segment.make (Vec2.add (Segment.p1 (Wall.segment w)) dp)
                       (Vec2.add (Segment.p2 (Wall.segment w)) dp))
    /\ (Wall.dynamic w = true -> rotation_active w = true ->
        exists pivot : Vec2.t R,
          Wall.rotation_center w = Some pivot
          /\ let theta := Wall.angle w + Wall.angular_speed w * dt in
             let dp := Vec2.mul (Wall.velocity w) dt in
             let rot p := rotate_matrix p pivot (cos theta) (sin theta) in
             Wall.segment w'
             = Segment.make (Vec2.add (rot (Wall.base_p1 w)) dp)
                            (Vec2.add (rot (Wall.base_p2 w)) dp)).
Proof.
destruct (Wall.dynamic w) eqn:Hd.
- destruct (rotation_active w) eqn:Hr.
  + unfold rotation_active in Hr.
    destruct (Wall.rotation_center w) as [pivot|] eqn:Hc; [|discriminate].
    apply negb_true_iff in Hr.
    pose proof (update_rotating w dt pivot Hd Hc Hr eq_refl) as Hu.
    cbn zeta in Hu. rewrite !translate_if_real in Hu.
    eexists. split; [exact Hu|].
    split; [repeat split; cbn; auto|].
    split; [discriminate|]. split; [discriminate|].
    intros _ _. exists pivot. split; reflexivity.
  + pose proof (update_not_rotating w dt Hd Hr) as Hu.
    cbn zeta in Hu. rewrite !translate_if_real in Hu.
    eexists. split; [exact Hu|].
    split; [repeat split; cbn; auto|].
    split; [discriminate|]. split; [|discriminate].
    intros _ _. reflexivity.
- exists w. split; [apply update_static; exact Hd|].
  split; [apply same_setup_refl|]. split; [auto|]. split; discriminate.
Qed.

Lemma update_keeps_rest_length (w : Wall.t R) (dt : R) :
  rest_length w ->
  exists w' : Wall.t R,
    Wall.update w dt = Ok w' /\ same_setup w w' /\ rest_length w'.
Proof.
intros Hlen.
destruct (wall_update_real w dt) as [w' (Hu & Hsame & Hstat & Htrans & Hrot)].
exists w'. split; [exact Hu|]. split; [exact Hsame|].
destruct Hsame as (Hb1 & Hb2 & _).
unfold rest_length, seg_len2 in *. rewrite Hb1, Hb2.
destruct (Wall.dynamic w) eqn:Hd.
- destruct (rotation_active w) eqn:Hr.
  + destruct (Hrot eq_refl eq_refl) as [pivot [_ Hseg]]. cbn zeta in Hseg.
    rewrite Hseg. cbn [Segment.p1 Segment.p2].
    rewrite dist2_translate. apply rotate_matrix_diff.
  + rewrite (Htrans eq_refl eq_refl). cbn [Segment.p1 Segment.p2].
    rewrite dist2_translate. exact Hlen.
- rewrite (Hstat eq_refl). exact Hlen.
Qed.

(** In exact arithmetic a wall never changes its length: after any number
    of calls of [update], whatever the frame times, the pivot, the angular
    speed and the velocity, the current segment is as long as the segment
    the wall was made with. *)
Theorem wall_keeps_length (p1 p2 : Vec2.t R) (dyn : bool)
    (center : option (Vec2.t R)) (speed : R) (vel : option (Vec2.t R))
    (dts : list R) :
  exists w : Wall.t R,
    wall_frames (Wall.init p1 p2 dyn center speed vel) dts = Ok w
    /\ seg_len2 (Wall.segment w) = dist2 p1 p2.
Proof.
assert (Hgen : forall (dts : list R) (w0 : Wall.t R),
          rest_length w0 ->
          exists w : Wall.t R,
            wall_frames w0 dts = Ok w
            /\ seg_len2 (Wall.segment w) = dist2 (Wall.base_p1 w0) (Wall.base_p2 w0)).
{ clear. induction dts as [|dt dts IH]; intros w0 H0.
  - exists w0. split; [reflexivity|exact H0].
  - destruct (update_keeps_rest_length w0 dt H0) as [w1 (Hu & Hsame & H1)].
    destruct (IH w1 H1) as [w (Hw & Hlen)].
    exists w. cbn [wall_frames]. rewrite Hu. cbn. split; [exact Hw|].
    destruct Hsame as (Hb1 & Hb2 & _). rewrite <- Hb1, <- Hb2. exact Hlen. }
destruct (Hgen dts (Wall.init p1 p2 dyn center speed vel)) as [w [Hw Hlen]].
- destruct p1, p2. reflexivity.
- exists w. split; [exact Hw|]. rewrite Hlen. destruct p1, p2. reflexivity.
Qed.
End WallLength.

(** ** Scene.update *)

Section SceneFrame.
Context {F : Type} `{PyFloat F} `{PyHypot F}.
Local Open Scope py_scope.

Lemma update_wall_static (w : Wall.t F) (dt : F) :
  Wall.dynamic w = false -> Scene.update_wall w dt = Ok w.
Proof.
intros Hd. unfold Scene.update_wall. rewrite update_static by exact Hd.
cbn. rewrite Hd. reflexivity.
Qed.

Lemma update_wall_frame (w w' : Wall.t F) (dt : F) :
  Scene.update_wall w dt = Ok w' ->
  Wall.base_p1 w' = Wall.base_p1 w /\ Wall.base_p2 w' = Wall.base_p2 w
  /\ Wall.dynamic w' = Wall.dynamic w
  /\ Wall.rotation_center w' = Wall.rotation_center w
  /\ Wall.angular_speed w' = Wall.angular_speed w
  /\ (Wall.dynamic w = false -> w' = w).
Proof.
unfold Scene.update_wall. intros Hu. inv_bind Hu.
destruct (wall_update_frame _ _ _ Hm) as [(Hb1 & Hb2 & Hd & Hc & Hs & Hv) Hstat].
destruct (Wall.dynamic r && _) eqn:Hb; injection Hu as <-.
- cbn. repeat split; auto.
  intros Hdw. rewrite Hd, Hdw in Hb. discriminate.
- repeat split; auto.
Qed.

Lemma set_own_velocity (w : Wall.t F) :
  Wall.set_velocity w (Wall.velocity w) = w.
Proof. destruct w; reflexivity. Qed.

Lemma scene_kept_refl (walls : Scene.t F) : scene_kept walls walls.
Proof.
split; [reflexivity|]. intros i name w Hi. exists w.
repeat split; auto.
Qed.

Lemma scene_kept_trans (a b c : Scene.t F) :
  scene_kept a b -> scene_kept b c -> scene_kept a c.
Proof.
intros [Hlab Hab] [Hlbc Hbc]. split; [congruence|].
intros i name w Hi.
destruct (Hab i name w Hi) as (w1 & Hi1 & Hb1 & Hb2 & Hd & Hc & Hs & Hstat).
destruct (Hbc i name w1 Hi1) as (w2 & Hi2 & Hb1' & Hb2' & Hd' & Hc' & Hs' & Hstat').
exists w2. split; [exact Hi2|].
repeat (split; [congruence|]).
intros Hdw. destruct (Hstat Hdw) as (Hseg & Hang & Hvel).
rewrite <- Hd in Hdw. destruct (Hstat' Hdw) as (Hseg' & Hang' & Hvel').
split; [congruence|]. split; [congruence|].
destruct Hvel as [Hvel | Hm]; [|right; exact Hm].
destruct Hvel' as [Hvel' | (j & wd & Hj & Hdd)]; [left; congruence|].
right.
assert (Hlt : (j < List.length a)%nat).
{ apply lookup_lt_Some in Hj. lia. }
apply lookup_lt_is_Some in Hlt. destruct Hlt as [[n0 w0] Hj0].
destruct (Hab j n0 w0 Hj0) as (w0' & Hj1 & _ & _ & Hd0 & _).
rewrite Hj in Hj1. injection Hj1 as -> ->.
exists j, w0. split; [exact Hj0|congruence].
Qed.

(** One turn of the loop of [update]. *)
Lemma update_step (walls : Scene.t F) (i name : nat) (w w' : Wall.t F) (dt : F) :
  coherent walls ->
  walls !! i = Some (name, w) ->
  Scene.update_wall w dt = Ok w' ->
  coherent (Scene.store_velocity name (Wall.velocity w') (<[i := (name, w')]> walls))
  /\ scene_kept walls
       (Scene.store_velocity name (Wall.velocity w') (<[i := (name, w')]> walls)).
Proof.
intros Hco Hi Hu.
set (v := Wall.velocity w').
set (walls1 := Scene.store_velocity name v (<[i := (name, w')]> walls)).
destruct (update_wall_frame _ _ _ Hu) as (Hb1 & Hb2 & Hd & Hc & Hs & Hstat).
assert (Hilt : (i < List.length walls)%nat) by (eapply lookup_lt_Some; eauto).
assert (Hlook : forall (k nk : nat) (wk : Wall.t F),
          walls !! k = Some (nk, wk) ->
          walls1 !! k
          = Some (if Nat.eqb k i then (name, w')
                  else if Nat.eqb nk name then (nk, Wall.set_velocity wk v)
                  else (nk, wk))).
{ intros k nk wk Hk. unfold walls1, Scene.store_velocity.
  etransitivity; [apply (list_lookup_fmap _ (<[i := (name, w')]> walls) k)|].
  destruct (Nat.eqb_spec k i) as [-> | Hne].
  - rewrite list_lookup_insert_eq by exact Hilt. cbn.
    rewrite Nat.eqb_refl. unfold v. rewrite set_own_velocity. reflexivity.
  - rewrite list_lookup_insert_ne by congruence. rewrite Hk. cbn. destruct (Nat.eqb nk name); reflexivity. }
assert (Hlen : List.length walls1 = List.length walls).
{ unfold walls1, Scene.store_velocity. rewrite length_map, length_insert.
  reflexivity. }
assert (Hback : forall (k nk : nat) (wk1 : Wall.t F),
          walls1 !! k = Some (nk, wk1) ->
          exists wk : Wall.t F,
            walls !! k = Some (nk, wk)
            /\ (nk = name -> Wall.velocity wk1 = v)
            /\ (nk <> name -> wk1 = wk)).
{ intros k nk wk1 Hk1.
  assert (Hklt : (k < List.length walls)%nat).
  { apply lookup_lt_Some in Hk1. lia. }
  apply lookup_lt_is_Some in Hklt. destruct Hklt as [[n0 w0] Hk0].
  rewrite (Hlook _ _ _ Hk0) in Hk1.
  destruct (Nat.eqb_spec k i) as [-> | Hne].
  - injection Hk1 as <- <-.
    exists w. split; [exact Hi|]. split; [reflexivity|congruence].
  - destruct (Nat.eqb_spec n0 name) as [-> | Hnn]; injection Hk1 as <- <-.
    + exists w0. split; [exact Hk0|]. split; [reflexivity|congruence].
    + exists w0. split; [exact Hk0|]. split; [congruence|reflexivity]. }
split.
- intros k1 k2 n a1 a2 H1 H2.
  destruct (Hback _ _ _ H1) as (x1 & Hx1 & Hv1 & Hs1).
  destruct (Hback _ _ _ H2) as (x2 & Hx2 & Hv2 & Hs2).
  destruct (Nat.eq_dec n name) as [-> | Hnn].
  + rewrite Hv1, Hv2 by reflexivity. reflexivity.
  + rewrite Hs1, Hs2 by exact Hnn. exact (Hco _ _ _ _ _ Hx1 Hx2).
- split; [exact Hlen|].
  intros k nk wk Hk. rewrite (Hlook _ _ _ Hk).
  destruct (Nat.eqb_spec k i) as [-> | Hne].
  + rewrite Hi in Hk. injection Hk as <- <-.
    exists w'. split; [reflexivity|].
    do 5 (split; [assumption|]).
    intros Hdw. rewrite (Hstat Hdw). auto.
  + destruct (Nat.eqb_spec nk name) as [-> | Hnn].
    * exists (Wall.set_velocity wk v). split; [reflexivity|].
      cbn. do 5 (split; [reflexivity|]).
      intros Hdk. split; [reflexivity|]. split; [reflexivity|].
      destruct (Wall.dynamic w) eqn:Hdw.
      -- right. exists i, w. auto.
      -- left. unfold v. rewrite (Hstat eq_refl). exact (Hco _ _ _ _ _ Hi Hk).
    * exists wk. split; [reflexivity|]. repeat split; auto.
Qed.

Lemma update_from_kept (dt : F) (n : nat) :
  forall (i : nat) (walls walls' : Scene.t F),
    coherent walls ->
    Scene.update_from n i walls dt = Ok walls' ->
    coherent walls' /\ scene_kept walls walls'.
Proof.
induction n as [|n IH]; intros i walls walls' Hco Hu; cbn [Scene.update_from] in Hu.
- injection Hu as <-. split; [exact Hco|apply scene_kept_refl].
- destruct (walls !! i) as [[name w]|] eqn:Hi.
  + inv_bind Hu. destruct (update_step walls i name w r dt Hco Hi Hm) as [Hco1 Hk1].
    destruct (IH _ _ _ Hco1 Hu) as [Hco' Hk'].
    split; [exact Hco'|]. eapply scene_kept_trans; eassumption.
  + injection Hu as <-. split; [exact Hco|apply scene_kept_refl].
Qed.


(** When every wall has a velocity object of its own the loop treats each
    wall by itself. *)
Lemma store_velocity_other (name : nat) (v : Vec2.t F) (walls : Scene.t F) :
  name ∉ map fst walls -> Scene.store_velocity name v walls = walls.
Proof.
unfold Scene.store_velocity.
induction walls as [|[n w] walls IH]; intros Hnot; [reflexivity|].
cbn [map fst snd] in *. apply not_elem_of_cons in Hnot.
destruct Hnot as [Hne Hnot]. rewrite (IH Hnot).
destruct (Nat.eqb_spec n name) as [-> | _]; [congruence|]. reflexivity.
Qed.

Lemma update_from_own (dt : F) (todo : Scene.t F) :
  forall done : Scene.t F,
    NoDup (map fst (done ++ todo)) ->
    Scene.update_from (List.length todo) (List.length done) (done ++ todo) dt
    = (todo' ← update_each todo dt; Ok (done ++ todo')).
Proof.
induction todo as [|[name w] todo IH]; intros done Hnd.
- cbn. reflexivity.
- cbn [List.length Scene.update_from update_each].
  rewrite list_lookup_middle by reflexivity.
  destruct (Scene.update_wall w dt) as [w'| |] eqn:Hu; cbn [mbind Res_bind];
    [|reflexivity|reflexivity].
  change (Ok w' ≫= ?k) with (k w'). cbn beta.
  assert (Hins : <[List.length done := (name, w')]> (done ++ (name, w) :: todo)
                 = done ++ (name, w') :: todo).
  { replace (List.length done) with (List.length done + 0)%nat at 1 by lia.
    rewrite insert_app_r. reflexivity. }
  rewrite Hins.
  rewrite map_app in Hnd. cbn [map fst] in Hnd.
  apply NoDup_app in Hnd. destruct Hnd as (Hd1 & Hdis & Hd2).
  apply NoDup_cons in Hd2. destruct Hd2 as [Hn2 Hd2].
  assert (Hn1 : name ∉ map fst done).
  { intros Hin. apply (Hdis _ Hin). left. }
  assert (Hst : Scene.store_velocity name (Wall.velocity w')
                  (done ++ (name, w') :: todo)
                = done ++ (name, w') :: todo).
  { unfold Scene.store_velocity. rewrite map_app. cbn [map fst snd].
    rewrite Nat.eqb_refl, set_own_velocity.
    fold (Scene.store_velocity name (Wall.velocity w') done).
    fold (Scene.store_velocity name (Wall.velocity w') todo).
    rewrite !store_velocity_other by assumption. reflexivity. }
  rewrite Hst.
  replace (done ++ (name, w') :: todo) with ((done ++ [(name, w')]) ++ todo)
    by (rewrite <- app_assoc; reflexivity).
  replace (S (List.length done)) with (List.length (done ++ [(name, w')]))
    by (rewrite length_app; cbn; lia).
  rewrite IH.
  + destruct (update_each todo dt) as [todo'| |]; cbn; [|reflexivity|reflexivity].
    rewrite <- app_assoc. reflexivity.
  + rewrite <- app_assoc. cbn. rewrite map_app. cbn [map fst].
    apply NoDup_app. split; [exact Hd1|]. split; [exact Hdis|].
    apply NoDup_cons. split; assumption.
Qed.

Lemma update_own (walls : Scene.t F) (dt : F) :
  NoDup (map fst walls) -> Scene.update walls dt = update_each walls dt.
Proof.
intros Hnd. unfold Scene.update.
pose proof (update_from_own dt walls [] Hnd) as Ho.
cbn [List.length app] in Ho. rewrite Ho.
destruct (update_each walls dt); reflexivity.
Qed.
End SceneFrame.

Section SceneFrameInstance.
Local Open Scope float_scope.

End SceneFrameInstance.

(** ** Scene.update in exact arithmetic: the bounce *)

Section Bounce.
Local Open Scope R_scope.

Lemma bounce_real (v p : Vec2.t R) :
  Scene.bounce v p
  = Vec2.make (if out_of_x p then - Vec2.x v else Vec2.x v)
              (if out_of_y p then - Vec2.y v else Vec2.y v).
Proof.
destruct v as [vx vy].
unfold Scene.bounce, out_of_x, out_of_y. cbn.
destruct (Rltb (Vec2.x p) 80 || Rltb 720 (Vec2.x p));
  destruct (Rltb (Vec2.y p) 80 || Rltb 520 (Vec2.y p)); cbn; f_equal; lra.
Qed.

Lemma length_positive (v : Vec2.t R) :
  Rltb 0 (Vec2.length v) = false -> v = Vec2.make 0 0.
Proof.
destruct v as [x y]. unfold Vec2.length. cbn. intros Hl.
apply Rltb_false in Hl.
pose proof (sqrt_pos (x * x + y * y)) as Hp.
destruct (hypot_zero x y) as [-> ->]; [lra|reflexivity].
Qed.

(** One wall of [Scene.update] in exact arithmetic. *)
Lemma update_wall_real (w : Wall.t R) (dt : R) :
  exists w1 w' : Wall.t R,
    Wall.update w dt = Ok w1
    /\ Scene.update_wall w dt = Ok w'
    /\ w' = Wall.set_velocity w1 (Wall.velocity w')
    /\ (Wall.dynamic w = false -> w' = w)
    /\ Wall.velocity w'
       = if Wall.dynamic w then
           Vec2.make
             (if xorb (out_of_x (Segment.p1 (Wall.segment w1)))
                      (out_of_x (Segment.p2 (Wall.segment w1)))
              then - Vec2.x (Wall.velocity w) else Vec2.x (Wall.velocity w))
             (if xorb (out_of_y (Segment.p1 (Wall.segment w1)))
                      (out_of_y (Segment.p2 (Wall.segment w1)))
              then - Vec2.y (Wall.velocity w) else Vec2.y (Wall.velocity w))
         else Wall.velocity w.
Proof.
destruct (wall_update_real w dt) as [w1 (Hu & Hsame & Hstat & _)].
destruct Hsame as (_ & _ & Hd & _ & _ & Hv).
exists w1. unfold Scene.update_wall. rewrite Hu. cbn [mbind Res_bind].
change (Ok w1 ≫= ?k) with (k w1). cbn beta. rewrite Hd, Hv.
destruct (Wall.dynamic w) eqn:Hdw; cbn [andb].
- destruct (of_int 0 <? Vec2.length (Wall.velocity w))%py eqn:Hl.
  + eexists. split; [reflexivity|]. split; [reflexivity|].
    cbn [Wall.velocity Wall.set_velocity fold_left Wall.get_segment].
    split; [reflexivity|]. split; [discriminate|].
    rewrite !bounce_real. cbn [Vec2.x Vec2.y]. unfold Wall.get_segment.
    destruct (out_of_x (Segment.p1 (Wall.segment w1))),
             (out_of_x (Segment.p2 (Wall.segment w1))),
             (out_of_y (Segment.p1 (Wall.segment w1))),
             (out_of_y (Segment.p2 (Wall.segment w1))); cbn; f_equal; lra.
  + exists w1. split; [reflexivity|]. split; [reflexivity|].
    split; [destruct w1; cbn; reflexivity|]. split; [discriminate|].
    rewrite Hv. apply length_positive in Hl. rewrite Hl. cbn.
    destruct (xorb _ _), (xorb _ _); f_equal; lra.
- exists w1. split; [reflexivity|]. split; [reflexivity|].
  split; [destruct w1; cbn; reflexivity|]. split; [intros _; auto|].
  exact Hv.
Qed.

(** The bounce of [Scene.update] in exact arithmetic.  The wall is first
    updated; then each coordinate of the velocity of a dynamic wall is
    negated once for each end point of the new segment that is out of range
    ([x] outside [80, 720], [y] outside [80, 520]).  So it changes sign when
    exactly one end point is out, and stays as it is when both are out or
    none is; segment and angle are as [Wall.update] left them, and the speed
    is the same. *)
Theorem bounce_parity (w : Wall.t R) (dt : R) :
  exists w1 w' : Wall.t R,
    Wall.update w dt = Ok w1
    /\ Scene.update_wall w dt = Ok w'
    /\ Wall.segment w' = Wall.segment w1
    /\ Wall.angle w' = Wall.angle w1
    /\ (Wall.dynamic w = false -> Wall.velocity w' = Wall.velocity w)
    /\ (Wall.dynamic w = true ->
        Vec2.x (Wall.velocity w')
        = (if xorb (out_of_x (Segment.p1 (Wall.segment w1)))
                   (out_of_x (Segment.p2 (Wall.segment w1)))
           then - Vec2.x (Wall.velocity w) else Vec2.x (Wall.velocity w))
        /\ Vec2.y (Wall.velocity w')
           = (if xorb (out_of_y (Segment.p1 (Wall.segment w1)))
                      (out_of_y (Segment.p2 (Wall.segment w1)))
              then - Vec2.y (Wall.velocity w) else Vec2.y (Wall.velocity w)))
    /\ Vec2.length (Wall.velocity w') = Vec2.length (Wall.velocity w).
Proof.
destruct (update_wall_real w dt) as [w1 [w' (Hu & Huw & Hset & Hstat & Hv)]].
exists w1, w'. split; [exact Hu|]. split; [exact Huw|].
split; [rewrite Hset; reflexivity|]. split; [rewrite Hset; reflexivity|].
destruct (Wall.dynamic w) eqn:Hd.
- split; [discriminate|]. rewrite Hv. cbn [Vec2.x Vec2.y].
  split; [intros _; split; reflexivity|].
  unfold Vec2.length. cbn. f_equal.
  destruct (xorb _ _), (xorb _ _); ring.
- rewrite Hv. split; [auto|]. split; [discriminate|reflexivity].
Qed.
End Bounce.

(** ** The default scene, frame after frame *)

Section DefaultSceneFrames.
Local Open Scope R_scope.

Lemma scene_update_static_prefix (l1 l2 : Scene.t R) (dt : R) :
  Forall (fun entry => Wall.dynamic entry.2 = false) l1 ->
  update_each (l1 ++ l2) dt = (l2' ← update_each l2 dt; Ok (l1 ++ l2')).
Proof.
induction 1 as [|[n w] l1 Hw Hl1 IH]; cbn [app update_each].
- destruct (update_each l2 dt); reflexivity.
- cbn in Hw. rewrite update_wall_static by exact Hw. cbn. rewrite IH.
  destruct (update_each l2 dt); reflexivity.
Qed.

Lemma default_scene_names (w8 w9 : Wall.t R) :
  NoDup (map fst (take 8 Scene.create_default_scene
                  ++ [(8%nat, w8); (9%nat, w9)])).
Proof.
change (NoDup (seq 0 10)). apply NoDup_seq.
Qed.

Lemma default_scene_static :
  Forall (fun entry : nat * Wall.t R => Wall.dynamic entry.2 = false)
    (take 8 Scene.create_default_scene).
Proof. repeat constructor. Qed.

Lemma default_scene_starts : default_scene_shape Scene.create_default_scene.
Proof.
eexists. eexists. split; [reflexivity|]. split.
- unfold turning_wall, on_segment, seg_len2, dist2. cbn.
  repeat split; try reflexivity; try lra.
- unfold sliding_wall. cbn.
  repeat split; try reflexivity; try lra. left. reflexivity.
Qed.

Lemma turning_wall_step (w : Wall.t R) (dt : R) :
  turning_wall w ->
  exists w' : Wall.t R, Scene.update_wall w dt = Ok w' /\ turning_wall w'.
Proof.
intros (Hb1 & Hb2 & Hd & Hc & Hs & Hv & Hon & Hlen).
destruct (update_wall_real w dt) as [w1 [w' (Hu & Huw & Hset & _ & Hvel)]].
destruct (wall_update_real w dt) as [w1' (Hu' & Hsame & _ & _ & Hrot)].
rewrite Hu in Hu'. injection Hu' as <-.
assert (Hact : rotation_active w = true).
{ unfold rotation_active. rewrite Hc, Hs. cbn.
  destruct (Reqb (1 / 2) 0) eqn:E; [apply Reqb_true in E; lra|reflexivity]. }
destruct (Hrot Hd Hact) as [pivot [Hp Hseg]]. cbn zeta in Hseg.
rewrite Hc in Hp. injection Hp as <-.
destruct Hsame as (Hb1' & Hb2' & Hd' & Hc' & Hs' & Hv').
assert (Hvel' : Wall.velocity w' = Vec2.make 0 0).
{ rewrite Hvel, Hd, Hv. cbn. destruct (xorb _ _), (xorb _ _); f_equal; lra. }
exists w'. split; [exact Huw|].
rewrite Hset. unfold turning_wall. cbn.
rewrite Hb1', Hb2', Hd', Hc', Hs', Hseg, Hb1, Hb2, Hv.
repeat split; auto.
- cbn. lra.
- cbn. lra.
- cbn. lra.
- cbn. lra.
- unfold seg_len2. cbn [Segment.p1 Segment.p2].
  rewrite dist2_translate, rotate_matrix_diff. unfold dist2. cbn. lra.
Qed.

Lemma sliding_wall_step (w : Wall.t R) (dt : R) :
  sliding_wall w ->
  exists w' : Wall.t R, Scene.update_wall w dt = Ok w' /\ sliding_wall w'.
Proof.
intros (Hd & Hc & Hv & Hy1 & Hy2 & Hx).
destruct (update_wall_real w dt) as [w1 [w' (Hu & Huw & Hset & _ & Hvel)]].
destruct (wall_update_real w dt) as [w1' (Hu' & Hsame & _ & Htrans & _)].
rewrite Hu in Hu'. injection Hu' as <-.
assert (Hact : rotation_active w = false).
{ unfold rotation_active. rewrite Hc. reflexivity. }
pose proof (Htrans Hd Hact) as Hseg. cbn zeta in Hseg.
destruct Hsame as (Hb1' & Hb2' & Hd' & Hc' & Hs' & Hv').
exists w'. split; [exact Huw|].
unfold sliding_wall.
assert (Hvy : Vec2.y (Wall.velocity w) = 0) by (destruct Hv as [-> | ->]; reflexivity).
split; [rewrite Hset; cbn; congruence|].
split; [rewrite Hset; cbn; congruence|].
split.
- rewrite Hvel, Hd.
  destruct Hv as [-> | ->]; cbn;
    destruct (xorb _ _), (xorb _ _);
    first [left; f_equal; lra | right; f_equal; lra].
- rewrite Hset. cbn [Wall.segment Wall.set_velocity]. rewrite Hseg.
  destruct (Wall.segment w) as [[x1 y1] [x2 y2]].
  destruct (Wall.velocity w) as [vx vy]. cbn in *. subst.
  repeat split; lra.
Qed.

Lemma default_scene_step (walls : Scene.t R) (dt : R) :
  default_scene_shape walls ->
  exists walls' : Scene.t R,
    Scene.update walls dt = Ok walls' /\ default_scene_shape walls'.
Proof.
intros (w8 & w9 & -> & H8 & H9).
destruct (turning_wall_step w8 dt H8) as [w8' [Hu8 H8']].
destruct (sliding_wall_step w9 dt H9) as [w9' [Hu9 H9']].
exists (take 8 Scene.create_default_scene ++ [(8%nat, w8'); (9%nat, w9')]). split.
- rewrite update_own by apply default_scene_names.
  rewrite scene_update_static_prefix by apply default_scene_static.
  cbn [update_each]. rewrite Hu8, Hu9. reflexivity.
- exists w8', w9'. auto.
Qed.

Lemma default_scene_frames (dts : list R) (walls : Scene.t R) :
  default_scene_shape walls ->
  exists walls' : Scene.t R,
    scene_frames walls dts = Ok walls' /\ default_scene_shape walls'.
Proof.
revert walls. induction dts as [|dt dts IH]; intros walls Hs.
- exists walls. split; [reflexivity|exact Hs].
- destruct (default_scene_step walls dt Hs) as [walls1 [Hu H1]].
  destruct (IH walls1 H1) as [walls' [Hf H']].
  exists walls'. cbn [scene_frames]. rewrite Hu. auto.
Qed.

(** The default scene in exact arithmetic, after any number of calls of
    [Scene.update] with any frame times: the calls all return; the eight
    static walls are as they were made; the turning wall is still 100 long
    with its middle at (400, 300), the place where the player starts; the
    sliding wall is still on the line y = 250 and 50 long. *)
Theorem default_scene_invariants (dts : list R) :
  exists (walls : Scene.t R) (w8 w9 : Wall.t R),
    scene_frames Scene.create_default_scene dts = Ok walls
    /\ walls = take 8 Scene.create_default_scene ++ [(8%nat, w8); (9%nat, w9)]
    /\ on_segment (Vec2.make 400 300) (Wall.segment w8) (1 / 2)
    /\ seg_len2 (Wall.segment w8) = 100 * 100
    /\ Vec2.y (Segment.p1 (Wall.segment w9)) = 250
    /\ Vec2.y (Segment.p2 (Wall.segment w9)) = 250
    /\ Vec2.x (Segment.p2 (Wall.segment w9))
       = Vec2.x (Segment.p1 (Wall.segment w9)) + 50.
Proof.
destruct (default_scene_frames dts _ default_scene_starts)
  as [walls [Hf (w8 & w9 & Hw & H8 & H9)]].
exists walls, w8, w9.
destruct H8 as (_ & _ & _ & _ & _ & _ & Hon & Hlen).
destruct H9 as (_ & _ & _ & Hy1 & Hy2 & Hx).
repeat split; auto; apply Hon.
Qed.
End DefaultSceneFrames.

(** ** An observer on a wall *)

Section ObserverOnAnyWall.
Import VisibilityEngine.
Local Open Scope R_scope.

Lemma on_wall_intersection (origin d : Vec2.t R) (wall : Wall.t R) (u : R) :
  on_segment origin (Wall.segment wall) u ->
  1 / 1000000
  <= Rabs (Vec2.cross d (Vec2.sub (Segment.p2 (Wall.segment wall))
                                  (Segment.p1 (Wall.segment wall)))) ->
  wall_intersection origin d wall = Ok (Some (0, u)).
Proof.
destruct wall as [b1 b2 [[ax ay] [bx by_]] dyn c sp v an].
destruct origin as [ox oy], d as [dx dy].
unfold on_segment. cbn. intros (Hu & Hx & Hy) Hden. subst ox oy.
unfold wall_intersection, Wall.get_segment, Segment.points,
  ray_segment_intersection, Vec2.cross, Vec2.sub, py_div.
cbn [Wall.segment Segment.p1 Segment.p2 Vec2.x Vec2.y fabs flt fle feq fsub
     fmul fquot lit_1em6 of_int R_PyFloat].
set (den := dx * (by_ - ay) - dy * (bx - ax)) in *.
assert (Hg : Rltb (Rabs den) (1 / 1000000) = false) by (apply Rltb_false; exact Hden).
assert (Hnz : den <> 0).
{ intros Hz. rewrite Hz, Rabs_R0 in Hden. lra. }
assert (Hz : Reqb den 0 = false) by (apply Reqb_false; exact Hnz).
rewrite Hg, Hz. cbn [mbind Res_bind].
change (Ok ?a ≫= ?k) with (k a). cbn beta.
assert (Ht : ((bx - ax) * (ay + u * (by_ - ay) - ay)
              - (by_ - ay) * (ax + u * (bx - ax) - ax)) / den = 0)
  by (field; exact Hnz).
assert (Hu' : (dx * (ay + u * (by_ - ay) - ay)
               - dy * (ax + u * (bx - ax) - ax)) / den = u)
  by (unfold den; field; exact Hnz).
rewrite Ht, Hu'.
assert (H0 : Rltb 0 0 = false) by (apply Rltb_false; lra).
rewrite H0. reflexivity.
Qed.

Lemma on_wall_cast_ray (walls : list (Wall.t R)) (origin : Vec2.t R)
    (k : nat) (wall : Wall.t R) (u a : R) :
  walls !! k = Some wall ->
  on_segment origin (Wall.segment wall) u ->
  1 / 1000000
  <= Rabs (Vec2.cross (Vec2.make (cos a) (sin a))
             (Vec2.sub (Segment.p2 (Wall.segment wall))
                       (Segment.p1 (Wall.segment wall)))) ->
  exists i : nat,
    cast_ray walls origin a default_max_dist = Ok (Some origin, Some i).
Proof.
intros Hk Hon Hden.
pose proof (on_wall_intersection origin _ wall u Hon Hden) as Hhit.
assert (Hadm : admissible (H := R_PyFloat) default_max_dist 0 u = true).
{ destruct Hon as [[Hu0 Hu1] _].
  unfold admissible, default_max_dist. cbn [of_int fle flt R_PyFloat].
  assert (H1 : Rleb 0 0 = true) by (apply Rleb_true; lra).
  assert (H2 : Rltb 0 1000 = true) by (apply Rltb_true; lra).
  assert (H3 : Rleb 0 u = true) by (apply Rleb_true; lra).
  assert (H4 : Rleb u 1 = true) by (apply Rleb_true; lra).
  rewrite H1, H2, H3, H4. reflexivity. }
unfold cast_ray. rewrite (from_angle_finite (H := R_PyFloat) a eq_refl).
cbn [mbind Res_bind libm_cos libm_sin R_PyFloat].
destruct (cast_ray_loop_closest (H := R_PyFloat) origin
            (Vec2.make (cos a) (sin a)) walls 0
            (mkRayState default_max_dist None None))
  as [[j [w0 [t [u0 [Hj [Hw [Ha [Hl Hmin]]]]]]]] | [Hl Hnone]];
  cbn [closest_t] in *.
- rewrite Hl. cbn [mbind Res_bind closest_point hit_wall].
  exists (0 + j)%nat. do 2 f_equal.
  pose proof (Hmin k wall 0 u Hk Hhit Hadm) as Hle.
  apply Rltb_false in Hle.
  unfold admissible in Ha. apply andb_prop in Ha. destruct Ha as [Ha _].
  apply andb_prop in Ha. destruct Ha as [H0 _]. apply Rleb_true in H0.
  cbn [of_int R_PyFloat] in H0.
  assert (Ht : t = 0) by lra. subst t.
  destruct origin as [ox oy].
  unfold Vec2.add, Vec2.mul. cbn [Vec2.x Vec2.y fadd fmul R_PyFloat].
  do 2 f_equal; ring.
- rewrite (Hnone k wall 0 u Hk Hhit) in Hadm. discriminate.
Qed.

(** An observer standing on a wall sees nothing along any ray that is not
    nearly parallel to that wall.  In exact arithmetic, if the origin lies on
    the segment of a wall of the scene and [abs(denom)] for that wall is at
    least [1e-6], then [cast_ray] returns the origin itself as the hit
    point: the wall is met at [t = 0], which no other wall can undercut. *)
Theorem observer_on_wall_sees_nothing (walls : list (Wall.t R))
    (origin : Vec2.t R) (k : nat) (wall : Wall.t R) (u a : R) :
  walls !! k = Some wall ->
  on_segment origin (Wall.segment wall) u ->
  1 / 1000000
  <= Rabs (Vec2.cross (Vec2.make (cos a) (sin a))
             (Vec2.sub (Segment.p2 (Wall.segment wall))
                       (Segment.p1 (Wall.segment wall)))) ->
  exists i : nat,
    cast_ray walls origin a default_max_dist = Ok (Some origin, Some i).
Proof. exact (on_wall_cast_ray walls origin k wall u a). Qed.

(** The same at the default scene as it is made, seen from the place where
    the player starts, looking straight down the screen ([PI / 2]). *)
Lemma observer_on_wall_sees_nothing_witness :
  exists i : nat,
    cast_ray (Scene.get_walls (Scene.create_default_scene (H := R_PyFloat)))
      (Vec2.make 400 300)
      (PI / 2) default_max_dist
    = Ok (Some (Vec2.make 400 300), Some i).
Proof.
apply (observer_on_wall_sees_nothing (Scene.get_walls Scene.create_default_scene)
         (Vec2.make 400 300) 8
         (Wall.init (Vec2.init 350 300) (Vec2.init 450 300) true
            (Some (Vec2.init 400 300)) Scene.lit_0_5 None)
         (1 / 2) (PI / 2)).
- reflexivity.
- unfold on_segment. cbn. lra.
- unfold Vec2.cross, Vec2.sub. cbn. rewrite cos_PI2, sin_PI2.
  rewrite Rabs_left; lra.
Defined.
End ObserverOnAnyWall.

(** ** Game.handle_events *)

Section GameEvents.
Context {F : Type} `{PyFloat F} `{PyHypot F}.
Local Open Scope py_scope.

Lemma handle_event_fold (events : list Game.Event) :
  forall g : Game.t F,
    let g' := fold_left Game.handle_event events g in
    Game.running g'
    = Game.running g && forallb (fun e => negb (is_quit e)) events
    /\ Game.full_360 g' = default (Game.full_360 g) (last (omap mode_of events))
    /\ same_world g g'
    /\ Game.player_velocity g' = Game.player_velocity g
    /\ Game.facing_angle g' = Game.facing_angle g.
Proof.
induction events as [|e events IH]; intros g; cbn zeta.
- cbn. rewrite andb_true_r. repeat split.
- cbn [fold_left forallb omap].
  destruct (IH (Game.handle_event g e)) as (Hr & Hm & (Hs & Hp & Hsp & Hf) & Hv & Ha).
  unfold same_world. rewrite Hr, Hm, Hs, Hp, Hsp, Hf, Hv, Ha. clear.
  assert (Hlast : forall (b b0 : bool) (l : list bool),
            default b0 (last (b :: l)) = default b (last l)).
  { intros b b0 l. rewrite last_cons. destruct (last l); reflexivity. }
  destruct e as [|[]|]; cbn; rewrite ?Hlast, ?andb_false_r; repeat split; auto.
Qed.

Lemma handle_events_returns (g : Game.t F) (events : list Game.Event)
    (keys : Game.Key -> bool) :
  let g1 := fold_left Game.handle_event events g in
  let move := Game.key_move keys in
  exists (g' : Game.t F) (v : Vec2.t F),
    Game.handle_events g events keys = Ok g'
    /\ (if of_int 0 <? Vec2.length move
        then n ← Vec2.normalized move; Ok (Vec2.mul n (Game.player_speed g))
        else Ok move) = Ok v
    /\ Game.player_velocity g' = v
    /\ Game.running g' = Game.running g1
    /\ Game.full_360 g' = Game.full_360 g1
    /\ same_world g g'
    /\ Game.facing_angle g'
       = (let a := Game.facing_angle g in
          let a := if keys Game.K_q then a - Game.turn_step else a in
          if keys Game.K_e then a + Game.turn_step else a).
Proof.
cbn zeta. unfold Game.handle_events.
destruct (handle_event_fold events g) as (_ & _ & Hw & _ & Ha). cbn zeta in *.
destruct Hw as (Hs & Hp & Hsp & Hf).
set (g1 := fold_left Game.handle_event events g) in *.
destruct (normalized_never_raises (Game.key_move keys)) as [n [Hn _]].
rewrite Hsp.
destruct (of_int 0 <? Vec2.length (Game.key_move keys)).
- rewrite Hn. cbn [mbind Res_bind]. change (Ok ?a ≫= ?k) with (k a). cbn beta.
  eexists. eexists. split; [reflexivity|]. split; [reflexivity|].
  rewrite <- Ha.
  destruct (keys Game.K_q), (keys Game.K_e); cbn; repeat split; auto.
- change (Ok ?a ≫= ?k) with (k a). cbn beta.
  eexists. eexists. split; [reflexivity|]. split; [reflexivity|].
  rewrite <- Ha.
  destruct (keys Game.K_q), (keys Game.K_e); cbn; repeat split; auto.
Qed.

(** [handle_events] raises in no arithmetic, whatever the events and the
    keys.  The game stops running when one of the events is QUIT or ESC
    going down, and no event sets it running again; the mode is the one the
    last of the events for key 1 or key 2 asks for, and is unchanged if
    there is none; scene, player position, speed and FOV width are not
    touched. *)
Theorem events_decide_running_and_mode (g : Game.t F)
    (events : list Game.Event) (keys : Game.Key -> bool) :
  exists g' : Game.t F,
    Game.handle_events g events keys = Ok g'
    /\ Game.running g'
       = Game.running g && forallb (fun e => negb (is_quit e)) events
    /\ Game.full_360 g' = default (Game.full_360 g) (last (omap mode_of events))
    /\ Game.scene g' = Game.scene g
    /\ Game.player_pos g' = Game.player_pos g
    /\ Game.player_speed g' = Game.player_speed g
    /\ Game.fov_angle g' = Game.fov_angle g.
Proof.
destruct (handle_events_returns g events keys)
  as (g' & v & Hg & _ & _ & Hr & Hm & Hw & _).
destruct (handle_event_fold events g) as (Hr1 & Hm1 & _).
cbn zeta in *. exists g'. split; [exact Hg|].
rewrite Hr, Hm, Hr1, Hm1. destruct Hw as (? & ? & ? & ?). repeat split; auto.
Qed.
End GameEvents.

(** ** The player's velocity, in exact arithmetic *)

Section GameMove.
Local Open Scope R_scope.

Lemma length_scaled (n : Vec2.t R) (s : R) :
  Vec2.length n = 1 -> Vec2.length (Vec2.mul n s) = Rabs s.
Proof.
destruct n as [x y]. unfold Vec2.length, Vec2.mul. cbn. intros Hn.
assert (Hsq : x * x + y * y = 1).
{ rewrite <- (hypot_sq x y), Hn. ring. }
replace (x * s * (x * s) + y * s * (y * s)) with ((x * x + y * y) * Rsqr s)
  by (unfold Rsqr; ring).
rewrite Hsq, Rmult_1_l. apply sqrt_Rsqr_abs.
Qed.

Lemma velocity_of_move (move : Vec2.t R) (speed : R) :
  let v := if Rltb 0 (Vec2.length move)
           then n ← Vec2.normalized move; Ok (Vec2.mul n speed)
           else Ok move in
  (Vec2.x move = 0 -> Vec2.y move = 0 -> v = Ok (Vec2.make 0 0))
  /\ (Vec2.x move <> 0 \/ Vec2.y move <> 0 ->
      exists w : Vec2.t R, v = Ok w /\ Vec2.length w = Rabs speed).
Proof.
cbn zeta. split.
- destruct move as [x y]. cbn. intros -> ->.
  unfold Vec2.length. cbn. replace (0 * 0 + 0 * 0) with 0 by ring.
  rewrite sqrt_0.
  assert (H0 : Rltb 0 0 = false) by (apply Rltb_false; lra).
  rewrite H0. reflexivity.
- intros Hnz.
  assert (Hpos : Rltb 0 (Vec2.length move) = true).
  { apply Rltb_true. destruct move as [x y]. unfold Vec2.length. cbn in *.
    apply sqrt_lt_R0. destruct Hnz; nra. }
  rewrite Hpos.
  destruct (normalized_real move) as [n (Hn & _ & [[Hz _] | Hunit])].
  + rewrite Hz in Hnz. cbn in Hnz. destruct Hnz as [Hx | Hy]; congruence.
  + rewrite Hn. exists (Vec2.mul n speed). split; [reflexivity|].
    apply length_scaled. exact Hunit.
Qed.

Lemma handle_events_real (g : Game.t R)
    (events : list Game.Event) (keys : Game.Key -> bool) :
  exists g' : Game.t R,
    Game.handle_events g events keys = Ok g'
    /\ (no_net_move keys = true -> Game.player_velocity g' = Vec2.make 0 0)
    /\ (no_net_move keys = false ->
        Vec2.length (Game.player_velocity g') = Rabs (Game.player_speed g))
    /\ (keys Game.K_q = keys Game.K_e ->
        Game.facing_angle g' = Game.facing_angle g)
    /\ same_world g g'.
Proof.
destruct (handle_events_returns g events keys)
  as (g' & v & Hg & Hv & Hvel & _ & _ & Hw & Ha).
cbn zeta in *. exists g'. split; [exact Hg|]. rewrite Hvel.
destruct (velocity_of_move (Game.key_move keys) (Game.player_speed g))
  as [Hzero Hmove]. cbn zeta in *.
change (of_int 0 <? Vec2.length (Game.key_move keys))%py
  with (Rltb 0 (Vec2.length (Game.key_move keys))) in Hv.
split; [|split; [|split]].
- intros Hk. rewrite Hzero in Hv; [congruence| |];
    revert Hk; unfold no_net_move, Game.key_move;
    destruct (keys Game.K_w || keys Game.K_UP),
             (keys Game.K_s || keys Game.K_DOWN),
             (keys Game.K_a || keys Game.K_LEFT),
             (keys Game.K_d || keys Game.K_RIGHT); cbn;
    intros Hk; try discriminate; lra.
- intros Hk. destruct Hmove as [w [Hw' Hlen]]; [|congruence].
  revert Hk; unfold no_net_move, Game.key_move;
    destruct (keys Game.K_w || keys Game.K_UP),
             (keys Game.K_s || keys Game.K_DOWN),
             (keys Game.K_a || keys Game.K_LEFT),
             (keys Game.K_d || keys Game.K_RIGHT); cbn;
    intros Hk; try discriminate;
    first [left; lra | right; lra].
- intros Hqe. rewrite Ha, Hqe. destruct (keys Game.K_e); cbn; [ring|reflexivity].
- exact Hw.
Qed.

(** In exact arithmetic the player stands still or moves at [player_speed]:
    after [handle_events] the velocity is (0, 0) when the keys held down ask
    for no direction (none held, or opposite ones together), and otherwise
    its length is [abs(player_speed)], along a diagonal as along an axis.
    With Q and E both held or both free the facing angle is unchanged. *)
Theorem player_moves_at_player_speed (g : Game.t R)
    (events : list Game.Event) (keys : Game.Key -> bool) :
  exists g' : Game.t R,
    Game.handle_events g events keys = Ok g'
    /\ (no_net_move keys = true -> Game.player_velocity g' = Vec2.make 0 0)
    /\ (no_net_move keys = false ->
        Vec2.length (Game.player_velocity g') = Rabs (Game.player_speed g))
    /\ (keys Game.K_q = keys Game.K_e ->
        Game.facing_angle g' = Game.facing_angle g).
Proof.
destruct (handle_events_real g events keys) as (g' & Hg & H0 & H1 & H2 & _).
exists g'. auto.
Qed.
End GameMove.

(** ** Game.update: the player stays in the window *)

Section GameClamp.

Lemma float_clamp (B : Builtins) (lo hi x : float) :
  PrimFloat.leb lo lo = true -> PrimFloat.leb lo hi = true ->
  PrimFloat.leb hi hi = true ->
  let r := py_max (H := float_PyFloat B) lo (py_min (H := float_PyFloat B) hi x) in
  PrimFloat.leb lo r = true /\ PrimFloat.leb r hi = true.
Proof.
intros Hlo Hlohi Hhi. unfold py_max, py_min. cbn [flt float_PyFloat].
destruct (PrimFloat.ltb x hi) eqn:E1.
- destruct (PrimFloat.ltb lo x) eqn:E2.
  + split; apply float_ltb_leb; assumption.
  + split; assumption.
- destruct (PrimFloat.ltb lo hi) eqn:E2; split; assumption.
Qed.

(** On binary64, whenever [Game.update] returns, the player is inside the
    window with a border of 60: [60 <= x <= 740] and [60 <= y <= 540].  This
    holds for every position, velocity and frame time, infinities and NaN
    included (a NaN coordinate fails [x < 740] and becomes 740). *)
Theorem player_stays_in_window (B : Builtins) (c_hypot : float -> float -> float)
    (g g' : Game.t float) (dt : float) :
  Game.update (H := float_PyFloat B) (H0 := float_PyHypot c_hypot) g dt = Ok g' ->
  PrimFloat.leb 60 (Vec2.x (Game.player_pos g')) = true
  /\ PrimFloat.leb (Vec2.x (Game.player_pos g')) 740 = true
  /\ PrimFloat.leb 60 (Vec2.y (Game.player_pos g')) = true
  /\ PrimFloat.leb (Vec2.y (Game.player_pos g')) 540 = true.
Proof.
unfold Game.update. intros Hu. inv_bind Hu. injection Hu as <-.
cbn [Game.player_pos Game.set_scene Game.set_player_pos Vec2.x Vec2.y].
pose proof (float_clamp B 60 740
              (Vec2.x (Vec2.add (H := float_PyFloat B) (Game.player_pos g)
                         (Vec2.mul (H := float_PyFloat B) (Game.player_velocity g) dt)))
              eq_refl eq_refl eq_refl) as [Hx1 Hx2].
pose proof (float_clamp B 60 540
              (Vec2.y (Vec2.add (H := float_PyFloat B) (Game.player_pos g)
                         (Vec2.mul (H := float_PyFloat B) (Game.player_velocity g) dt)))
              eq_refl eq_refl eq_refl) as [Hy1 Hy2].
repeat split; assumption.
Qed.

Section Instance.
Local Open Scope float_scope.

(** The same for a player at (730, 300) moving right at 2000 for a frame of
    16 ms: the step would end at 762, the player is put at 740. *)
Lemma player_stays_in_window_witness :
  exists g' : Game.t float,
    Game.update (H := float_PyFloat coarse_builtins)
      (H0 := float_PyHypot (fun x y => PrimFloat.sqrt (x * x + y * y)))
      (Game.make true [] (Vec2.make 730 300) 2000 (Vec2.make 2000 0) 0 1.5 false)
      0.016
    = Ok g'
    /\ Vec2.x (Game.player_pos g') = 740
    /\ PrimFloat.leb 60 (Vec2.x (Game.player_pos g')) = true
    /\ PrimFloat.leb (Vec2.x (Game.player_pos g')) 740 = true
    /\ PrimFloat.leb 60 (Vec2.y (Game.player_pos g')) = true
    /\ PrimFloat.leb (Vec2.y (Game.player_pos g')) 540 = true.
Proof.
eexists. split; [vm_compute; reflexivity|]. split; [reflexivity|].
apply (player_stays_in_window coarse_builtins
         (fun x y => PrimFloat.sqrt (x * x + y * y))
         (Game.make true [] (Vec2.make 730 300) 2000 (Vec2.make 2000 0) 0 1.5 false)
         _ 0.016).
vm_compute. reflexivity.
Defined.
End Instance.
End GameClamp.

(** ** Game.update and the game loop, in exact arithmetic *)

Section GameFrames.
Import VisibilityEngine.
Local Open Scope R_scope.

Lemma scene_update_real (walls : Scene.t R) (dt : R) :
  exists walls' : Scene.t R, Scene.update walls dt = Ok walls'.
Proof.
unfold Scene.update. generalize (List.length walls) at 1. intros n.
generalize 0%nat. revert walls.
induction n as [|n IH]; intros walls i; cbn [Scene.update_from].
- exists walls. reflexivity.
- destruct (walls !! i) as [[name w]|]; [|exists walls; reflexivity].
  destruct (update_wall_real w dt) as [w1 [w' (_ & Hu & _)]].
  rewrite Hu. cbn [mbind Res_bind]. apply IH.
Qed.

Lemma real_clamp (lo hi x : R) :
  lo <= hi ->
  let r := py_max lo (py_min hi x) in
  (lo <= x <= hi -> r = x) /\ (x < lo -> r = lo) /\ (hi < x -> r = hi).
Proof.
intros Hle. unfold py_max, py_min. cbn [flt R_PyFloat].
destruct (Rltb x hi) eqn:E1; [apply Rltb_true in E1|apply Rltb_false in E1];
  (destruct (Rltb lo _) eqn:E2; [apply Rltb_true in E2|apply Rltb_false in E2]);
  repeat split; intros; lra.
Qed.

Lemma game_update_returns (g : Game.t R) (dt : R) :
  exists g' : Game.t R,
    Game.update g dt = Ok g'
    /\ Scene.update (Game.scene g) dt = Ok (Game.scene g')
    /\ Game.player_pos g'
       = Vec2.make
           (py_max 60 (py_min 740 (Vec2.x (Game.player_pos g)
                                   + Vec2.x (Game.player_velocity g) * dt)))
           (py_max 60 (py_min 540 (Vec2.y (Game.player_pos g)
                                   + Vec2.y (Game.player_velocity g) * dt)))
    /\ Game.running g' = Game.running g
    /\ Game.player_speed g' = Game.player_speed g
    /\ Game.player_velocity g' = Game.player_velocity g
    /\ Game.facing_angle g' = Game.facing_angle g
    /\ Game.fov_angle g' = Game.fov_angle g
    /\ Game.full_360 g' = Game.full_360 g.
Proof.
destruct (scene_update_real (Game.scene g) dt) as [walls' Hs].
eexists. unfold Game.update.
cbn [Game.scene Game.set_player_pos]. rewrite Hs.
split; [reflexivity|]. cbn. repeat split.
Qed.

(** In exact arithmetic [Game.update] always returns.  The player moves by
    velocity times frame time, and each coordinate that left the window
    (border 60) is put on the bound it passed, the others are not changed;
    the walls are those [Scene.update] returns; nothing else changes. *)
Theorem game_update_clamps (g : Game.t R) (dt : R) :
  exists g' : Game.t R,
    Game.update g dt = Ok g'
    /\ Scene.update (Game.scene g) dt = Ok (Game.scene g')
    /\ (let x := Vec2.x (Game.player_pos g) + Vec2.x (Game.player_velocity g) * dt in
        let x' := Vec2.x (Game.player_pos g') in
        (60 <= x <= 740 -> x' = x) /\ (x < 60 -> x' = 60) /\ (740 < x -> x' = 740))
    /\ (let y := Vec2.y (Game.player_pos g) + Vec2.y (Game.player_velocity g) * dt in
        let y' := Vec2.y (Game.player_pos g') in
        (60 <= y <= 540 -> y' = y) /\ (y < 60 -> y' = 60) /\ (540 < y -> y' = 540))
    /\ Game.running g' = Game.running g
    /\ Game.player_velocity g' = Game.player_velocity g
    /\ Game.facing_angle g' = Game.facing_angle g
    /\ Game.full_360 g' = Game.full_360 g.
Proof.
destruct (game_update_returns g dt)
  as (g' & Hu & Hs & Hp & Hr & _ & Hv & Ha & _ & Hm).
exists g'. split; [exact Hu|]. split; [exact Hs|].
rewrite Hp. cbn [Vec2.x Vec2.y].
split; [apply real_clamp; lra|]. split; [apply real_clamp; lra|]. auto.
Qed.
End GameFrames.

(** ** The game as it starts: the player stands on the pivot of the turning wall *)

Section GameStart.
Variable B : Builtins.
Variable c_hypot : float -> float -> float.
Hypothesis hypot_zero_not_positive : PrimFloat.ltb 0 (c_hypot 0 0) = false.
Local Open Scope float_scope.

Local Abbreviation FB := (float_PyFloat B).
Local Abbreviation FH := (float_PyHypot c_hypot).

Lemma own_coherent {F : Type} `{PyFloat F} (walls : Scene.t F) :
  NoDup (map fst walls) -> coherent walls.
Proof.
intros Hnd i j name w w' Hi Hj.
assert (Hij : i = j).
{ eapply NoDup_lookup; [exact Hnd| |].
  - change (map fst walls) with (fst <$> walls).
    rewrite list_lookup_fmap, Hi. reflexivity.
  - change (map fst walls) with (fst <$> walls).
    rewrite list_lookup_fmap, Hj. reflexivity. }
subst j. rewrite Hi in Hj. injection Hj as <-. reflexivity.
Qed.

Lemma game_init_idle : idle_shape B (Game.init (H := FB)).
Proof.
split; [reflexivity|]. split.
- apply own_coherent. change (NoDup (seq 0 10)). apply NoDup_seq.
- apply scene_kept_refl.
Qed.

(** With no direction asked for the keys give the vector (0.0, 0.0). *)
Lemma key_move_idle (keys : Game.Key -> bool) :
  no_net_move keys = true ->
  Game.key_move (H := FB) keys = Vec2.make 0 0.
Proof.
unfold no_net_move, Game.key_move.
destruct (keys Game.K_w || keys Game.K_UP),
         (keys Game.K_s || keys Game.K_DOWN),
         (keys Game.K_a || keys Game.K_LEFT),
         (keys Game.K_d || keys Game.K_RIGHT);
  cbn [eqb andb]; intros Hk; try discriminate; vm_compute; reflexivity.
Qed.

(** A finite number times 0.0 is a zero, and adding a zero to 400.0 or to
    300.0 changes nothing. *)
Lemma zero_times_finite (dt : float) :
  PrimFloat.is_finite dt = true ->
  exists s : bool, Prim2SF (0 * dt) = S754_zero s.
Proof.
unfold PrimFloat.is_finite, PrimFloat.is_nan, PrimFloat.is_infinity.
rewrite !FloatAxioms.eqb_spec, FloatAxioms.abs_spec, FloatAxioms.mul_spec.
assert (E0 : Prim2SF 0 = S754_zero false) by (vm_compute; reflexivity).
assert (Ei : Prim2SF infinity = S754_infinity false) by (vm_compute; reflexivity).
rewrite E0, Ei.
destruct (Prim2SF dt) as [s|s| |s m e]; cbn; intros Hf; try discriminate.
- eauto.
- destruct s; discriminate.
- eauto.
Qed.

Lemma add_zero_keeps (x z : float) (s : bool) :
  (exists m e, Prim2SF x = S754_finite false m e) ->
  Prim2SF z = S754_zero s -> x + z = x.
Proof.
intros (m & e & Hx) Hz. apply FloatAxioms.Prim2SF_inj.
rewrite FloatAxioms.add_spec, Hx, Hz. reflexivity.
Qed.

Lemma idle_step (x dt : float) (lo hi : float) :
  (exists m e, Prim2SF x = S754_finite false m e) ->
  PrimFloat.is_finite dt = true ->
  py_max (H := FB) lo (py_min (H := FB) hi (x + 0 * dt))
  = py_max (H := FB) lo (py_min (H := FB) hi x).
Proof.
intros Hx Hdt. destruct (zero_times_finite dt Hdt) as [s Hs].
rewrite (add_zero_keeps x (0 * dt) s Hx Hs). reflexivity.
Qed.

Lemma frame_keeps_idle (g g' : Game.t float) (events : list Game.Event)
    (keys : Game.Key -> bool) (dt : float) :
  idle_shape B g -> no_net_move keys = true ->
  PrimFloat.is_finite dt = true ->
  Game.frame (H := FB) (H0 := FH) g events keys dt = Ok g' ->
  idle_shape B g'.
Proof.
intros (Hpos & Hco & Hkept) Hk Hdt Hf.
unfold Game.frame in Hf. inv_bind Hf. rename r into g1.
destruct (handle_events_returns (H := FB) (H0 := FH) g events keys)
  as (g1' & v & Hg1 & Hv & Hvel & _ & _ & (Hs1 & Hp1 & _) & _).
cbn zeta in Hv. rewrite Hm in Hg1. injection Hg1 as <-.
rewrite (key_move_idle keys Hk) in Hv.
assert (Hlen : @flt float FB (@of_int float FB 0)
                  (Vec2.length (H0 := FH) (Vec2.make 0 0)) = false)
  by exact hypot_zero_not_positive.
rewrite Hlen in Hv. injection Hv as <-.
unfold Game.update in Hf. inv_bind Hf. injection Hf as <-.
cbn [Game.scene Game.set_player_pos] in Hm0.
rewrite Hs1 in Hm0.
destruct (update_from_kept (H := FB) (H0 := FH) dt _ _ _ _ Hco Hm0) as [Hco' Hk'].
split; [|split; [exact Hco'|eapply scene_kept_trans; eassumption]].
cbn [Game.player_pos Game.set_scene Game.set_player_pos].
rewrite Hvel, Hp1, Hpos.
cbn [Vec2.add Vec2.mul Vec2.x Vec2.y fadd fmul FB float_PyFloat].
rewrite (idle_step 400 dt _ _) by (try exact Hdt; vm_compute; eauto).
rewrite (idle_step 300 dt _ _) by (try exact Hdt; vm_compute; eauto).
vm_compute. reflexivity.
Qed.

Lemma frames_keep_idle (inputs : list (FrameInput float)) :
  Forall (fun i => no_net_move i.1.2 = true
                   /\ PrimFloat.is_finite i.2 = true) inputs ->
  forall g g' : Game.t float,
    idle_shape B g ->
    game_frames (H := FB) (H0 := FH) g inputs = Ok g' ->
    idle_shape B g'.
Proof.
induction 1 as [|[[events keys] dt] inputs [Hk Hdt] Hrest IH]; intros g g' Hg Hf.
- injection Hf as <-. exact Hg.
- cbn [fst snd] in Hk, Hdt. cbn [game_frames] in Hf.
  destruct (Game.running g); [|injection Hf as <-; exact Hg].
  inv_bind Hf.
  exact (IH _ _ (frame_keeps_idle _ _ _ _ _ Hg Hk Hdt Hm) Hf).
Qed.

(** The game starts with the player on the pivot of the turning wall, and
    a player that does not move stays there.  On binary64, for every C
    library whose [hypot(0.0, 0.0)] is not positive: after any number of
    turns of the loop of [Game.run] in which the keys held ask for no
    direction and the frame time is finite, whatever the events, if no call
    raised then the player position is exactly (400.0, 300.0), and this is
    the [rotation_center] of the wall at place 8, which is still dynamic. *)
Theorem idle_player_stays_on_pivot (inputs : list (FrameInput float))
    (g : Game.t float) :
  Forall (fun i => no_net_move i.1.2 = true
                   /\ PrimFloat.is_finite i.2 = true) inputs ->
  game_frames (H := FB) (H0 := FH) (Game.init (H := FB)) inputs = Ok g ->
  Game.player_pos g = Vec2.make 400 300
  /\ exists w8 : Wall.t float,
       Game.scene g !! 8%nat = Some (8%nat, w8)
       /\ Wall.dynamic w8 = true
       /\ Wall.rotation_center w8 = Some (Game.player_pos g).
Proof.
intros Hin Hf.
destruct (frames_keep_idle inputs Hin _ _ game_init_idle Hf)
  as (Hpos & _ & _ & Hall).
split; [exact Hpos|].
destruct (Hall 8%nat 8%nat
            (Wall.init (H := FB) (Vec2.init (H := FB) 350 300)
               (Vec2.init (H := FB) 450 300) true
               (Some (Vec2.init (H := FB) 400 300)) (Scene.lit_0_5 (H := FB)) None)
            eq_refl)
  as (w8 & H8 & _ & _ & Hd & Hc & _).
exists w8. split; [exact H8|]. split; [exact Hd|].
rewrite Hc, Hpos. vm_compute. reflexivity.
Qed.
End GameStart.

Section GameStartInstance.
Local Open Scope float_scope.

(** The same after one turn of the loop with no event, no key held and a
    frame of 16 ms. *)
Lemma idle_player_stays_on_pivot_witness :
  exists g : Game.t float,
    game_frames (H := float_PyFloat coarse_builtins)
      (H0 := float_PyHypot (fun x y => PrimFloat.sqrt (x * x + y * y)))
      (Game.init (H := float_PyFloat coarse_builtins))
      [([], fun _ => false, 0.016)] = Ok g
    /\ Game.player_pos g = Vec2.make 400 300
    /\ exists w8 : Wall.t float,
         Game.scene g !! 8%nat = Some (8%nat, w8)
         /\ Wall.dynamic w8 = true
         /\ Wall.rotation_center w8 = Some (Game.player_pos g).
Proof.
eexists. split; [vm_compute; reflexivity|].
apply (idle_player_stays_on_pivot coarse_builtins
         (fun x y => PrimFloat.sqrt (x * x + y * y)) eq_refl
         [([], fun _ => false, 0.016)]).
- repeat constructor.
- vm_compute. reflexivity.
Defined.
End GameStartInstance.

(** ** Two updates in a row *)

Section UpdateComposes.
Local Open Scope R_scope.

Lemma add_mul_split (p v : Vec2.t R) (dt1 dt2 : R) :
  Vec2.add (Vec2.add p (Vec2.mul v dt1)) (Vec2.mul v dt2)
  = Vec2.add p (Vec2.mul v (dt1 + dt2)).
Proof.
destruct p, v. unfold Vec2.add, Vec2.mul. cbn. f_equal; ring.
Qed.

Lemma update_twice (w : Wall.t R) (dt1 dt2 : R) :
  rotation_active w && velocity_nonzero w = false ->
  exists w1 w2 : Wall.t R,
    Wall.update w dt1 = Ok w1
    /\ Wall.update w1 dt2 = Ok w2
    /\ Wall.update w (dt1 + dt2) = Ok w2.
Proof.
intros Hnot.
destruct (Wall.dynamic w) eqn:Hd.
- destruct (rotation_active w) eqn:Hr.
  + cbn in Hnot.
    pose proof Hr as Hr'. unfold rotation_active in Hr'.
    destruct (Wall.rotation_center w) as [pivot|] eqn:Hc; [|discriminate].
    apply negb_true_iff in Hr'.
    pose proof (update_rotating w dt1 pivot Hd Hc Hr' eq_refl) as H1.
    pose proof (update_rotating w (dt1 + dt2) pivot Hd Hc Hr' eq_refl) as H12.
    cbn zeta in H1, H12. rewrite Hnot in H1, H12. cbn [translate_if] in H1, H12.
    eexists. eexists. split; [exact H1|]. split; [|exact H12].
    etransitivity.
    { apply (update_rotating _ dt2 pivot); [reflexivity|reflexivity|exact Hr'|reflexivity]. }
    cbn [Wall.base_p1 Wall.base_p2 Wall.angular_speed Wall.velocity Wall.angle].
    unfold velocity_nonzero in *. cbn [Wall.velocity]. rewrite Hnot.
    cbn [translate_if fadd fmul R_PyFloat].
    replace (Wall.angle w + Wall.angular_speed w * dt1 + Wall.angular_speed w * dt2)
      with (Wall.angle w + Wall.angular_speed w * (dt1 + dt2)) by ring.
    reflexivity.
  + pose proof (update_not_rotating w dt1 Hd Hr) as H1.
    pose proof (update_not_rotating w (dt1 + dt2) Hd Hr) as H12.
    cbn zeta in H1, H12. rewrite !translate_if_real in H1, H12.
    eexists. eexists. split; [exact H1|]. split; [|exact H12].
    etransitivity.
    { apply update_not_rotating; [reflexivity|exact Hr]. }
    cbn zeta. rewrite !translate_if_real.
    cbn [Wall.base_p1 Wall.base_p2 Wall.angular_speed Wall.velocity Wall.angle
         Wall.segment Wall.rotation_center Segment.p1 Segment.p2].
    rewrite !add_mul_split. reflexivity.
- exists w, w. rewrite !update_static by exact Hd. auto.
Qed.

(** In exact arithmetic, for a wall that does not both rotate and move, two
    calls of [update] amount to one call with the sum of the frame times:
    what the wall does in a second does not depend on the frame rate.  (A
    wall that rotates and has a velocity loses the translation of every
    earlier frame, so for it the two differ.) *)
Theorem update_composes (w : Wall.t R) (dt1 dt2 : R) :
  rotation_active w && velocity_nonzero w = false ->
  exists w1 w2 : Wall.t R,
    Wall.update w dt1 = Ok w1
    /\ Wall.update w1 dt2 = Ok w2
    /\ Wall.update w (dt1 + dt2) = Ok w2.
Proof. exact (update_twice w dt1 dt2). Qed.

(** The same for the sliding wall of the default scene: one frame of 1/60 s
    after another is one frame of 1/60 + 1/60 s. *)
Lemma update_composes_witness :
  exists w1 w2 : Wall.t R,
    let w := Wall.init (Vec2.init 300 250) (Vec2.init 350 250) true None 0
               (Some (Vec2.init 50 0)) in
    Wall.update w (1 / 60) = Ok w1
    /\ Wall.update w1 (1 / 60) = Ok w2
    /\ Wall.update w (1 / 60 + 1 / 60) = Ok w2.
Proof.
apply (update_composes
         (Wall.init (Vec2.init 300 250) (Vec2.init 350 250) true None 0
            (Some (Vec2.init 50 0)))
         (1 / 60) (1 / 60)).
reflexivity.
Defined.
End UpdateComposes.

(** ** The hit point lies on the wall *)

Section HitPoint.
Import VisibilityEngine.
Local Open Scope R_scope.

(** The equation of line 257: [origin + t * direction = a + u * (b - a)]. *)
Lemma intersection_solves (origin d a b : Vec2.t R) (t u : R) :
  ray_segment_intersection origin d a b = Ok (Some (t, u)) ->
  0 <= t
  /\ Vec2.add origin (Vec2.mul d t) = Vec2.add a (Vec2.mul (Vec2.sub b a) u).
Proof.
destruct origin as [ox oy], d as [dx dy], a as [ax ay], b as [bx by_].
unfold ray_segment_intersection, Vec2.cross, Vec2.sub, Vec2.add, Vec2.mul, py_div.
cbn [Vec2.x Vec2.y fabs flt fle feq fsub fadd fmul fquot lit_1em6 of_int R_PyFloat].
set (den := dx * (by_ - ay) - dy * (bx - ax)).
destruct (Rltb (Rabs den) (1 / 1000000)); [discriminate|].
destruct (Reqb den 0) eqn:Hz; [discriminate|]. apply Reqb_false in Hz.
cbn [mbind Res_bind]. change (Ok ?x ≫= ?k) with (k x). cbn beta.
destruct (Rltb _ 0) eqn:Ht; [discriminate|]. apply Rltb_false in Ht.
intros Heq. injection Heq as <- <-. split; [exact Ht|].
f_equal; unfold den; field; exact Hz.
Qed.

Lemma cast_ray_loop_index (origin d : Vec2.t R) (walls : list (Wall.t R)) :
  forall (i0 : nat) (st st' : RayState),
    cast_ray_loop origin d walls i0 st = Ok st' ->
    (closest_point st' = closest_point st /\ hit_wall st' = hit_wall st)
    \/ exists (j : nat) (wall : Wall.t R) (t u : R),
         walls !! j = Some wall
         /\ hit_wall st' = Some (i0 + j)%nat
         /\ closest_point st' = Some (Vec2.add origin (Vec2.mul d t))
         /\ wall_intersection origin d wall = Ok (Some (t, u))
         /\ 0 <= u <= 1.
Proof.
induction walls as [|w walls IH]; intros i0 st st' Hl.
- injection Hl as <-. left. auto.
- cbn [cast_ray_loop] in Hl. inv_bind Hl.
  assert (Hshift : forall st0 : RayState,
            cast_ray_loop origin d walls (S i0) st0 = Ok st' ->
            (closest_point st' = closest_point st0 /\ hit_wall st' = hit_wall st0)
            \/ exists (j : nat) (wall : Wall.t R) (t u : R),
                 (w :: walls) !! j = Some wall
                 /\ hit_wall st' = Some (i0 + j)%nat
                 /\ closest_point st' = Some (Vec2.add origin (Vec2.mul d t))
                 /\ wall_intersection origin d wall = Ok (Some (t, u))
                 /\ 0 <= u <= 1).
  { intros st0 H0. destruct (IH _ _ _ H0) as [Hsame | (j & wall & t & u & Hj & Hw & Hrest)].
    - left. exact Hsame.
    - right. exists (S j), wall, t, u. split; [exact Hj|].
      split; [rewrite Hw; f_equal; lia|exact Hrest]. }
  destruct r as [[t u]|].
  + destruct (admissible (closest_t st) t u) eqn:Ha.
    * destruct (Hshift _ Hl) as [[Hp Hw] | Hlater]; [|right; exact Hlater].
      right. exists 0%nat, w, t, u. cbn in Hp, Hw.
      split; [reflexivity|]. split; [rewrite Hw; f_equal; lia|].
      split; [exact Hp|]. split; [exact Hm|].
      unfold admissible in Ha. apply andb_prop in Ha. destruct Ha as [_ Hu].
      apply andb_prop in Hu. destruct Hu as [Hu0 Hu1].
      apply Rleb_true in Hu0. apply Rleb_true in Hu1.
      cbn [of_int R_PyFloat] in Hu0, Hu1. lra.
    * apply Hshift. exact Hl.
  + apply Hshift. exact Hl.
Qed.

Lemma cast_ray_on_wall (walls : list (Wall.t R)) (origin : Vec2.t R)
    (a max_dist : R) (p : Vec2.t R) (w : option nat) :
  cast_ray walls origin a max_dist = Ok (Some p, w) ->
  exists (i : nat) (wall : Wall.t R) (t u : R),
    w = Some i /\ walls !! i = Some wall
    /\ on_segment p (Wall.segment wall) u
    /\ 0 <= t
    /\ p = Vec2.add origin (Vec2.mul (Vec2.make (cos a) (sin a)) t).
Proof.
unfold cast_ray. rewrite (from_angle_finite (H := R_PyFloat) a eq_refl).
cbn [mbind Res_bind libm_cos libm_sin R_PyFloat].
change (Ok ?x ≫= ?k) with (k x). cbn beta. intros Hc. inv_bind Hc.
injection Hc as Hp Hw.
destruct (cast_ray_loop_index _ _ _ _ _ _ Hm)
  as [[Hp' _] | (j & wall & t & u & Hj & Hw' & Hp' & Hi & Hu)].
- rewrite Hp' in Hp. discriminate.
- exists j, wall, t, u. rewrite Hp' in Hp. injection Hp as <-.
  split; [rewrite <- Hw, Hw'; reflexivity|]. split; [exact Hj|].
  unfold wall_intersection, Wall.get_segment, Segment.points in Hi.
  destruct (intersection_solves _ _ _ _ _ _ Hi) as [Ht Heq].
  rewrite Heq. split; [|split; [exact Ht|reflexivity]].
  unfold on_segment. destruct (Wall.segment wall) as [[ax ay] [bx by_]].
  cbn. split; [exact Hu|]. split; ring.
Qed.

(** In exact arithmetic every point [cast_ray] returns lies on the current
    segment of a wall of the scene, the one it reports as struck, and ahead
    of the origin along the ray: it is [origin + t * direction] with
    [0 <= t], and [a + u * (b - a)] with [0 <= u <= 1] for the end points
    [a], [b] of that wall.  A point is never returned without a wall. *)
Theorem hit_point_on_struck_wall (walls : list (Wall.t R)) (origin : Vec2.t R)
    (a max_dist : R) (p : Vec2.t R) (w : option nat) :
  cast_ray walls origin a max_dist = Ok (Some p, w) ->
  exists (i : nat) (wall : Wall.t R) (t u : R),
    w = Some i /\ walls !! i = Some wall
    /\ on_segment p (Wall.segment wall) u
    /\ 0 <= t
    /\ p = Vec2.add origin (Vec2.mul (Vec2.make (cos a) (sin a)) t).
Proof. exact (cast_ray_on_wall walls origin a max_dist p w). Qed.

Lemma start_ray_down :
  exists i : nat,
    cast_ray (Scene.get_walls (Scene.create_default_scene (H := R_PyFloat)))
      (Vec2.make 400 300)
      (PI / 2) default_max_dist
    = Ok (Some (Vec2.make 400 300), Some i).
Proof.
apply (on_wall_cast_ray (Scene.get_walls Scene.create_default_scene)
         (Vec2.make 400 300) 8
         (Wall.init (Vec2.init 350 300) (Vec2.init 450 300) true
            (Some (Vec2.init 400 300)) Scene.lit_0_5 None)
         (1 / 2) (PI / 2)).
- reflexivity.
- unfold on_segment. cbn. lra.
- unfold Vec2.cross, Vec2.sub. cbn. rewrite cos_PI2, sin_PI2.
  rewrite Rabs_left; lra.
Qed.

(** The same for the ray cast straight down the screen from the middle of
    the default scene. *)
Lemma hit_point_on_struck_wall_witness :
  exists (w : option nat) (i : nat) (wall : Wall.t R) (t u : R),
    cast_ray (Scene.get_walls (Scene.create_default_scene (H := R_PyFloat)))
      (Vec2.make 400 300)
      (PI / 2) default_max_dist
    = Ok (Some (Vec2.make 400 300), w)
    /\ w = Some i
    /\ Scene.get_walls Scene.create_default_scene !! i = Some wall
    /\ on_segment (Vec2.make 400 300) (Wall.segment wall) u
    /\ 0 <= t
    /\ Vec2.make 400 300
       = Vec2.add (Vec2.make 400 300)
           (Vec2.mul (Vec2.make (cos (PI / 2)) (sin (PI / 2))) t).
Proof.
destruct start_ray_down as [i0 Hi].
destruct (hit_point_on_struck_wall _ _ _ _ _ _ Hi) as (i & wall & t & u & Hrest).
exists (Some i0), i, wall, t, u. split; [exact Hi|exact Hrest].
Defined.
End HitPoint.

(** ** How many rays, which walls, which angles *)

Section Work.
Context {F : Type} `{PyFloat F}.
Import VisibilityEngine.
Local Open Scope py_scope.

Lemma endpoint_angles_length (walls : list (Wall.t F)) (origin : Vec2.t F) :
  List.length (endpoint_angles walls origin) = (6 * List.length walls)%nat.
Proof.
unfold endpoint_angles. induction walls as [|w walls IH]; [reflexivity|].
cbn [flat_map] in *. rewrite length_app. cbn [app List.length] in *.
rewrite IH. lia.
Qed.

Lemma sample_angles_length (facing fov : F) (full : bool) :
  List.length (sample_angles facing fov full) = if full then 64%nat else 33%nat.
Proof. destruct full; reflexivity. Qed.

Lemma unique_loop_length (fuel : nat) (facing fov : F) (full : bool) :
  forall (angles unique seen res : list F),
    unique_loop fuel facing fov full angles unique seen = Ok res ->
    (List.length res <= List.length unique + List.length angles)%nat.
Proof.
induction angles as [|a angles IH]; intros unique seen res Hu.
- injection Hu as <-. lia.
- cbn [unique_loop] in Hu. inv_bind Hu. inv_bind Hu. cbn zeta in Hu.
  cbn [List.length].
  destruct (existsb _ seen).
  + apply IH in Hu. lia.
  + destruct (negb full).
    * inv_bind Hu. destruct (_ <? _); apply IH in Hu;
        rewrite ?length_app in Hu; cbn [List.length] in Hu; lia.
    * apply IH in Hu. rewrite length_app in Hu. cbn [List.length] in Hu. lia.
Qed.

Lemma cast_ray_loop_hit_index (origin d : Vec2.t F) (walls : list (Wall.t F)) :
  forall (i0 : nat) (st st' : RayState),
    cast_ray_loop origin d walls i0 st = Ok st' ->
    hit_wall st' = hit_wall st
    \/ exists j : nat, (j < List.length walls)%nat /\ hit_wall st' = Some (i0 + j)%nat.
Proof.
induction walls as [|w walls IH]; intros i0 st st' Hl.
- injection Hl as <-. left. reflexivity.
- cbn [cast_ray_loop] in Hl. inv_bind Hl.
  assert (Hshift : forall st0 : RayState,
            cast_ray_loop origin d walls (S i0) st0 = Ok st' ->
            hit_wall st' = hit_wall st0
            \/ exists j : nat,
                 (j < List.length (w :: walls))%nat /\ hit_wall st' = Some (i0 + j)%nat).
  { intros st0 H0. destruct (IH _ _ _ H0) as [Hsame | (j & Hj & Hw)].
    - left. exact Hsame.
    - right. exists (S j). cbn [List.length].
      split; [lia|rewrite Hw; f_equal; lia]. }
  destruct r as [[t u]|].
  + destruct (admissible (closest_t st) t u).
    * destruct (Hshift _ Hl) as [Hw | Hlater]; [|right; exact Hlater].
      right. exists 0%nat. cbn [List.length hit_wall] in *.
      split; [lia|rewrite Hw; f_equal; lia].
    * apply Hshift. exact Hl.
  + apply Hshift. exact Hl.
Qed.

Lemma cast_ray_hit_index (walls : list (Wall.t F)) (origin : Vec2.t F)
    (a max_dist : F) (p : option (Vec2.t F)) (i : nat) :
  cast_ray walls origin a max_dist = Ok (p, Some i) ->
  (i < List.length walls)%nat.
Proof.
unfold cast_ray. intros Hc. inv_bind Hc. inv_bind Hc. injection Hc as _ Hw.
destruct (cast_ray_loop_hit_index _ _ _ _ _ _ Hm0) as [Hsame | (j & Hj & Hi)].
- rewrite Hsame in Hw. discriminate.
- rewrite Hi in Hw. injection Hw as <-. lia.
Qed.

(** The work of one call of [compute_visibility_polygon], in every
    arithmetic: it returns at most six points per wall (three candidate
    angles for each end point) and 64 more in 360-degree mode, 33 more in FOV
    mode; and every member of the hit set is a wall of the scene. *)
Theorem points_and_hits_bounded (fuel : nat) (walls : list (Wall.t F))
    (origin : Vec2.t F) (facing fov : F) (full : bool)
    (poly : list (Vec2.t F)) (hits : gset nat) :
  compute_visibility_polygon fuel walls origin facing fov full = Ok (poly, hits) ->
  (List.length poly
   <= 6 * List.length walls + (if full then 64 else 33))%nat
  /\ forall i : nat, i ∈ hits -> (i < List.length walls)%nat.
Proof.
unfold compute_visibility_polygon. intros Hc. inv_bind Hc.
destruct r as [pts hits']. injection Hc as <- <-.
destruct (visibility_points_inv _ _ _ _ _ _ _ Hm) as [unique [ordered [Hu [Ho Hcl]]]].
apply ordered_angles_perm in Ho. apply unique_loop_length in Hu.
destruct (cast_loop_from_empty _ _ _ _ _ Hcl) as [Hsub [_ Hhits]].
split.
- apply sublist_length in Hsub. apply Permutation_length in Ho.
  unfold py_sort in Ho. rewrite py_sort_by_perm in Ho.
  rewrite !length_map in *.
  rewrite length_app, endpoint_angles_length, sample_angles_length in Hu.
  cbn [List.length] in Hu. lia.
- intros i Hi. destruct (Hhits i Hi) as [[a p] [_ Hray]].
  exact (cast_ray_hit_index _ _ _ _ _ _ Hray).
Qed.

Lemma unique_loop_distinct (fuel : nat) (facing fov : F) (full : bool) :
  forall (angles unique seen res : list F),
    unique_loop fuel facing fov full angles unique seen = Ok res ->
    Forall (fun a => round4 a ∈ seen) unique ->
    distinct_keys unique ->
    distinct_keys res.
Proof.
induction angles as [|a0 angles IH]; intros unique seen res Hu Hseen Hd.
- injection Hu as <-. exact Hd.
- cbn [unique_loop] in Hu. inv_bind Hu. inv_bind Hu. cbn zeta in Hu.
  set (a := libm_atan2 r r0) in *.
  assert (Hweak : Forall (fun x => round4 x ∈ round4 a :: seen) unique).
  { eapply Forall_impl; [exact Hseen|]. intros x Hx. cbn. right. exact Hx. }
  destruct (existsb (fun k => round4 a =? k) seen) eqn:He.
  + exact (IH _ _ _ Hu Hseen Hd).
  + assert (Hkeep : Forall (fun x => round4 x ∈ round4 a :: seen) (unique ++ [a])
                    /\ distinct_keys (unique ++ [a])).
    { split.
      - apply Forall_app. split; [exact Hweak|].
        constructor; [left|constructor].
      - intros i j x y Hij Hi Hj.
        destruct (decide (j < List.length unique)%nat) as [Hlt | Hge].
        + rewrite lookup_app_l in Hi by lia. rewrite lookup_app_l in Hj by lia.
          exact (Hd i j x y Hij Hi Hj).
        + assert (Hil : (i < List.length unique)%nat).
          { apply lookup_lt_Some in Hj. rewrite length_app in Hj.
            cbn [List.length] in Hj. lia. }
          rewrite lookup_app_l in Hi by lia.
          rewrite lookup_app_r in Hj by lia.
          destruct (j - List.length unique)%nat as [|n] eqn:Hn; [|destruct n; discriminate].
          injection Hj as <-.
          assert (Hin : round4 x ∈ seen).
          { apply (proj1 (Forall_forall _ _) Hseen).
            eapply list_elem_of_lookup_2. exact Hi. }
          destruct (round4 a =? round4 x) eqn:Hk; [|reflexivity].
          assert (Hex : existsb (fun k => round4 a =? k) seen = true).
          { apply existsb_exists. exists (round4 x).
            split; [apply list_elem_of_In; exact Hin|exact Hk]. }
          rewrite Hex in He. discriminate. }
    destruct Hkeep as [Hs' Hd'].
    destruct (negb full).
    * inv_bind Hu. destruct (_ <? _).
      -- exact (IH _ _ _ Hu Hweak Hd).
      -- exact (IH _ _ _ Hu Hs' Hd').
    * exact (IH _ _ _ Hu Hs' Hd').
Qed.

(** No ray is cast twice: in every arithmetic, in the list of angles the
    filtering loop keeps, no angle has a key [round(a, 4)] that is [==] to
    the key of an angle kept before it. *)
Theorem kept_angles_have_distinct_keys (fuel : nat) (facing fov : F)
    (full : bool) (angles res : list F) :
  unique_loop fuel facing fov full angles [] [] = Ok res ->
  distinct_keys res.
Proof.
intros Hu. apply (unique_loop_distinct _ _ _ _ _ _ _ _ Hu).
- constructor.
- intros i j a b _ Hi. discriminate.
Qed.
End Work.

Section WorkInstance.
Import VisibilityEngine.
Local Open Scope float_scope.

(** The same at one wall, (5, -1)-(5, 1), seen on binary64 from (0, 0) in
    360-degree mode. *)
Lemma points_and_hits_bounded_witness :
  exists (poly : list (Vec2.t float)) (hits : gset nat),
    compute_visibility_polygon (H := float_PyFloat coarse_builtins) 4
      [Wall.init (H := float_PyFloat coarse_builtins)
         (Vec2.make 5 (-1)) (Vec2.make 5 1) false None 0 None]
      (Vec2.make 0 0) 0 1.5 true = Ok (poly, hits)
    /\ poly <> []
    /\ (List.length poly <= 6 * 1 + 64)%nat
    /\ forall i : nat, i ∈ hits -> (i < 1)%nat.
Proof.
eexists. eexists. split; [vm_compute; reflexivity|].
split; [discriminate|].
apply (points_and_hits_bounded (H := float_PyFloat coarse_builtins) 4
         [Wall.init (H := float_PyFloat coarse_builtins)
            (Vec2.make 5 (-1)) (Vec2.make 5 1) false None 0 None]
         (Vec2.make 0 0) 0 1.5 true).
vm_compute. reflexivity.
Defined.

(** The same for the candidates 0.5, 0.5 and -0.5 on binary64 in 360-degree
    mode: the second is dropped. *)
Lemma kept_angles_have_distinct_keys_witness :
  exists res : list float,
    unique_loop (H := float_PyFloat coarse_builtins) 4 0 1.5 true
      [0.5; 0.5; -0.5] [] [] = Ok res
    /\ List.length res = 2%nat
    /\ distinct_keys (H := float_PyFloat coarse_builtins) res.
Proof.
eexists. split; [vm_compute; reflexivity|].
split; [reflexivity|].
apply (kept_angles_have_distinct_keys (H := float_PyFloat coarse_builtins)
         4 0 1.5 true [0.5; 0.5; -0.5]).
vm_compute. reflexivity.
Defined.
End WorkInstance.
